(** * Softmax (chainer/functions/activation/softmax.py)

    A shallow embedding of the [Softmax] function object: its type check,
    the backend dispatch, the generic (array library) forward and backward
    computations and the cuDNN code path.

    The arrays are modelled twice. The store of mutable objects, the
    dispatch, the type check, shapes, element types, broadcasting and the
    algebra of the backward computation are stated over arrays of real
    numbers ([Numpy]): there an element is a number and no operation
    rounds. What [forward] guarantees about the numbers it returns depends
    on overflow, on the infinities and NaN and on rounding; it is stated
    over arrays of floating-point values ([Fp]), whose arithmetic keeps the
    special values of IEEE 754, the range of the element type and a
    rounding with the usual error bound. *)

From Stdlib Require Import List ZArith Reals Lia Lra Bool PeanoNat Ascii
  Permutation.
Import ListNotations.

Set Implicit Arguments.

(* ================================================================== *)
(** * Python outcomes *)

Module Py.

(** The expression of [check_type_forward] that an [InvalidType] error
    reports. *)
Inductive expectation :=
| ExpectSize      (* in_types.size() == 1 *)
| ExpectKind      (* x_type.dtype.kind == 'f' *)
| ExpectNdim      (* x_type.ndim > 1 *)
| ExpectAxis.     (* self.axis < x_type.ndim *)

(** The exception classes the code can raise. *)
Inductive exn :=
| InvalidType (e : expectation)
    (* chainer.utils.type_check.InvalidType *)
| ValueError
    (* axis out of bounds, reduction of an empty axis, shapes that do not
       broadcast, reshape to another size *)
| TypeError
    (* a ufunc result that cannot be cast to its output, operands of two
       array libraries, a dtype without a cuDNN data type *)
| IndexError
    (* tuple index out of range *)
| AttributeError
    (* no attribute 'y' on the function object, no 'data.ptr' on a host
       array *)
| CuDNNError
    (* cudnn.CuDNNError: the library call did not return SUCCESS *)
| Dangling.
    (* not a Python error: a reference that names no object of the store *)

Inductive result (A : Type) :=
| Ok (a : A)
| Raise (e : exn).
Arguments Ok {A} a.
Arguments Raise {A} e.

Definition rbind {A B} (r : result A) (k : A -> result B) : result B :=
  match r with
  | Ok a => k a
  | Raise e => Raise e
  end.

Definition is_ok {A} (r : result A) : bool :=
  match r with Ok _ => true | Raise _ => false end.

(** Sequence indexing [t[i]] with Python's negative indices. *)
Definition index {A} (t : list A) (i : Z) : result A :=
  let n := Z.of_nat (length t) in
  if ((- n <=? i) && (i <? n))%Z
  then match nth_error t (Z.to_nat (if (i <? 0)%Z then i + n else i)) with
       | Some a => Ok a
       | None => Raise IndexError
       end
  else Raise IndexError.

(** One bound of a slice, clamped the way [slice.indices] does. *)
Definition slice_bound (n : nat) (i : Z) : nat :=
  if (i <? 0)%Z then Z.to_nat (Z.max (i + Z.of_nat n) 0)
  else Nat.min (Z.to_nat i) n.

(** [t[slice(start, stop)]]. *)
Definition slice {A} (t : list A) (start stop : Z) : list A :=
  let n := length t in
  let b := slice_bound n start in
  let e := slice_bound n stop in
  firstn (e - b) (skipn b t).

End Py.
Import Py.

Notation "x <- c1 ;; c2" := (rbind c1 (fun x => c2))
  (at level 61, c1 at next level, right associativity).

(* ================================================================== *)
(** * Row-major index arithmetic *)

Module Idx.

(** Number of elements of a shape ([numpy.prod]). *)
Definition size (s : list nat) : nat := fold_right Nat.mul 1 s.

(** Offset of a multi-index in a C-contiguous buffer. *)
Fixpoint ravel (s idx : list nat) : nat :=
  match s, idx with
  | _ :: s', i :: idx' => i * size s' + ravel s' idx'
  | _, _ => 0
  end.

(** Multi-index of an offset. *)
Fixpoint unravel (s : list nat) (k : nat) : list nat :=
  match s with
  | [] => []
  | _ :: s' => (k / size s') :: unravel s' (k mod size s')
  end.

(** [idx] is a valid multi-index of an array of shape [s]. *)
Definition in_bounds (s idx : list nat) : Prop := Forall2 lt idx s.

(** Replace the entry at position [n]. *)
Fixpoint upd {A} (n : nat) (a : A) (l : list A) : list A :=
  match l, n with
  | [], _ => []
  | _ :: l', O => a :: l'
  | b :: l', S n' => b :: upd n' a l'
  end.

(** The buffer whose element at multi-index [idx] is [f idx]. *)
Definition tabulate {A} (s : list nat) (f : list nat -> A) : list A :=
  map (fun k => f (unravel s k)) (seq 0 (size s)).

End Idx.
Import Idx.

(* ================================================================== *)
(** * The array library (numpy / cupy), on real-valued buffers *)

(** Arrays of rank 0 are not given the rules numpy has for them alone (a
    0-d operand does not take part in the promotion of the element types,
    a reduction accepts the axes 0 and -1): what is stated with these
    operations is stated for arrays of at least one dimension. *)
Module Numpy.

(** Which library an array object belongs to: [numpy] arrays live in host
    memory, [cupy] arrays on the accelerator. *)
Inductive array_module := numpy | cupy.

Definition array_module_eqb (a b : array_module) : bool :=
  match a, b with
  | numpy, numpy | cupy, cupy => true
  | _, _ => false
  end.

Inductive dtype := float16 | float32 | float64 | int32 | int64.

Definition dtype_eqb (a b : dtype) : bool :=
  match a, b with
  | float16, float16 | float32, float32 | float64, float64
  | int32, int32 | int64, int64 => true
  | _, _ => false
  end.

(** [dtype.kind] *)
Definition kind (d : dtype) : ascii :=
  match d with
  | float16 | float32 | float64 => "f"%char
  | int32 | int64 => "i"%char
  end.

(** [numpy.promote_types] *)
Definition promote (a b : dtype) : dtype :=
  match a, b with
  | float16, float16 => float16
  | float16, float32 | float32, float16 | float32, float32 => float32
  | int32, int32 => int32
  | int32, int64 | int64, int32 | int64, int64 => int64
  | _, _ => float64
  end.

(** [numpy.can_cast(from, to, 'same_kind')] *)
Definition can_cast (from to : dtype) : bool :=
  Ascii.eqb (kind to) "f" || Ascii.eqb (kind from) "i".

(** Type of the result of a ufunc that computes in floating point
    ([exp], [true_divide]). *)
Definition float_result (d : dtype) : dtype :=
  if Ascii.eqb (kind d) "f" then d else float64.

Record ndarray := mk_ndarray {
  xp_of : array_module;
  dtype_of : dtype;
  shape : list nat;
  data : list R
}.

Definition ndim (a : ndarray) : nat := length (shape a).

(** The buffer holds exactly the elements of the shape. *)
Definition wf (a : ndarray) : Prop := length (data a) = size (shape a).

Definition with_data (a : ndarray) (d : list R) : ndarray :=
  mk_ndarray (xp_of a) (dtype_of a) (shape a) d.

(** [a[idx]] *)
Definition get (a : ndarray) (idx : list nat) : R :=
  nth (ravel (shape a) idx) (data a) 0%R.

(** The elements met when only the index at position [ax] moves. *)
Definition lane (a : ndarray) (ax : nat) (idx : list nat) : list R :=
  map (fun c => get a (upd ax c idx)) (seq 0 (nth ax (shape a) 0)).

Fixpoint maximum (l : list R) : R :=
  match l with
  | [] => 0%R
  | v :: l' => match l' with
               | [] => v
               | _ :: _ => Rmax v (maximum l')
               end
  end.

Definition total (l : list R) : R := fold_right Rplus 0%R l.

(** An [axis] argument, negative values counting from the end. *)
Definition normalize_axis (n : nat) (axis : Z) : result nat :=
  if ((- Z.of_nat n <=? axis) && (axis <? Z.of_nat n))%Z
  then Ok (Z.to_nat (if (axis <? 0)%Z then axis + Z.of_nat n else axis))
  else Raise ValueError.

(** Reduction along one axis with [keepdims=True]. *)
Definition reduce (f : list R -> R) (d : dtype) (a : ndarray) (ax : nat)
  : ndarray :=
  let s := upd ax 1 (shape a) in
  mk_ndarray (xp_of a) d s (tabulate s (fun idx => f (lane a ax idx))).

(** [a.max(axis=axis, keepdims=True)] *)
Definition amax (a : ndarray) (axis : Z) : result ndarray :=
  ax <- normalize_axis (ndim a) axis ;;
  if nth ax (shape a) 0 =? 0 then Raise ValueError
  else Ok (reduce maximum (dtype_of a) a ax).

(** Integers are summed in the platform integer, floats in their own
    type. *)
Definition sum_accumulator (d : dtype) : dtype :=
  if Ascii.eqb (kind d) "f" then d else int64.

(** [a.sum(axis=axis, keepdims=True)] *)
Definition sum (a : ndarray) (axis : Z) : result ndarray :=
  ax <- normalize_axis (ndim a) axis ;;
  Ok (reduce total (promote (dtype_of a) (sum_accumulator (dtype_of a))) a ax).

(** Broadcasting: shapes are aligned at their last dimension. *)
Definition pad (n : nat) (s : list nat) : list nat :=
  repeat 1 (n - length s) ++ s.

Fixpoint bzip (s1 s2 : list nat) : option (list nat) :=
  match s1, s2 with
  | [], [] => Some []
  | a :: s1', b :: s2' =>
      match bzip s1' s2' with
      | Some s =>
          if a =? b then Some (a :: s)
          else if a =? 1 then Some (b :: s)
          else if b =? 1 then Some (a :: s)
          else None
      | None => None
      end
  | _, _ => None
  end.

Definition broadcast_shapes (s1 s2 : list nat) : option (list nat) :=
  let n := Nat.max (length s1) (length s2) in
  bzip (pad n s1) (pad n s2).

Fixpoint bmask (s idx : list nat) : list nat :=
  match s, idx with
  | d :: s', i :: idx' => (if d =? 1 then 0 else i) :: bmask s' idx'
  | _, _ => []
  end.

(** The index into an operand of shape [s] for the index [idx] of the
    broadcast result. *)
Definition bidx (s idx : list nat) : list nat :=
  bmask s (skipn (length idx - length s) idx).

Definition zip_with (f : R -> R -> R) (s : list nat) (a b : ndarray)
  : list R :=
  tabulate s (fun idx => f (get a (bidx (shape a) idx))
                           (get b (bidx (shape b) idx))).

(** A binary ufunc returning a new array: [a - b], [a * b]. *)
Definition binop (f : R -> R -> R) (a b : ndarray) : result ndarray :=
  if array_module_eqb (xp_of a) (xp_of b) then
    match broadcast_shapes (shape a) (shape b) with
    | Some s =>
        Ok (mk_ndarray (xp_of a) (promote (dtype_of a) (dtype_of b)) s
                       (zip_with f s a b))
    | None => Raise ValueError
    end
  else Raise TypeError.

Definition subtract := binop Rminus.
Definition multiply := binop Rmult.

(** A binary ufunc writing into its first operand: [a -= b], [a /= b];
    [rd] is the type the ufunc computes in. *)
Definition inplace (f : R -> R -> R) (rd : dtype) (a b : ndarray)
  : result ndarray :=
  if array_module_eqb (xp_of a) (xp_of b) then
    match broadcast_shapes (shape a) (shape b) with
    | Some s =>
        if list_eq_dec Nat.eq_dec s (shape a) then
          if can_cast rd (dtype_of a)
          then Ok (with_data a (zip_with f s a b))
          else Raise TypeError
        else Raise ValueError
    | None => Raise ValueError
    end
  else Raise TypeError.

Definition isubtract (a b : ndarray) :=
  inplace Rminus (promote (dtype_of a) (dtype_of b)) a b.
Definition itruediv (a b : ndarray) :=
  inplace Rdiv (float_result (promote (dtype_of a) (dtype_of b))) a b.

(** [xp.exp(a, out=a)] *)
Definition exp_inplace (xp : array_module) (a : ndarray) : result ndarray :=
  if array_module_eqb xp (xp_of a) then
    if can_cast (float_result (dtype_of a)) (dtype_of a)
    then Ok (with_data a (map exp (data a)))
    else Raise TypeError
  else Raise TypeError.

(** [a.reshape(s)] of a contiguous array: a view of the same buffer. *)
Definition reshape (a : ndarray) (s : list nat) : result ndarray :=
  if size s =? size (shape a)
  then Ok (mk_ndarray (xp_of a) (dtype_of a) s (data a))
  else Raise ValueError.

(** [xp.empty_like(a)]: the buffer holds whatever the allocator left
    there, [junk k] at offset [k]. *)
Definition empty_like (junk : nat -> R) (a : ndarray) : ndarray :=
  with_data a (map junk (seq 0 (size (shape a)))).

(** [cuda.get_array_module] applied to the arrays [args] *)
Definition get_array_module (args : list ndarray) : array_module :=
  if existsb (fun a => array_module_eqb (xp_of a) cupy) args
  then cupy else numpy.

End Numpy.
Import Numpy.

(* ================================================================== *)
(** * The array library on floating-point values *)

(** The same operations on buffers of floating-point values. Infinities and
    NaN follow IEEE 754; a finite result is rounded to the element type and
    becomes an infinity when it leaves the range of the type. What the
    rounding, the range, the library's [exp] and the order of the additions
    of a reduction are is not fixed by the code: they are the fields of an
    [arithmetic]. The two zeros of IEEE 754 are not told apart. *)
Module Fp.

Inductive fp :=
| Fin (r : R)
| Inf (negative : bool)
| NaN.

(** The order in which a reduction adds the elements of a lane: a leaf names
    the position of an element, a node one addition. *)
Inductive sched :=
| Leaf (i : nat)
| Plus (a b : sched).

Fixpoint leaves (t : sched) : list nat :=
  match t with
  | Leaf i => [i]
  | Plus a b => leaves a ++ leaves b
  end.

(** Number of additions of a schedule. *)
Fixpoint adds (t : sched) : nat :=
  match t with
  | Leaf _ => 0
  | Plus a b => S (adds a + adds b)
  end.

Record arithmetic := mk_arithmetic {
  rnd : R -> R;
    (* rounding of an exact result to the element type, exponent unbounded *)
  fmax : R;
    (* the largest finite value of the element type *)
  acc : R -> R;
    (* rounding in the accumulator of a reduction *)
  acc_max : R;
    (* the largest finite value of the accumulator *)
  libm_exp : R -> R;
    (* what [exp] computes for a finite argument, before the range check *)
  order : nat -> sched
    (* the order in which a reduction adds a lane of that many elements *)
}.

(** A rounded result, or the infinity it overflows to. *)
Definition in_range (bound v : R) : fp :=
  if Rlt_dec bound v then Inf false
  else if Rlt_dec v (- bound) then Inf true
  else Fin v.

Definition of_real (A : arithmetic) (r : R) : fp :=
  in_range (fmax A) (rnd A r).

Definition is_negative (r : R) : bool :=
  if Rlt_dec r 0 then true else false.

Definition fadd (A : arithmetic) (a b : fp) : fp :=
  match a, b with
  | NaN, _ | _, NaN => NaN
  | Inf s, Inf t => if Bool.eqb s t then Inf s else NaN
  | Inf s, Fin _ => Inf s
  | Fin _, Inf t => Inf t
  | Fin x, Fin y => of_real A (x + y)
  end.

Definition fsub (A : arithmetic) (a b : fp) : fp :=
  match a, b with
  | NaN, _ | _, NaN => NaN
  | Inf s, Inf t => if Bool.eqb s t then NaN else Inf s
  | Inf s, Fin _ => Inf s
  | Fin _, Inf t => Inf (negb t)
  | Fin x, Fin y => of_real A (x - y)
  end.

Definition fdiv (A : arithmetic) (a b : fp) : fp :=
  match a, b with
  | NaN, _ | _, NaN => NaN
  | Inf _, Inf _ => NaN
  | Inf s, Fin y => Inf (xorb s (is_negative y))
  | Fin _, Inf _ => Fin 0
  | Fin x, Fin y =>
      if Req_dec_T y 0 then
        if Req_dec_T x 0 then NaN else Inf (is_negative x)
      else of_real A (x / y)
  end.

Definition fexp (A : arithmetic) (a : fp) : fp :=
  match a with
  | NaN => NaN
  | Inf true => Fin 0
  | Inf false => Inf false
  | Fin x => of_real A (libm_exp A x)
  end.

(** The larger of two values; a NaN wins, as in [numpy.maximum]. *)
Definition fmax2 (a b : fp) : fp :=
  match a, b with
  | NaN, _ | _, NaN => NaN
  | Inf false, _ | _, Inf false => Inf false
  | Inf true, v => v
  | v, Inf true => v
  | Fin x, Fin y => Fin (Rmax x y)
  end.

Fixpoint fmaximum (l : list fp) : fp :=
  match l with
  | [] => NaN
  | v :: l' => match l' with
               | [] => v
               | _ :: _ => fmax2 v (fmaximum l')
               end
  end.

(** One addition in the accumulator of a reduction. *)
Definition acc_add (A : arithmetic) (a b : fp) : fp :=
  match a, b with
  | NaN, _ | _, NaN => NaN
  | Inf s, Inf t => if Bool.eqb s t then Inf s else NaN
  | Inf s, Fin _ => Inf s
  | Fin _, Inf t => Inf t
  | Fin x, Fin y => in_range (acc_max A) (acc A (x + y))
  end.

Fixpoint eval (A : arithmetic) (l : list fp) (t : sched) : fp :=
  match t with
  | Leaf i => nth i l NaN
  | Plus a b => acc_add A (eval A l a) (eval A l b)
  end.

(** Conversion of a value to the element type. *)
Definition cast (A : arithmetic) (v : fp) : fp :=
  match v with
  | Fin r => of_real A r
  | _ => v
  end.

(** The sum of a lane: its elements are added in the accumulator, in the
    order of the arithmetic, and the result is converted to the element
    type. *)
Definition fsum (A : arithmetic) (l : list fp) : fp :=
  match l with
  | [] => Fin 0
  | _ :: _ => cast A (eval A l (order A (length l)))
  end.

Record ndarray := mk_ndarray {
  xp_of : array_module;
  dtype_of : dtype;
  shape : list nat;
  data : list fp
}.

Definition ndim (a : ndarray) : nat := length (shape a).

Definition wf (a : ndarray) : Prop := length (data a) = size (shape a).

Definition with_data (a : ndarray) (d : list fp) : ndarray :=
  mk_ndarray (xp_of a) (dtype_of a) (shape a) d.

Definition get (a : ndarray) (idx : list nat) : fp :=
  nth (ravel (shape a) idx) (data a) NaN.

Definition lane (a : ndarray) (ax : nat) (idx : list nat) : list fp :=
  map (fun c => get a (upd ax c idx)) (seq 0 (nth ax (shape a) 0)).

Definition reduce (f : list fp -> fp) (d : dtype) (a : ndarray) (ax : nat)
  : ndarray :=
  let s := upd ax 1 (shape a) in
  mk_ndarray (xp_of a) d s (tabulate s (fun idx => f (lane a ax idx))).

(** [a.max(axis=axis, keepdims=True)] *)
Definition amax (a : ndarray) (axis : Z) : result ndarray :=
  ax <- normalize_axis (ndim a) axis ;;
  if nth ax (shape a) 0 =? 0 then Raise ValueError
  else Ok (reduce fmaximum (dtype_of a) a ax).

(** [a.sum(axis=axis, keepdims=True)], in the arithmetic of the type of the
    result. *)
Definition sum (ar : dtype -> arithmetic) (a : ndarray) (axis : Z)
  : result ndarray :=
  ax <- normalize_axis (ndim a) axis ;;
  let d := promote (dtype_of a) (sum_accumulator (dtype_of a)) in
  Ok (reduce (fsum (ar d)) d a ax).

Definition zip_with (f : fp -> fp -> fp) (s : list nat) (a b : ndarray)
  : list fp :=
  tabulate s (fun idx => f (get a (bidx (shape a) idx))
                           (get b (bidx (shape b) idx))).

(** A binary ufunc returning a new array, computed in the promoted type. *)
Definition binop (f : arithmetic -> fp -> fp -> fp) (ar : dtype -> arithmetic)
           (a b : ndarray) : result ndarray :=
  if array_module_eqb (xp_of a) (xp_of b) then
    match broadcast_shapes (shape a) (shape b) with
    | Some s =>
        let d := promote (dtype_of a) (dtype_of b) in
        Ok (mk_ndarray (xp_of a) d s (zip_with (f (ar d)) s a b))
    | None => Raise ValueError
    end
  else Raise TypeError.

Definition subtract := binop fsub.

(** What is written to an output of type [to] for a result computed in the
    type [from]. *)
Definition convert (ar : dtype -> arithmetic) (from to : dtype) (v : fp)
  : fp :=
  if dtype_eqb from to then v else cast (ar to) v.

(** A binary ufunc writing into its first operand; [rd] is the type the
    ufunc computes in. *)
Definition inplace (f : arithmetic -> fp -> fp -> fp)
           (ar : dtype -> arithmetic) (rd : dtype) (a b : ndarray)
  : result ndarray :=
  if array_module_eqb (xp_of a) (xp_of b) then
    match broadcast_shapes (shape a) (shape b) with
    | Some s =>
        if list_eq_dec Nat.eq_dec s (shape a) then
          if can_cast rd (dtype_of a)
          then Ok (with_data a (map (convert ar rd (dtype_of a))
                                    (zip_with (f (ar rd)) s a b)))
          else Raise TypeError
        else Raise ValueError
    | None => Raise ValueError
    end
  else Raise TypeError.

Definition itruediv (ar : dtype -> arithmetic) (a b : ndarray) :=
  inplace fdiv ar (float_result (promote (dtype_of a) (dtype_of b))) a b.

(** [xp.exp(a, out=a)] *)
Definition exp_inplace (ar : dtype -> arithmetic) (xp : array_module)
           (a : ndarray) : result ndarray :=
  let rd := float_result (dtype_of a) in
  if array_module_eqb xp (xp_of a) then
    if can_cast rd (dtype_of a)
    then Ok (with_data a (map (fun v => convert ar rd (dtype_of a)
                                                (fexp (ar rd) v))
                              (data a)))
    else Raise TypeError
  else Raise TypeError.

End Fp.

(* ================================================================== *)
(** * The cuDNN bindings *)

Module Cudnn.

Inductive softmax_algorithm :=
| CUDNN_SOFTMAX_FAST
| CUDNN_SOFTMAX_ACCURATE
| CUDNN_SOFTMAX_LOG.

Inductive softmax_mode :=
| CUDNN_SOFTMAX_MODE_INSTANCE
| CUDNN_SOFTMAX_MODE_CHANNEL.

(** The library is not part of the repository; it is a parameter of the
    code.  A call takes the scaling factors, the shape held by the tensor
    descriptor and the buffers behind the data pointers, and gives the new
    content of the destination buffer, or [None] when the returned status
    is not SUCCESS. *)
Record library := mk_library {
  getVersion : Z;
  softmaxForward :
    softmax_algorithm -> softmax_mode ->
    R -> list nat -> list R -> R -> list R -> option (list R);
  softmaxBackward :
    softmax_algorithm -> softmax_mode ->
    R -> list nat -> list R -> list R -> R -> list R -> option (list R)
}.

(** The values of a buffer of shape [s] along its channel dimension
    (dimension 1 of N, C, H, W) through [idx]. *)
Definition channel (s : list nat) (x : list R) (idx : list nat) : list R :=
  map (fun c => nth (ravel s (upd 1 c idx)) x 0%R) (seq 0 (nth 1 s 0)).

(** What the library documents for [cudnnSoftmaxForward] with
    CUDNN_SOFTMAX_ACCURATE and CUDNN_SOFTMAX_MODE_CHANNEL: the softmax
    over C at every (n, h, w), the maximum subtracted first, blended as
    [alpha * result + beta * prior]. *)
Definition channel_softmax (alpha : R) (s : list nat) (x : list R)
           (beta : R) (prior : list R) : list R :=
  tabulate s (fun idx =>
    let m := maximum (channel s x idx) in
    let e := fun v => exp (v - m) in
    (alpha * (e (nth (ravel s idx) x 0) / total (map e (channel s x idx)))
     + beta * nth (ravel s idx) prior 0)%R).

(** What the library documents for [cudnnSoftmaxBackward] in the same
    mode: [dx = y * (dy - sum over C of y * dy)]. *)
Definition channel_softmax_grad (alpha : R) (s : list nat) (y dy : list R)
           (beta : R) (prior : list R) : list R :=
  tabulate s (fun idx =>
    let dot := total (map (fun p => fst p * snd p)
                          (combine (channel s y idx) (channel s dy idx)))%R in
    (alpha * (nth (ravel s idx) y 0 * (nth (ravel s idx) dy 0 - dot))
     + beta * nth (ravel s idx) prior 0)%R).

(** The library computes what it documents, on buffers that match the
    four-dimensional descriptor. *)
Definition honours_contract (lib : library) : Prop :=
  forall alpha beta n c h w x prior,
    let s := [n; c; h; w] in
    length x = size s -> length prior = size s ->
    softmaxForward lib CUDNN_SOFTMAX_ACCURATE CUDNN_SOFTMAX_MODE_CHANNEL
                   alpha s x beta prior
    = Some (channel_softmax alpha s x beta prior)
    /\ forall dy, length dy = size s ->
       softmaxBackward lib CUDNN_SOFTMAX_ACCURATE
                       CUDNN_SOFTMAX_MODE_CHANNEL alpha s x dy beta prior
       = Some (channel_softmax_grad alpha s x dy beta prior).

(** A library that does just that. *)
Definition reference (version : Z) : library :=
  mk_library version
    (fun _ _ alpha s x beta prior =>
       Some (channel_softmax alpha s x beta prior))
    (fun _ _ alpha s y dy beta prior =>
       Some (channel_softmax_grad alpha s y dy beta prior)).

End Cudnn.

(* ================================================================== *)
(** * The store of array objects and the function object *)

Module Store.

(** An array object is named by its position in the store. *)
Definition ref := nat.

(** [class Softmax]: the two attributes set by [__init__], and [y], which
    exists only once [forward] has assigned it. *)
Record Softmax := mk_Softmax {
  use_cudnn : bool;
  axis : Z;
  y : option ref
}.

Record state := mk_state {
  heap : list ndarray;
  self : Softmax
}.

(** A method body: it may change the store and [self], and it returns or
    raises.  What was changed before a raise stays changed. *)
Definition M (A : Type) : Type := state -> state * result A.

Definition ret {A} (a : A) : M A := fun st => (st, Ok a).

Definition bind {A B} (m : M A) (k : A -> M B) : M B :=
  fun st => match m st with
            | (st', Ok a) => k a st'
            | (st', Raise e) => (st', Raise e)
            end.

Definition lift {A} (r : result A) : M A := fun st => (st, r).

Definition deref (r : ref) : M ndarray :=
  fun st => (st, match nth_error (heap st) r with
                 | Some a => Ok a
                 | None => Raise Dangling
                 end).

(** A new array object. *)
Definition alloc (a : ndarray) : M ref :=
  fun st => (mk_state (heap st ++ [a]) (self st), Ok (length (heap st))).

(** Overwrite the buffer of an existing object. *)
Definition store (r : ref) (a : ndarray) : M unit :=
  fun st => (mk_state (upd r a (heap st)) (self st), Ok tt).

Definition get_self : M Softmax := fun st => (st, Ok (self st)).

(** [self.y] *)
Definition get_y : M ref :=
  fun st => (st, match y (self st) with
                 | Some r => Ok r
                 | None => Raise AttributeError
                 end).

(** [self.y = r] *)
Definition set_y (r : ref) : M unit :=
  fun st => (mk_state (heap st)
                      (mk_Softmax (use_cudnn (self st)) (axis (self st))
                                  (Some r)), Ok tt).

Fixpoint deref_all (rs : list ref) : M (list ndarray) :=
  match rs with
  | [] => ret []
  | r :: rs' => bind (deref r) (fun a =>
                bind (deref_all rs') (fun l => ret (a :: l)))
  end.

End Store.
Import Store.

Notation "x <-- c1 ;;; c2" := (bind c1 (fun x => c2))
  (at level 61, c1 at next level, right associativity).
Notation "c1 ;;; c2" := (bind c1 (fun _ => c2))
  (at level 61, right associativity).

(* ================================================================== *)
(** * chainer.functions.activation.softmax *)

(** The module-level state of [chainer.cuda]: whether cuDNN was found, the
    library itself, and the content of freshly allocated device memory. *)
Record cuda := mk_cuda {
  cudnn_enabled : bool;
  libcudnn : Cudnn.library;
  junk : nat -> R
}.

Definition _cudnn_version (g : cuda) : Z := Cudnn.getVersion (libcudnn g).
Definition _algorithm := Cudnn.CUDNN_SOFTMAX_ACCURATE.
Definition _mode := Cudnn.CUDNN_SOFTMAX_MODE_CHANNEL.

(** What [check_type_forward] sees of an input. *)
Record TypeInfo := mk_TypeInfo {
  t_dtype : dtype;
  t_ndim : nat
}.

Definition type_of (a : ndarray) : TypeInfo := mk_TypeInfo (dtype_of a) (ndim a).

(** Modelled from the spec: [type_check.expect] (chainer/utils/type_check.py)
    is not among the sources; it tests its arguments in the order they are
    written and raises [InvalidType] at the first one that is false. *)
Fixpoint expect (tests : list (bool * expectation)) : result unit :=
  match tests with
  | [] => Ok tt
  | (b, e) :: rest => if b then expect rest else Raise (InvalidType e)
  end.

Definition check_type_forward (self : Softmax) (in_types : list TypeInfo)
  : result unit :=
  _ <- expect [(length in_types =? 1, ExpectSize)] ;;
  match in_types with
  | [x_type] =>
      expect [ (Ascii.eqb (kind (t_dtype x_type)) "f", ExpectKind);
               (1 <? t_ndim x_type, ExpectNdim);
               ((axis self <? Z.of_nat (t_ndim x_type))%Z, ExpectAxis) ]
  | _ => Raise ValueError
  end.

(** [numpy.prod(..., dtype=numpy.int)] multiplies in the C long of the
    platform and wraps around; the extents are taken as the exact products,
    which is what the code computes as long as they fit, as they do for
    the shape of an array in memory where that integer has 64 bits. *)
Definition _get_tensor4d_shape (self : Softmax) (shape : list nat)
  : result (list nat) :=
  let left_shape := size (slice shape 0 (axis self)) in
  center_shape <- index shape (axis self) ;;
  let right_shape :=
    size (slice shape (axis self + 1) (Z.of_nat (length shape))) in
  Ok [left_shape; center_shape; right_shape; 1].

(** [cudnn.create_tensor_descriptor]: the descriptor records the shape; only
    floating-point arrays have a cuDNN data type. *)
Definition create_tensor_descriptor (a : ndarray) : result (list nat) :=
  if Ascii.eqb (kind (dtype_of a)) "f" then Ok (shape a) else Raise TypeError.

(** [a.data.ptr]: only a device array has it. The library reads the buffer
    under the descriptor it is given with it, so the elements are what the
    array holds only when the array is contiguous and has the element type
    of the descriptor. *)
Definition data_ptr (a : ndarray) : result (list R) :=
  match xp_of a with
  | cupy => Ok (data a)
  | numpy => Raise AttributeError
  end.

(** The condition of the [if] in [forward] and in [backward], with the
    short-circuit evaluation of [and] and [or]. *)
Definition use_cudnn_path (g : cuda) (self : Softmax) (x : list ndarray)
  : result bool :=
  let xp := get_array_module x in
  if negb (array_module_eqb xp numpy) then
    if cudnn_enabled g then
      if use_cudnn self then
        if (3000 <=? _cudnn_version g)%Z then Ok true
        else x0 <- index x 0 ;;
             Ok (negb (dtype_eqb (dtype_of x0) float16))
      else Ok false
    else Ok false
  else Ok false.

(** The [if] branch of [forward]. *)
Definition forward_cudnn (g : cuda) (x : list ndarray) : M ref :=
  let xp := get_array_module x in
  x0 <-- lift (index x 0) ;;;
  self <-- get_self ;;;
  s4 <-- lift (_get_tensor4d_shape self (shape x0)) ;;;
  x_tensor4d <-- lift (reshape x0 s4) ;;;
  desc <-- lift (create_tensor_descriptor x_tensor4d) ;;;
  let fresh := mk_ndarray xp (dtype_of x0) (shape x0)
                          (data (empty_like (junk g) x0)) in
  r <-- alloc fresh ;;;
  set_y r ;;;
  src <-- lift (data_ptr x_tensor4d) ;;;
  match Cudnn.softmaxForward (libcudnn g) _algorithm _mode
                             1%R desc src 0%R (data fresh) with
  | Some out => store r (with_data fresh out) ;;; ret r
  | None => lift (Raise CuDNNError)
  end.

(** The [else] branch of [forward]. *)
Definition forward_generic (x : list ndarray) : M ref :=
  let xp := get_array_module x in
  x0 <-- lift (index x 0) ;;;
  self <-- get_self ;;;
  m <-- lift (amax x0 (axis self)) ;;;
  d <-- lift (subtract x0 m) ;;;
  r <-- alloc d ;;;
  set_y r ;;;
  (* xp.exp(self.y, out=self.y) *)
  r <-- get_y ;;;
  a <-- deref r ;;;
  e <-- lift (exp_inplace xp a) ;;;
  store r e ;;;
  (* self.y /= self.y.sum(axis=self.axis, keepdims=True) *)
  r <-- get_y ;;;
  a <-- deref r ;;;
  self <-- get_self ;;;
  t <-- lift (Numpy.sum a (axis self)) ;;;
  q <-- lift (itruediv a t) ;;;
  store r q ;;;
  get_y.

Definition forward (g : cuda) (x : list ref) : M ref :=
  xs <-- deref_all x ;;;
  self <-- get_self ;;;
  c <-- lift (use_cudnn_path g self xs) ;;;
  if c : bool then forward_cudnn g xs else forward_generic xs.

(** The [if] branch of [backward]. *)
Definition backward_cudnn (g : cuda) (x : list ndarray) (gy : list ref)
  : M ref :=
  let xp := get_array_module x in
  x0 <-- lift (index x 0) ;;;
  let gx := mk_ndarray xp (dtype_of x0) (shape x0)
                       (data (empty_like (junk g) x0)) in
  p <-- alloc gx ;;;
  self <-- get_self ;;;
  s4 <-- lift (_get_tensor4d_shape self (shape gx)) ;;;
  gx_tensor4d <-- lift (reshape gx s4) ;;;
  desc <-- lift (create_tensor_descriptor gx_tensor4d) ;;;
  yr <-- get_y ;;;
  ya <-- deref yr ;;;
  ybuf <-- lift (data_ptr ya) ;;;
  gr <-- lift (index gy 0) ;;;
  ga <-- deref gr ;;;
  gbuf <-- lift (data_ptr ga) ;;;
  match Cudnn.softmaxBackward (libcudnn g) _algorithm _mode
                              1%R desc ybuf gbuf 0%R (data gx) with
  | Some out => store p (with_data gx out) ;;; ret p
  | None => lift (Raise CuDNNError)
  end.

(** The [else] branch of [backward]. *)
Definition backward_generic (gy : list ref) : M ref :=
  (* gx = self.y * gy[0] *)
  yr <-- get_y ;;;
  ya <-- deref yr ;;;
  gr <-- lift (index gy 0) ;;;
  ga <-- deref gr ;;;
  gx <-- lift (multiply ya ga) ;;;
  p <-- alloc gx ;;;
  (* sumdx = gx.sum(axis=self.axis, keepdims=True) *)
  gx <-- deref p ;;;
  self <-- get_self ;;;
  sumdx <-- lift (Numpy.sum gx (axis self)) ;;;
  (* gx -= self.y * sumdx *)
  yr <-- get_y ;;;
  ya <-- deref yr ;;;
  t <-- lift (multiply ya sumdx) ;;;
  gx' <-- lift (isubtract gx t) ;;;
  store p gx' ;;;
  ret p.

Definition backward (g : cuda) (x : list ref) (gy : list ref) : M ref :=
  xs <-- deref_all x ;;;
  self <-- get_self ;;;
  c <-- lift (use_cudnn_path g self xs) ;;;
  if c : bool then backward_cudnn g xs gy else backward_generic gy.

(** Modelled from the spec: [Function.__call__] (chainer/function.py) is not
    among the sources; the type check of the inputs runs once per call,
    before [forward] computes or allocates anything. *)
Definition call (g : cuda) (x : list ref) : M ref :=
  xs <-- deref_all x ;;;
  self <-- get_self ;;;
  lift (check_type_forward self (map type_of xs)) ;;;
  forward g x.

(** [Softmax(use_cudnn=use_cudnn, axis=axis)] *)
Definition init (use_cudnn : bool) (axis : Z) : Softmax :=
  mk_Softmax use_cudnn axis None.

(** [softmax(x, use_cudnn, axis)]: a new function object, called once on
    [x], in the store [h]. *)
Definition softmax (g : cuda) (x : list ref) (use_cudnn : bool) (axis : Z)
           (h : list ndarray) : state * result ref :=
  call g x (mk_state h (init use_cudnn axis)).

(** The defaults of the keyword arguments: [use_cudnn=True], [axis=1]. *)
Definition default_use_cudnn : bool := true.
Definition default_axis : Z := 1%Z.

(** ** The [else] branch of [forward] in floating point *)

(** The array the [else] branch of [forward] leaves in [self.y] (lines 49
    to 51), computed on floating-point values; [xp] is the array module of
    the inputs. *)
Definition forward_generic_fp (ar : dtype -> Fp.arithmetic)
           (xp : array_module) (x0 : Fp.ndarray) (axis : Z)
  : result Fp.ndarray :=
  m <- Fp.amax x0 axis ;;
  d <- Fp.subtract ar x0 m ;;
  e <- Fp.exp_inplace ar xp d ;;
  t <- Fp.sum ar e axis ;;
  Fp.itruediv ar e t.

(** The array in [self.y] after the first two of these statements. *)
Definition forward_exponentials_fp (ar : dtype -> Fp.arithmetic)
           (xp : array_module) (x0 : Fp.ndarray) (axis : Z)
  : result Fp.ndarray :=
  m <- Fp.amax x0 axis ;;
  d <- Fp.subtract ar x0 m ;;
  Fp.exp_inplace ar xp d.


(* ================================================================== *)
(** * Vocabulary of the specification *)

(** The softmax of the values that [a] holds along dimension [ax] through
    [idx], in the stable form: the maximum is subtracted before [exp]. *)
Definition softmax_at (a : ndarray) (ax : nat) (idx : list nat) : R :=
  let l := lane a ax idx in
  let m := maximum l in
  (exp (get a idx - m) / total (map (fun v => exp (v - m)) l))%R.

Definition softmax_of (a : ndarray) (ax : nat) : ndarray :=
  mk_ndarray (xp_of a) (dtype_of a) (shape a)
             (tabulate (shape a) (softmax_at a ax)).

(** The vector-Jacobian product of softmax at [idx]:
    [y_i * (gy_i - sum_j y_j * gy_j)], [j] ranging over dimension [ax]. *)
Definition vjp_at (ya ga : ndarray) (ax : nat) (idx : list nat) : R :=
  let js := seq 0 (nth ax (shape ya) 0) in
  let dot :=
    total (map (fun j => get ya (upd ax j idx) * get ga (upd ax j idx))%R js)
  in (get ya idx * (get ga idx - dot))%R.

(** The array the [else] branch of [forward] leaves in [self.y], as a
    function of the input array alone. *)
Definition generic_forward_value (xp : array_module) (x0 : ndarray)
           (axis : Z) : result ndarray :=
  m <- amax x0 axis ;;
  d <- subtract x0 m ;;
  e <- exp_inplace xp d ;;
  t <- Numpy.sum e axis ;;
  itruediv e t.

(** The array the [else] branch of [backward] returns, as a function of the
    memoized output and the upstream gradient. *)
Definition generic_backward_value (ya ga : ndarray) (axis : Z)
  : result ndarray :=
  gx <- multiply ya ga ;;
  sumdx <- Numpy.sum gx axis ;;
  t <- multiply ya sumdx ;;
  isubtract gx t.

(** What the [else] branch of [backward] returns or raises, read off the
    store without running it. *)
Definition generic_backward_outcome (st : state) (gy : list ref)
  : result ndarray :=
  match y (self st) with
  | None => Raise AttributeError
  | Some yr =>
      match nth_error (heap st) yr with
      | None => Raise Dangling
      | Some ya =>
          gr <- index gy 0 ;;
          match nth_error (heap st) gr with
          | None => Raise Dangling
          | Some ga => generic_backward_value ya ga (axis (self st))
          end
      end
  end.

(** [backward] finds its operands: [self.y] exists, [gy] has a first
    element, and both name arrays of the store. *)
Definition operands_found (st : state) (gy : list ref) : Prop :=
  exists yr ya gr ga,
    y (self st) = Some yr /\ nth_error (heap st) yr = Some ya
    /\ index gy 0 = Ok gr /\ nth_error (heap st) gr = Some ga.

(** The store and the function object after [n] calls of [backward] with
    the same arguments. *)
Fixpoint after_backwards (g : cuda) (x gy : list ref) (n : nat) (st : state)
  : state :=
  match n with
  | O => st
  | S n' => after_backwards g x gy n' (fst (backward g x gy st))
  end.

(** [self] once [forward] has stored the object [r] in [self.y]. *)
Definition remember (self : Softmax) (r : ref) : Softmax :=
  mk_Softmax (use_cudnn self) (axis self) (Some r).

(** The multi-index, in the four-dimensional view (left, center, right, 1)
    that [_get_tensor4d_shape] builds around dimension [ax], of the element
    at multi-index [idx]. *)
Definition to4 (ax : nat) (s idx : list nat) : list nat :=
  [ ravel (firstn ax s) (firstn ax idx);
    nth ax idx 0;
    ravel (skipn (S ax) s) (skipn (S ax) idx);
    0 ].

Definition shape4 (ax : nat) (s : list nat) : list nat :=
  [ size (firstn ax s); nth ax s 0; size (skipn (S ax) s); 1 ].

(** What the three statements of the [else] branch of [backward] leave at
    [idx]: the product, minus the output times the sum of the products
    along dimension [ax]. *)
Definition backward_at (ya ga : ndarray) (ax : nat) (idx : list nat) : R :=
  let js := seq 0 (nth ax (shape ya) 0) in
  let s :=
    total (map (fun j => get ya (upd ax j idx) * get ga (upd ax j idx))%R js)
  in (get ya idx * get ga idx - get ya idx * s)%R.

Definition backward_of (ya ga : ndarray) (ax : nat) : ndarray :=
  mk_ndarray (xp_of ya) (promote (dtype_of ya) (dtype_of ga)) (shape ya)
             (tabulate (shape ya) (backward_at ya ga ax)).

(** An input of the operator as the specification describes it: at least
    two dimensions, all of them positive, a floating-point element type,
    and a buffer with one value per element. *)
Definition valid_input (a : ndarray) : Prop :=
  wf a /\ 2 <= ndim a /\ kind (dtype_of a) = "f"%char /\
  Forall (fun d => 0 < d) (shape a).

(** An axis in [0, rank). *)
Definition valid_axis (axis : Z) (a : ndarray) : Prop :=
  (0 <= axis < Z.of_nat (ndim a))%Z.

(** The two backends of the specification. *)
Inductive backend := Generic | Specialized.

(** The decision rule as the specification words it. *)
Definition select_backend_spec (on_accelerator library_available
                                config_permits version_ok is_half : bool)
  : backend :=
  if on_accelerator && library_available && config_permits
     && (version_ok || negb is_half)
  then Specialized else Generic.

(** The value of the condition of the [if] for a first input of array
    library [xp] and element type [d]. *)
Definition takes_cudnn (g : cuda) (self : Softmax) (xp : array_module)
           (d : dtype) : bool :=
  negb (array_module_eqb xp numpy) && cudnn_enabled g && use_cudnn self
  && ((3000 <=? _cudnn_version g)%Z || negb (dtype_eqb d float16)).

(** Either the call stays in the array library, or it goes to a cuDNN that
    computes what its documentation says. *)
Definition backend_known (g : cuda) (self : Softmax) (a : ndarray) : Prop :=
  takes_cudnn g self (xp_of a) (dtype_of a) = false
  \/ Cudnn.honours_contract (libcudnn g).

(** The array a method returned, or the error it raised. *)
Definition outcome (run : state * result ref) : result ndarray :=
  match snd run with
  | Ok p => match nth_error (heap (fst run)) p with
            | Some a => Ok a
            | None => Raise Dangling
            end
  | Raise e => Raise e
  end.


(** ** Vocabulary for floating-point values *)

(** The number a finite value stands for. *)
Definition value (v : Fp.fp) : R :=
  match v with
  | Fp.Fin r => r
  | _ => 0%R
  end.

Definition finite (v : Fp.fp) : Prop :=
  match v with
  | Fp.Fin _ => True
  | _ => False
  end.

(** What an IEEE 754 arithmetic with unit roundoff [u] and underflow
    threshold [eta] guarantees: rounding is monotone, leaves the values of
    the type (among them 0 and 1) alone, and is off by at most [u] times
    the exact result plus [eta]; the accumulator of a reduction is no less
    exact and no narrower than the element type; [exp] returns exactly 1 at
    0 and a value between 0 and 1 for a negative argument; a reduction adds
    every element of the lane once. *)
Record standard (A : Fp.arithmetic) (u eta : R) : Prop := mk_standard {
  std_u : (0 <= u < 1)%R;
  std_eta : (0 <= eta)%R;
  std_fmax : (1 <= Fp.fmax A)%R;
  std_acc_max : (Fp.fmax A <= Fp.acc_max A)%R;
  rnd_mono : forall r s, (r <= s)%R -> (Fp.rnd A r <= Fp.rnd A s)%R;
  rnd_idem : forall r, Fp.rnd A (Fp.rnd A r) = Fp.rnd A r;
  rnd_0 : Fp.rnd A 0 = 0%R;
  rnd_1 : Fp.rnd A 1 = 1%R;
  rnd_err : forall r, (Rabs (Fp.rnd A r - r) <= u * Rabs r + eta)%R;
  acc_mono : forall r s, (r <= s)%R -> (Fp.acc A r <= Fp.acc A s)%R;
  acc_idem : forall r, Fp.acc A (Fp.acc A r) = Fp.acc A r;
  acc_rnd : forall r, Fp.acc A (Fp.rnd A r) = Fp.rnd A r;
  acc_err : forall r, (Rabs (Fp.acc A r - r) <= u * Rabs r + eta)%R;
  libm_exp_0 : Fp.libm_exp A 0 = 1%R;
  libm_exp_unit : forall r, (r <= 0)%R -> (0 <= Fp.libm_exp A r <= 1)%R;
  order_perm : forall n, 0 < n ->
                 Permutation (Fp.leaves (Fp.order A n)) (seq 0 n)
}.

(** A lane of [n] elements is short enough for the sum of [n] values of at
    most 1 to stay in the range of the element type. *)
Definition sum_fits (A : Fp.arithmetic) (u eta : R) (n : nat) : Prop :=
  ((1 + u) ^ n * (INR n + INR n * eta) <= Fp.fmax A)%R.

(** The bounds between which the exact sum of a lane of [n] outputs lies;
    both are 1 when nothing is rounded. *)
Definition upper_tolerance (u eta : R) (n : nat) : R :=
  ((1 + u) * ((1 + INR n * eta) / (1 - u) ^ n) + INR n * eta)%R.

Definition lower_tolerance (u eta : R) (n : nat) : R :=
  ((1 - u) * (1 / ((1 + u) ^ n * (1 + INR n * eta))) - INR n * eta)%R.

(** What the three statements of the [else] branch of [forward] leave at
    [idx]: the exponential of the element minus the maximum of its lane,
    divided by the sum of these exponentials over the lane. *)
Definition softmax_fp_at (ar : dtype -> Fp.arithmetic) (a : Fp.ndarray)
           (ax : nat) (idx : list nat) : Fp.fp :=
  let A := ar (Fp.dtype_of a) in
  let l := Fp.lane a ax idx in
  let m := Fp.fmaximum l in
  Fp.fdiv A (Fp.fexp A (Fp.fsub A (Fp.get a idx) m))
            (Fp.fsum A (map (fun v => Fp.fexp A (Fp.fsub A v m)) l)).

Definition softmax_fp (ar : dtype -> Fp.arithmetic) (a : Fp.ndarray)
           (ax : nat) : Fp.ndarray :=
  Fp.mk_ndarray (Fp.xp_of a) (Fp.dtype_of a) (Fp.shape a)
                (tabulate (Fp.shape a) (softmax_fp_at ar a ax)).

(** The exponentials before the division. *)
Definition exponential_fp_at (ar : dtype -> Fp.arithmetic) (a : Fp.ndarray)
           (ax : nat) (idx : list nat) : Fp.fp :=
  let A := ar (Fp.dtype_of a) in
  Fp.fexp A (Fp.fsub A (Fp.get a idx) (Fp.fmaximum (Fp.lane a ax idx))).

Definition exponentials_fp (ar : dtype -> Fp.arithmetic) (a : Fp.ndarray)
           (ax : nat) : Fp.ndarray :=
  Fp.mk_ndarray (Fp.xp_of a) (Fp.dtype_of a) (Fp.shape a)
                (tabulate (Fp.shape a) (exponential_fp_at ar a ax)).

(** The number the code computes as the exponential of the finite element
    [v] of a lane whose maximum is [m]. *)
Definition exponential_value (A : Fp.arithmetic) (m v : R) : R :=
  value (Fp.fexp A (Fp.fsub A (Fp.Fin v) (Fp.Fin m))).

(** An input of the operator as the specification describes it, holding
    floating-point values. *)
Definition valid_input_fp (a : Fp.ndarray) : Prop :=
  Fp.wf a /\ 2 <= Fp.ndim a /\ kind (Fp.dtype_of a) = "f"%char /\
  Forall (fun d => 0 < d) (Fp.shape a).

Definition valid_axis_fp (axis : Z) (a : Fp.ndarray) : Prop :=
  (0 <= axis < Z.of_nat (Fp.ndim a))%Z.

(** No element is an infinity or a NaN. *)
Definition all_finite (a : Fp.ndarray) : Prop := Forall finite (Fp.data a).

(** [x + c]: the value [c] added to every element, in the arithmetic of the
    element type. *)
Definition add_to_elements (ar : dtype -> Fp.arithmetic) (a : Fp.ndarray)
           (c : Fp.fp) : Fp.ndarray :=
  Fp.with_data a (map (fun v => Fp.fadd (ar (Fp.dtype_of a)) v c) (Fp.data a)).

(** Every element is finite and adding [c] to it neither rounds nor
    overflows. *)
Definition adds_exactly (ar : dtype -> Fp.arithmetic) (a : Fp.ndarray)
           (c : R) : Prop :=
  Forall (fun v => exists r, v = Fp.Fin r
                    /\ Fp.fadd (ar (Fp.dtype_of a)) v (Fp.Fin c)
                       = Fp.Fin (r + c)%R)
         (Fp.data a).


(** ** Concrete data: the example of the docstring *)

Module Example.

(** A process without cuDNN. *)
Definition host : cuda :=
  mk_cuda false (Cudnn.reference 0) (fun _ => 0%R).

(** A process with cuDNN 4. *)
Definition device : cuda :=
  mk_cuda true (Cudnn.reference 4000) (fun _ => 0%R).

(** A process whose cuDNN fails every softmax call. *)
Definition failing : cuda :=
  mk_cuda true
          (Cudnn.mk_library 4000 (fun _ _ _ _ _ _ _ => None)
                            (fun _ _ _ _ _ _ _ _ => None))
          (fun _ => 0%R).

(** [np.array([[0, 1, 2], [0, 2, 4]], 'f')] *)
Definition x : ndarray :=
  mk_ndarray numpy float32 [2; 3] [0; 1; 2; 0; 2; 4]%R.

(** The same values on the accelerator. *)
Definition x_gpu : ndarray :=
  mk_ndarray cupy float32 [2; 3] [0; 1; 2; 0; 2; 4]%R.

(** A store that holds [x], and a new [Softmax(axis=axis)]. *)
Definition fresh (axis : Z) : state := mk_state [x] (init true axis).

(** The store after [forward] ran on [x] along axis 1: the output is
    object 1 and [self.y] refers to it. *)
Definition forwarded : state := fst (forward host [0] (fresh 1)).

(** An upstream gradient of ones, in single and in double precision. *)
Definition ones32 : ndarray :=
  mk_ndarray numpy float32 [2; 3] [1; 1; 1; 1; 1; 1]%R.
Definition ones64 : ndarray :=
  mk_ndarray numpy float64 [2; 3] [1; 1; 1; 1; 1; 1]%R.

(** An upstream gradient with a single row. *)
Definition row32 : ndarray := mk_ndarray numpy float32 [1; 3] [1; 1; 1]%R.

(** An upstream gradient whose shape does not broadcast against (2, 3). *)
Definition wide32 : ndarray :=
  mk_ndarray numpy float32 [2; 4] [1; 1; 1; 1; 1; 1; 1; 1]%R.

(** [forwarded] with one more array, the upstream gradient, as object 2. *)
Definition with_gradient (gy : ndarray) : state :=
  mk_state (heap forwarded ++ [gy]) (self forwarded).

(** An upstream gradient of ones on the accelerator. *)
Definition ones_gpu : ndarray :=
  mk_ndarray cupy float32 [2; 3] [1; 1; 1; 1; 1; 1]%R.

(** A store on the accelerator after [forward] along axis 1: the input, the
    memoized output as object 1, and the upstream gradient as object 2. *)
Definition forwarded_gpu : state :=
  mk_state [x_gpu; softmax_of x_gpu 1; ones_gpu]
           (remember (init true 1) 1).

(** The same input holding floating-point values. *)
Definition x_fp : Fp.ndarray :=
  Fp.mk_ndarray numpy float32 [2; 3] (map Fp.Fin [0; 1; 2; 0; 2; 4]%R).

(** [np.array([[np.inf, 0], [1, 2]], 'f')] *)
Definition with_infinity : Fp.ndarray :=
  Fp.mk_ndarray numpy float32 [2; 2]
                [Fp.Inf false; Fp.Fin 0; Fp.Fin 1; Fp.Fin 2].

(** [np.array([[np.inf], [1]], 'f')] *)
Definition infinite_column : Fp.ndarray :=
  Fp.mk_ndarray numpy float32 [2; 1] [Fp.Inf false; Fp.Fin 1].

(** [np.array([[65504, 0], [0, 0]], 'float16')]: the first element is the
    largest finite value of half precision. *)
Definition half_top : Fp.ndarray :=
  Fp.mk_ndarray numpy float16 [2; 2]
                [Fp.Fin 65504; Fp.Fin 0; Fp.Fin 0; Fp.Fin 0].

(** An input whose first row holds equal values. *)
Definition level_fp : Fp.ndarray :=
  Fp.mk_ndarray numpy float32 [2; 2] (map Fp.Fin [5; 5; 1; 2]%R).

(** An input whose second dimension has size one. *)
Definition column_fp : Fp.ndarray :=
  Fp.mk_ndarray numpy float32 [2; 1] (map Fp.Fin [3; 7]%R).

(** A reduction that adds the elements from left to right. *)
Fixpoint left_to_right (n : nat) : Fp.sched :=
  match n with
  | O => Fp.Leaf 0
  | S n' => match n' with
            | O => Fp.Leaf 0
            | S _ => Fp.Plus (left_to_right n') (Fp.Leaf n')
            end
  end.

(** An arithmetic that rounds nothing, with the range of half precision. *)
Definition ideal : Fp.arithmetic :=
  Fp.mk_arithmetic (fun r => r) 65504%R (fun r => r) 65504%R exp
                   left_to_right.

(** Rounding to the nearest multiple of 1/1024 (a half rounds up). *)
Definition nearest (r : R) : R :=
  (IZR (Int_part (r * 1024 + / 2)) / 1024)%R.

(** A fixed-point arithmetic with ten binary digits after the point. *)
Definition fixed : Fp.arithmetic :=
  Fp.mk_arithmetic nearest 65504%R nearest 65504%R exp left_to_right.

(** The same arithmetic for every element type. *)
Definition everywhere (A : Fp.arithmetic) : dtype -> Fp.arithmetic :=
  fun _ => A.

End Example.

(* ================================================================== *)
(** * Facts about row-major indices *)

Section IdxFacts.

Lemma in_bounds_length (s idx : list nat) :
  in_bounds s idx -> length idx = length s.
Proof. intros H. induction H; simpl; congruence. Qed.

Lemma ravel_lt (s idx : list nat) :
  in_bounds s idx -> ravel s idx < size s.
Proof.
  intros H. induction H as [|i d idx s Hi _ IH]; simpl; [lia|].
  nia.
Qed.

Lemma unravel_ravel (s idx : list nat) :
  in_bounds s idx -> unravel s (ravel s idx) = idx.
Proof.
  intros H. induction H as [|i d idx s Hi Hb IH]; simpl; [reflexivity|].
  pose proof (ravel_lt Hb) as Hlt.
  rewrite Nat.div_add_l by lia.
  rewrite (Nat.div_small _ _ Hlt), Nat.add_0_r.
  rewrite Nat.add_comm, Nat.Div0.mod_add, (Nat.mod_small _ _ Hlt), IH.
  reflexivity.
Qed.

Lemma unravel_in_bounds (s : list nat) (k : nat) :
  k < size s -> in_bounds s (unravel s k).
Proof.
  revert k. induction s as [|d s IH]; simpl; intros k Hk.
  - constructor.
  - assert (0 < size s) by (destruct (size s); lia).
    constructor.
    + apply Nat.Div0.div_lt_upper_bound. lia.
    + apply IH. apply Nat.mod_upper_bound. lia.
Qed.

Lemma ravel_unravel (s : list nat) (k : nat) :
  k < size s -> ravel s (unravel s k) = k.
Proof.
  revert k. induction s as [|d s IH]; simpl; intros k Hk.
  - lia.
  - assert (0 < size s) by (destruct (size s); lia).
    rewrite IH by (apply Nat.mod_upper_bound; lia).
    pose proof (Nat.div_mod_eq k (size s)). lia.
Qed.

Lemma length_tabulate {A} (s : list nat) (f : list nat -> A) :
  length (tabulate s f) = size s.
Proof. unfold tabulate. now rewrite length_map, length_seq. Qed.

Lemma nth_tabulate {A} (s idx : list nat) (f : list nat -> A) (d : A) :
  in_bounds s idx -> nth (ravel s idx) (tabulate s f) d = f idx.
Proof.
  intros Hb. pose proof (ravel_lt Hb) as Hlt. unfold tabulate.
  rewrite (nth_indep _ d (f (unravel s 0)))
    by (now rewrite length_map, length_seq).
  rewrite (map_nth (fun k => f (unravel s k))).
  rewrite seq_nth by exact Hlt. simpl.
  now rewrite unravel_ravel.
Qed.

Lemma tabulate_ext {A} (s : list nat) (f g : list nat -> A) :
  (forall idx, in_bounds s idx -> f idx = g idx) ->
  tabulate s f = tabulate s g.
Proof.
  intros H. unfold tabulate. apply map_ext_in. intros k Hk.
  apply in_seq in Hk. apply H, unravel_in_bounds. lia.
Qed.

Lemma map_tabulate {A B} (h : A -> B) (s : list nat) (f : list nat -> A) :
  map h (tabulate s f) = tabulate s (fun idx => h (f idx)).
Proof. unfold tabulate. now rewrite map_map. Qed.

Lemma length_upd {A} (n : nat) (a : A) (l : list A) :
  length (upd n a l) = length l.
Proof.
  revert n. induction l as [|b l IH]; intros [|n]; simpl; auto.
Qed.

Lemma upd_upd {A} (n : nat) (a b : A) (l : list A) :
  upd n a (upd n b l) = upd n a l.
Proof.
  revert n. induction l as [|c l IH]; intros [|n]; simpl; auto.
  now rewrite IH.
Qed.

Lemma nth_upd_eq {A} (n : nat) (a d : A) (l : list A) :
  n < length l -> nth n (upd n a l) d = a.
Proof.
  revert n. induction l as [|b l IH]; intros [|n]; simpl; intros H;
    try lia; auto.
  apply IH. lia.
Qed.

Lemma upd_nth_same {A} (n : nat) (d : A) (l : list A) :
  upd n (nth n l d) l = l.
Proof.
  revert n. induction l as [|b l IH]; intros [|n]; simpl; auto.
  now rewrite IH.
Qed.

(** Moving one index inside its dimension keeps a multi-index valid. *)
Lemma in_bounds_upd (s idx : list nat) (ax c : nat) :
  in_bounds s idx -> c < nth ax s 0 -> in_bounds s (upd ax c idx).
Proof.
  intros H. revert ax. induction H as [|i d idx s Hi Hb IH];
    intros [|ax]; simpl; intros Hc; try lia.
  - constructor; assumption.
  - constructor; [assumption|]. now apply IH.
Qed.

(** A valid multi-index, with the index at [ax] set to 0, is valid for the
    shape whose dimension [ax] is 1. *)
Lemma in_bounds_keepdims (s idx : list nat) (ax : nat) :
  in_bounds s idx -> in_bounds (upd ax 1 s) (upd ax 0 idx).
Proof.
  intros H. revert ax. induction H as [|i d idx s Hi Hb IH];
    intros [|ax]; simpl; constructor; auto; try lia.
  apply IH.
Qed.

Lemma in_bounds_nth (s idx : list nat) (ax : nat) :
  in_bounds s idx -> ax < length s -> nth ax idx 0 < nth ax s 0.
Proof.
  intros H. revert ax. induction H as [|i d idx s Hi Hb IH];
    intros [|ax]; simpl; intros Hax; try lia.
  apply IH. lia.
Qed.

End IdxFacts.

(* ================================================================== *)
(** * Facts about lists of reals *)

Section RealLists.
Local Open Scope R_scope.

Lemma maximum_cons (v w : R) (l : list R) :
  maximum (v :: w :: l) = Rmax v (maximum (w :: l)).
Proof. reflexivity. Qed.

Lemma maximum_ge (l : list R) (v : R) : In v l -> v <= maximum l.
Proof.
  induction l as [|w l IH]; [intros []|].
  destruct l as [|u l].
  - intros [->|[]]. simpl. lra.
  - intros [->|Hin]; rewrite maximum_cons.
    + apply Rmax_l.
    + eapply Rle_trans; [apply IH, Hin|apply Rmax_r].
Qed.

Lemma maximum_shift (l : list R) (c : R) :
  l <> [] -> maximum (map (fun v => v + c) l) = maximum l + c.
Proof.
  induction l as [|w l IH]; [congruence|intros _].
  destruct l as [|u l]; [reflexivity|].
  change (map (fun v => v + c) (w :: u :: l))
    with ((w + c) :: (u + c) :: map (fun v => v + c) l).
  rewrite !maximum_cons.
  change ((u + c) :: map (fun v => v + c) l)
    with (map (fun v => v + c) (u :: l)).
  rewrite IH by congruence.
  unfold Rmax.
  destruct (Rle_dec w (maximum (u :: l)));
    destruct (Rle_dec (w + c) (maximum (u :: l) + c)); lra.
Qed.

Lemma maximum_const (l : list R) (c : R) :
  l <> [] -> (forall v, In v l -> v = c) -> maximum l = c.
Proof.
  induction l as [|w l IH]; [congruence|intros _ H].
  destruct l as [|u l].
  - simpl. apply H. now left.
  - rewrite maximum_cons, IH.
    + rewrite (H w) by now left. unfold Rmax.
      destruct (Rle_dec c c); lra.
    + congruence.
    + intros v Hv. apply H. now right.
Qed.

Lemma total_cons (v : R) (l : list R) : total (v :: l) = v + total l.
Proof. reflexivity. Qed.

End RealLists.

(* ================================================================== *)
(** * Facts about the array operations *)

Section ArrayFacts.

Lemma array_module_eqb_refl (m : array_module) : array_module_eqb m m = true.
Proof. now destruct m. Qed.

Lemma dtype_eqb_eq (a b : dtype) : dtype_eqb a b = true <-> a = b.
Proof. destruct a, b; simpl; split; congruence. Qed.

Lemma promote_same (d : dtype) : promote d d = d.
Proof. now destruct d. Qed.

Lemma kind_f_cases (d : dtype) :
  kind d = "f"%char -> d = float16 \/ d = float32 \/ d = float64.
Proof. destruct d; simpl; intros H; auto; discriminate. Qed.

Lemma get_array_module_single (a : ndarray) :
  get_array_module [a] = xp_of a.
Proof. unfold get_array_module. simpl. now destruct (xp_of a). Qed.

(** ** Broadcasting against the same shape or a kept dimension *)

Lemma bzip_keepdims (s : list nat) (ax : nat) :
  bzip s (upd ax 1 s) = Some s.
Proof.
  revert ax. induction s as [|d s IH]; intros ax; [now destruct ax|].
  destruct ax as [|ax]; simpl.
  - assert (Hs : bzip s s = Some s).
    { specialize (IH (length s)).
      replace (upd (length s) 1 s) with s in IH; [exact IH|].
      clear. induction s as [|e s IHs]; simpl; congruence. }
    rewrite Hs. destruct (d =? 1) eqn:E; [reflexivity|].
    reflexivity.
  - rewrite IH, Nat.eqb_refl. reflexivity.
Qed.

Lemma broadcast_keepdims (s : list nat) (ax : nat) :
  broadcast_shapes s (upd ax 1 s) = Some s.
Proof.
  unfold broadcast_shapes, pad.
  rewrite length_upd, Nat.max_id, Nat.sub_diag. simpl.
  apply bzip_keepdims.
Qed.

Lemma upd_out_of_range {A} (n : nat) (a : A) (l : list A) :
  length l <= n -> upd n a l = l.
Proof.
  revert n. induction l as [|b l IH]; intros [|n]; simpl; intros H;
    try lia; auto.
  rewrite IH by lia. reflexivity.
Qed.

Lemma broadcast_same (s : list nat) : broadcast_shapes s s = Some s.
Proof.
  rewrite <- (@upd_out_of_range nat (length s) 1 s (le_n _)) at 2.
  apply broadcast_keepdims.
Qed.

Lemma bmask_keepdims (s idx : list nat) (ax : nat) :
  in_bounds s idx -> bmask (upd ax 1 s) idx = upd ax 0 idx.
Proof.
  intros H. revert ax. induction H as [|i d idx s Hi Hb IH];
    intros [|ax]; simpl; try reflexivity.
  - f_equal. specialize (IH (length s)).
    rewrite !upd_out_of_range in IH
      by (rewrite ?(in_bounds_length Hb); lia).
    exact IH.
  - rewrite IH. destruct (d =? 1) eqn:E; [|reflexivity].
    apply Nat.eqb_eq in E. f_equal. lia.
Qed.

Lemma bidx_keepdims (s idx : list nat) (ax : nat) :
  in_bounds s idx -> bidx (upd ax 1 s) idx = upd ax 0 idx.
Proof.
  intros H. unfold bidx.
  rewrite length_upd, (in_bounds_length H), Nat.sub_diag. simpl.
  now apply bmask_keepdims.
Qed.

Lemma bidx_same (s idx : list nat) :
  in_bounds s idx -> bidx s idx = idx.
Proof.
  intros H. pose proof (bidx_keepdims (length s) H) as E.
  rewrite !upd_out_of_range in E by (rewrite ?(in_bounds_length H); lia).
  exact E.
Qed.

(** ** Reductions *)

Lemma lane_upd (a : ndarray) (ax c : nat) (idx : list nat) :
  lane a ax (upd ax c idx) = lane a ax idx.
Proof.
  unfold lane. apply map_ext. intros j. now rewrite upd_upd.
Qed.

Lemma get_reduce (f : list R -> R) (d : dtype) (a : ndarray) (ax : nat)
      (idx : list nat) :
  in_bounds (upd ax 1 (shape a)) idx ->
  get (reduce f d a ax) idx = f (lane a ax idx).
Proof.
  intros H. unfold get, reduce. simpl.
  now rewrite nth_tabulate by assumption.
Qed.

Lemma get_tabulated (m : array_module) (d : dtype) (s idx : list nat)
      (f : list nat -> R) :
  in_bounds s idx -> get (mk_ndarray m d s (tabulate s f)) idx = f idx.
Proof.
  intros H. unfold get. simpl. now rewrite nth_tabulate by assumption.
Qed.

Lemma lane_tabulated (m : array_module) (d : dtype) (s idx : list nat)
      (f : list nat -> R) (ax : nat) :
  in_bounds s idx ->
  lane (mk_ndarray m d s (tabulate s f)) ax idx
  = map (fun c => f (upd ax c idx)) (seq 0 (nth ax s 0)).
Proof.
  intros H. unfold lane. apply map_ext_in. intros c Hc.
  apply in_seq in Hc. simpl in Hc |- *.
  apply get_tabulated, in_bounds_upd; [assumption|lia].
Qed.

(** ** Axis arguments *)

Lemma normalize_axis_valid (n : nat) (axis : Z) :
  (0 <= axis < Z.of_nat n)%Z -> normalize_axis n axis = Ok (Z.to_nat axis).
Proof.
  intros H. unfold normalize_axis.
  replace (- Z.of_nat n <=? axis)%Z with true
    by (symmetry; apply Z.leb_le; lia).
  replace (axis <? Z.of_nat n)%Z with true
    by (symmetry; apply Z.ltb_lt; lia).
  replace (axis <? 0)%Z with false by (symmetry; apply Z.ltb_ge; lia).
  reflexivity.
Qed.

Lemma Forall_nth_pos (s : list nat) (ax : nat) :
  Forall (fun d => 0 < d) s -> ax < length s -> 0 < nth ax s 0.
Proof.
  intros H. revert ax. induction H as [|d s Hd _ IH]; intros [|ax];
    simpl; intros Hax; try lia.
  apply IH. lia.
Qed.

End ArrayFacts.

(* ================================================================== *)
(** * The generic forward computation *)

Section GenericForward.
Local Open Scope R_scope.

Variable a : ndarray.
Variable axis : Z.
Variable ax : nat.
Hypothesis Hwf : wf a.
Hypothesis Hax : normalize_axis (ndim a) axis = Ok ax.
Hypothesis Hpos : (0 < nth ax (shape a) 0)%nat.
Hypothesis Hkind : kind (dtype_of a) = "f"%char.

Lemma amax_value : amax a axis = Ok (reduce maximum (dtype_of a) a ax).
Proof.
  unfold amax. rewrite Hax. simpl.
  destruct (nth ax (shape a) 0 =? 0)%nat eqn:E; [|reflexivity].
  apply Nat.eqb_eq in E. lia.
Qed.

Let shifted : ndarray :=
  mk_ndarray (xp_of a) (dtype_of a) (shape a)
    (tabulate (shape a) (fun idx => get a idx - maximum (lane a ax idx))).

Lemma subtract_value :
  subtract a (reduce maximum (dtype_of a) a ax) = Ok shifted.
Proof.
  unfold subtract, binop. simpl.
  rewrite array_module_eqb_refl, broadcast_keepdims, promote_same.
  unfold shifted, zip_with. do 2 f_equal.
  apply tabulate_ext. intros idx Hb. simpl.
  rewrite (bidx_same Hb), (bidx_keepdims ax Hb).
  rewrite get_reduce by now apply in_bounds_keepdims.
  now rewrite lane_upd.
Qed.

Let exped : ndarray :=
  mk_ndarray (xp_of a) (dtype_of a) (shape a)
    (tabulate (shape a) (fun idx => exp (get a idx - maximum (lane a ax idx)))).

Lemma can_cast_float : can_cast (float_result (dtype_of a)) (dtype_of a) = true.
Proof. unfold can_cast. now rewrite Hkind. Qed.

Lemma exp_value : exp_inplace (xp_of a) shifted = Ok exped.
Proof.
  unfold exp_inplace. simpl.
  rewrite array_module_eqb_refl, can_cast_float.
  unfold with_data, exped. simpl. now rewrite map_tabulate.
Qed.

Lemma sum_accumulator_float :
  promote (dtype_of a) (sum_accumulator (dtype_of a)) = dtype_of a.
Proof. unfold sum_accumulator. rewrite Hkind. simpl. apply promote_same. Qed.

Lemma sum_value :
  Numpy.sum exped axis = Ok (reduce total (dtype_of a) exped ax).
Proof.
  unfold Numpy.sum. unfold ndim. simpl.
  fold (ndim a). rewrite Hax. simpl. now rewrite sum_accumulator_float.
Qed.

Lemma lane_exped (idx : list nat) :
  in_bounds (shape a) idx ->
  lane exped ax idx
  = map (fun v => exp (v - maximum (lane a ax idx))) (lane a ax idx).
Proof.
  intros Hb. unfold exped. rewrite lane_tabulated by assumption.
  transitivity
    (map (fun c => exp (get a (upd ax c idx) - maximum (lane a ax idx)))
         (seq 0%nat (nth ax (shape a) 0%nat))).
  - apply map_ext. intros c. now rewrite lane_upd.
  - generalize (maximum (lane a ax idx)). intros M.
    unfold lane. now rewrite map_map.
Qed.

Lemma itruediv_value :
  itruediv exped (reduce total (dtype_of a) exped ax) = Ok (softmax_of a ax).
Proof.
  unfold itruediv, inplace. simpl.
  rewrite array_module_eqb_refl, broadcast_keepdims.
  destruct (list_eq_dec Nat.eq_dec (shape a) (shape a)) as [_|N]; [|congruence].
  rewrite promote_same.
  unfold float_result. rewrite Hkind. simpl.
  unfold can_cast. rewrite Hkind. simpl.
  unfold with_data, softmax_of, zip_with. simpl. do 2 f_equal.
  apply tabulate_ext. intros idx Hb.
  rewrite (bidx_same Hb).
  change (shape (reduce total (dtype_of a) exped ax)) with (upd ax 1 (shape a)).
  rewrite (bidx_keepdims ax Hb).
  rewrite get_reduce by now apply in_bounds_keepdims.
  rewrite lane_upd, (lane_exped Hb).
  unfold exped. rewrite get_tabulated by assumption.
  reflexivity.
Qed.

(** The [else] branch computes the softmax along the axis. *)
Lemma generic_forward_value_ok :
  generic_forward_value (xp_of a) a axis = Ok (softmax_of a ax).
Proof.
  unfold generic_forward_value.
  rewrite amax_value. simpl. rewrite subtract_value. simpl.
  rewrite exp_value. simpl. rewrite sum_value. simpl.
  apply itruediv_value.
Qed.

End GenericForward.

(* ================================================================== *)
(** * Running the methods on a store *)

Section StoreFacts.

Lemma index_0 {A} (a : A) (l : list A) : index (a :: l) 0 = Ok a.
Proof.
  unfold index.
  replace ((- Z.of_nat (length (a :: l)) <=? 0)%Z) with true
    by (symmetry; apply Z.leb_le; lia).
  replace ((0 <? Z.of_nat (length (a :: l)))%Z) with true
    by (symmetry; apply Z.ltb_lt; simpl length; lia).
  reflexivity.
Qed.

Lemma nth_error_snoc {A} (h : list A) (d : A) :
  nth_error (h ++ [d]) (length h) = Some d.
Proof.
  rewrite nth_error_app2 by lia. now rewrite Nat.sub_diag.
Qed.

Lemma upd_snoc {A} (h : list A) (d e : A) :
  upd (length h) e (h ++ [d]) = h ++ [e].
Proof. induction h as [|b h IH]; simpl; congruence. Qed.

Lemma nth_error_app_old {A} (h : list A) (d : A) (m : nat) (b : A) :
  nth_error h m = Some b -> nth_error (h ++ [d]) m = Some b.
Proof.
  intros H. rewrite nth_error_app1; [exact H|].
  apply nth_error_Some. congruence.
Qed.

Lemma deref_all_single (r : ref) (st : state) (a : ndarray) :
  nth_error (heap st) r = Some a ->
  deref_all [r] st = (st, Ok [a]).
Proof.
  intros H. unfold deref_all, bind, deref, ret. now rewrite H.
Qed.

(** When the array operations of the [else] branch succeed, [forward]
    leaves their result in a new object, remembers it in [self.y] and
    returns it. *)
Lemma forward_generic_run (st : state) (x0 : ndarray) (rest : list ndarray)
      (q : ndarray) :
  generic_forward_value (get_array_module (x0 :: rest)) x0
                        (axis (self st)) = Ok q ->
  forward_generic (x0 :: rest) st
  = (mk_state (heap st ++ [q]) (remember (self st) (length (heap st))),
     Ok (length (heap st))).
Proof.
  unfold generic_forward_value. intros H.
  destruct (amax x0 (axis (self st))) as [m|] eqn:Em; [|discriminate].
  simpl in H.
  destruct (subtract x0 m) as [d|] eqn:Ed; [|discriminate].
  simpl in H.
  destruct (exp_inplace (get_array_module (x0 :: rest)) d) as [e|] eqn:Ee;
    [|discriminate].
  simpl in H.
  destruct (Numpy.sum e (axis (self st))) as [t|] eqn:Et; [|discriminate].
  simpl in H.
  unfold forward_generic, bind, lift, get_self, alloc, set_y, get_y,
    deref, store, ret.
  rewrite index_0, Em, Ed. cbn [heap self y axis use_cudnn].
  rewrite nth_error_snoc, Ee. cbn [heap self y axis use_cudnn].
  rewrite upd_snoc, nth_error_snoc, Et, H.
  cbn [heap self y axis use_cudnn].
  rewrite upd_snoc. reflexivity.
Qed.

End StoreFacts.

(* ================================================================== *)
(** * The four-dimensional view *)

Section Tensor4d.

Lemma size_split (s : list nat) (ax : nat) :
  ax < length s ->
  size s = size (firstn ax s) * nth ax s 0 * size (skipn (S ax) s).
Proof.
  revert ax. induction s as [|d s IH]; intros [|ax]; simpl; intros H;
    try lia.
  rewrite (IH ax) at 1 by lia. simpl. lia.
Qed.

Lemma size_shape4 (s : list nat) (ax : nat) :
  ax < length s -> size (shape4 ax s) = size s.
Proof.
  intros H. rewrite (size_split s H). unfold shape4. simpl. lia.
Qed.

Lemma in_bounds_firstn (s idx : list nat) (n : nat) :
  in_bounds s idx -> in_bounds (firstn n s) (firstn n idx).
Proof.
  intros H. revert n. induction H; intros [|n]; simpl; constructor; auto.
  apply IHForall2.
Qed.

Lemma in_bounds_skipn (s idx : list nat) (n : nat) :
  in_bounds s idx -> in_bounds (skipn n s) (skipn n idx).
Proof.
  intros H. revert n. induction H; intros [|n]; simpl;
    try constructor; auto.
Qed.

Lemma ravel_split (s idx : list nat) (ax : nat) :
  in_bounds s idx -> ax < length s ->
  ravel s idx
  = (ravel (firstn ax s) (firstn ax idx) * nth ax s 0 + nth ax idx 0)
    * size (skipn (S ax) s)
    + ravel (skipn (S ax) s) (skipn (S ax) idx).
Proof.
  intros H. revert ax.
  induction H as [|i d idx s Hi Hb IH]; intros [|ax] Hax;
    simpl in Hax; try lia.
  - simpl. lia.
  - assert (Hax' : ax < length s) by lia.
    change (ravel (d :: s) (i :: idx)) with (i * size s + ravel s idx).
    rewrite (IH ax Hax'), (size_split s Hax').
    change (firstn (S ax) (d :: s)) with (d :: firstn ax s).
    change (firstn (S ax) (i :: idx)) with (i :: firstn ax idx).
    change (skipn (S (S ax)) (d :: s)) with (skipn (S ax) s).
    change (skipn (S (S ax)) (i :: idx)) with (skipn (S ax) idx).
    change (nth (S ax) (d :: s) 0) with (nth ax s 0).
    change (nth (S ax) (i :: idx) 0) with (nth ax idx 0).
    change (ravel (d :: firstn ax s) (i :: firstn ax idx))
      with (i * size (firstn ax s)
            + ravel (firstn ax s) (firstn ax idx)).
    ring.
Qed.

Lemma ravel_to4 (s idx : list nat) (ax : nat) :
  in_bounds s idx -> ax < length s ->
  ravel (shape4 ax s) (to4 ax s idx) = ravel s idx.
Proof.
  intros H Hax. rewrite (ravel_split H Hax).
  unfold shape4, to4. simpl. ring.
Qed.

Lemma in_bounds_to4 (s idx : list nat) (ax : nat) :
  in_bounds s idx -> ax < length s ->
  in_bounds (shape4 ax s) (to4 ax s idx).
Proof.
  intros H Hax. unfold shape4, to4.
  repeat constructor.
  - apply ravel_lt, in_bounds_firstn, H.
  - now apply in_bounds_nth.
  - apply ravel_lt, in_bounds_skipn, H.
Qed.

Lemma firstn_upd {A} (n : nat) (a : A) (l : list A) :
  firstn n (upd n a l) = firstn n l.
Proof.
  revert n. induction l as [|b l IH]; intros [|n]; simpl; auto.
  now rewrite IH.
Qed.

Lemma skipn_upd {A} (n : nat) (a : A) (l : list A) :
  skipn (S n) (upd n a l) = skipn (S n) l.
Proof.
  revert n. induction l as [|b l IH]; intros [|n]; simpl; auto.
  apply IH.
Qed.

Lemma to4_upd (s idx : list nat) (ax c : nat) :
  ax < length idx ->
  to4 ax s (upd ax c idx) = upd 1 c (to4 ax s idx).
Proof.
  intros H. unfold to4.
  rewrite firstn_upd, skipn_upd, nth_upd_eq by assumption.
  reflexivity.
Qed.

(** The offset [k] names the same element in both views. *)
Lemma unravel_shape4 (s : list nat) (ax k : nat) :
  ax < length s -> k < size s ->
  unravel (shape4 ax s) k = to4 ax s (unravel s k).
Proof.
  intros Hax Hk.
  pose proof (unravel_in_bounds s Hk) as Hb.
  rewrite <- (ravel_unravel s Hk) at 1.
  rewrite <- (ravel_to4 Hb Hax).
  apply unravel_ravel, in_bounds_to4; assumption.
Qed.

(** The channel of the view is the lane of the array. *)
Lemma channel_lane (a : ndarray) (ax : nat) (idx : list nat) :
  in_bounds (shape a) idx -> ax < ndim a ->
  Cudnn.channel (shape4 ax (shape a)) (data a) (to4 ax (shape a) idx)
  = lane a ax idx.
Proof.
  intros Hb Hax. unfold Cudnn.channel, lane.
  change (nth 1 (shape4 ax (shape a)) 0) with (nth ax (shape a) 0).
  apply map_ext_in. intros c Hc. apply in_seq in Hc.
  rewrite <- to4_upd by (rewrite (in_bounds_length Hb); exact Hax).
  rewrite ravel_to4; [reflexivity| |exact Hax].
  apply in_bounds_upd; [assumption|lia].
Qed.

(** Python's slices and index at a valid axis. *)
Lemma slice_left {A} (t : list A) (i : Z) :
  (0 <= i < Z.of_nat (length t))%Z ->
  slice t 0 i = firstn (Z.to_nat i) t.
Proof.
  intros H. unfold slice, slice_bound. simpl.
  replace (i <? 0)%Z with false by (symmetry; apply Z.ltb_ge; lia).
  rewrite Nat.min_l by lia. now rewrite Nat.sub_0_r.
Qed.

Lemma slice_right {A} (t : list A) (i : Z) :
  (0 <= i < Z.of_nat (length t))%Z ->
  slice t (i + 1) (Z.of_nat (length t)) = skipn (S (Z.to_nat i)) t.
Proof.
  intros H. unfold slice, slice_bound.
  replace (i + 1 <? 0)%Z with false by (symmetry; apply Z.ltb_ge; lia).
  replace (Z.of_nat (length t) <? 0)%Z with false
    by (symmetry; apply Z.ltb_ge; lia).
  rewrite Nat2Z.id, Nat.min_id, Nat.min_l by lia.
  replace (Z.to_nat (i + 1)) with (S (Z.to_nat i)) by lia.
  apply firstn_all2. rewrite length_skipn. lia.
Qed.

Lemma index_valid (t : list nat) (i : Z) :
  (0 <= i < Z.of_nat (length t))%Z ->
  index t i = Ok (nth (Z.to_nat i) t 0).
Proof.
  intros H. unfold index.
  replace (- Z.of_nat (length t) <=? i)%Z with true
    by (symmetry; apply Z.leb_le; lia).
  replace (i <? Z.of_nat (length t))%Z with true
    by (symmetry; apply Z.ltb_lt; lia).
  replace (i <? 0)%Z with false by (symmetry; apply Z.ltb_ge; lia).
  simpl. destruct (nth_error t (Z.to_nat i)) as [v|] eqn:E.
  - now rewrite (nth_error_nth _ _ _ E).
  - apply nth_error_None in E. lia.
Qed.

Lemma get_tensor4d_shape_valid (self : Softmax) (s : list nat) :
  (0 <= axis self < Z.of_nat (length s))%Z ->
  _get_tensor4d_shape self s = Ok (shape4 (Z.to_nat (axis self)) s).
Proof.
  intros H. unfold _get_tensor4d_shape.
  rewrite (index_valid s H). simpl.
  now rewrite (slice_left s H), (slice_right s H).
Qed.

End Tensor4d.

(* ================================================================== *)
(** * The generic backward computation *)

Section GenericBackward.
Local Open Scope R_scope.

Variables ya ga : ndarray.
Variable axis : Z.
Variable ax : nat.
Hypothesis Hshape : shape ga = shape ya.
Hypothesis Hxp : xp_of ga = xp_of ya.
Hypothesis Hax : normalize_axis (ndim ya) axis = Ok ax.
Hypothesis Hkind : kind (dtype_of ya) = "f"%char.

Lemma promote_float_l (d : dtype) :
  kind (promote (dtype_of ya) d) = "f"%char.
Proof using Hkind.
  destruct (kind_f_cases _ Hkind) as [E|[E|E]]; rewrite E;
    now destruct d.
Qed.

Let p := promote (dtype_of ya) (dtype_of ga).

Let product : ndarray :=
  mk_ndarray (xp_of ya) p (shape ya)
    (tabulate (shape ya) (fun idx => get ya idx * get ga idx)).

Lemma multiply_value : multiply ya ga = Ok product.
Proof using Hshape Hxp.
  unfold multiply, binop.
  rewrite Hxp, array_module_eqb_refl, Hshape, broadcast_same.
  unfold product, zip_with. do 2 f_equal.
  apply tabulate_ext. intros idx Hb.
  now rewrite ?Hshape, (bidx_same Hb).
Qed.

Let sumdx : ndarray :=
  reduce total (promote p (sum_accumulator p)) product ax.

Lemma sumdx_value : Numpy.sum product axis = Ok sumdx.
Proof using Hax.
  unfold Numpy.sum. unfold ndim. simpl. fold (ndim ya).
  now rewrite Hax.
Qed.

Lemma lane_product (idx : list nat) :
  in_bounds (shape ya) idx ->
  total (lane product ax idx)
  = total (map (fun j => get ya (upd ax j idx) * get ga (upd ax j idx))
               (seq 0%nat (nth ax (shape ya) 0%nat))).
Proof.
  intros Hb. unfold product. now rewrite lane_tabulated by assumption.
Qed.

Let scaled : ndarray :=
  mk_ndarray (xp_of ya)
    (promote (dtype_of ya) (promote p (sum_accumulator p))) (shape ya)
    (tabulate (shape ya)
       (fun idx => get ya idx * total (lane product ax idx))).

Lemma scaled_value : multiply ya sumdx = Ok scaled.
Proof.
  unfold multiply, binop. simpl.
  rewrite array_module_eqb_refl, broadcast_keepdims.
  unfold scaled, zip_with. do 2 f_equal.
  apply tabulate_ext. intros idx Hb. simpl.
  rewrite (bidx_same Hb), (bidx_keepdims ax Hb).
  unfold sumdx. rewrite get_reduce by now apply in_bounds_keepdims.
  now rewrite lane_upd.
Qed.

Lemma isubtract_value : isubtract product scaled = Ok (backward_of ya ga ax).
Proof using Hkind.
  unfold isubtract, inplace. simpl.
  rewrite array_module_eqb_refl, broadcast_same.
  destruct (list_eq_dec Nat.eq_dec (shape ya) (shape ya)) as [_|N];
    [|congruence].
  unfold can_cast.
  replace (kind p) with "f"%char by (symmetry; apply promote_float_l).
  simpl.
  unfold with_data, backward_of, zip_with. simpl. fold p. do 2 f_equal.
  apply tabulate_ext. intros idx Hb.
  rewrite (bidx_same Hb).
  unfold product at 1, scaled. rewrite !get_tabulated by assumption.
  rewrite (lane_product Hb). reflexivity.
Qed.

(** The [else] branch of [backward] computes [backward_of]. *)
Lemma generic_backward_value_ok :
  generic_backward_value ya ga axis = Ok (backward_of ya ga ax).
Proof using Hshape Hxp Hax Hkind.
  unfold generic_backward_value.
  rewrite multiply_value. simpl. rewrite sumdx_value. simpl.
  rewrite scaled_value. simpl. apply isubtract_value.
Qed.

(** Elementwise it is the vector-Jacobian product. *)
Lemma backward_at_vjp (idx : list nat) :
  backward_at ya ga ax idx = vjp_at ya ga ax idx.
Proof. unfold backward_at, vjp_at. simpl. ring. Qed.

End GenericBackward.

(* ================================================================== *)
(** * The cuDNN code path *)

Section CudnnPath.
Local Open Scope R_scope.

Lemma nth_data_get (a : ndarray) (idx : list nat) :
  nth (ravel (shape a) idx) (data a) 0 = get a idx.
Proof. reflexivity. Qed.

(** The documented channel softmax of the four-dimensional view is the
    softmax along the axis of the array. *)
Lemma channel_softmax_eq (a : ndarray) (ax : nat) (prior : list R) :
  (ax < ndim a)%nat ->
  Cudnn.channel_softmax 1 (shape4 ax (shape a)) (data a) 0 prior
  = tabulate (shape a) (softmax_at a ax).
Proof.
  intros Hax. unfold Cudnn.channel_softmax, tabulate.
  rewrite (size_shape4 (shape a) Hax).
  apply map_ext_in. intros k Hk. apply in_seq in Hk.
  assert (Hk' : (k < size (shape a))%nat) by lia.
  pose proof (unravel_in_bounds (shape a) Hk') as Hb.
  rewrite (unravel_shape4 (shape a) Hax Hk').
  rewrite (ravel_to4 Hb Hax), (channel_lane a Hb Hax), nth_data_get.
  unfold softmax_at. cbv zeta. lra.
Qed.

Lemma map_combine_maps {A B C D} (f : B * C -> D) (g : A -> B) (h : A -> C)
      (l : list A) :
  map f (combine (map g l) (map h l)) = map (fun c => f (g c, h c)) l.
Proof. induction l as [|c l IH]; simpl; congruence. Qed.

Lemma channel_softmax_grad_eq (ya ga : ndarray) (ax : nat)
      (prior : list R) :
  shape ga = shape ya -> (ax < ndim ya)%nat ->
  Cudnn.channel_softmax_grad 1 (shape4 ax (shape ya)) (data ya) (data ga)
                             0 prior
  = tabulate (shape ya) (vjp_at ya ga ax).
Proof.
  intros Hs Hax. unfold Cudnn.channel_softmax_grad, tabulate.
  rewrite (size_shape4 (shape ya) Hax).
  apply map_ext_in. intros k Hk. apply in_seq in Hk.
  assert (Hk' : (k < size (shape ya))%nat) by lia.
  pose proof (unravel_in_bounds (shape ya) Hk') as Hb.
  rewrite (unravel_shape4 (shape ya) Hax Hk').
  rewrite (ravel_to4 Hb Hax), (channel_lane ya Hb Hax).
  assert (Hg : Cudnn.channel (shape4 ax (shape ya)) (data ga)
                 (to4 ax (shape ya) (unravel (shape ya) k))
               = lane ga ax (unravel (shape ya) k)).
  { rewrite <- Hs. apply channel_lane.
    - now rewrite Hs.
    - unfold ndim. now rewrite Hs. }
  rewrite Hg. unfold lane. rewrite Hs, map_combine_maps.
  unfold vjp_at, get. cbv zeta. rewrite Hs. cbn [fst snd]. lra.
Qed.

Variable g : cuda.
Hypothesis Hlib : Cudnn.honours_contract (libcudnn g).

(** Under the documented behaviour of the library, the [if] branch of
    [forward] leaves the softmax along the axis in a new object. *)
Lemma forward_cudnn_run (st : state) (a : ndarray) :
  wf a -> xp_of a = cupy -> kind (dtype_of a) = "f"%char ->
  valid_axis (axis (self st)) a ->
  forward_cudnn g [a] st
  = (mk_state (heap st ++ [softmax_of a (Z.to_nat (axis (self st)))])
              (remember (self st) (length (heap st))),
     Ok (length (heap st))).
Proof using Hlib.
  intros Hwf Hxp Hkind Hax.
  assert (Hlt : (Z.to_nat (axis (self st)) < ndim a)%nat)
    by (unfold valid_axis in Hax; lia).
  unfold forward_cudnn, bind, lift, get_self, alloc, set_y, store, ret.
  rewrite index_0, (get_tensor4d_shape_valid (self st) (shape a) Hax).
  unfold reshape. rewrite (size_shape4 (shape a) Hlt), Nat.eqb_refl.
  unfold create_tensor_descriptor, data_ptr.
  cbn [dtype_of xp_of shape data heap self].
  rewrite Hkind, Hxp. cbn [Ascii.eqb Bool.eqb].
  unfold shape4 at 1.
  destruct (Hlib 1 0 (size (firstn (Z.to_nat (axis (self st))) (shape a)))
              (nth (Z.to_nat (axis (self st))) (shape a) 0%nat)
              (size (skipn (S (Z.to_nat (axis (self st)))) (shape a)))
              1%nat (data a)
              (data (empty_like (junk g) a))) as [Hf _].
  - fold (shape4 (Z.to_nat (axis (self st))) (shape a)).
    rewrite (size_shape4 (shape a) Hlt). exact Hwf.
  - fold (shape4 (Z.to_nat (axis (self st))) (shape a)).
    rewrite (size_shape4 (shape a) Hlt).
    unfold empty_like, with_data. simpl.
    now rewrite length_map, length_seq.
  - unfold _algorithm, _mode. rewrite Hf.
    fold (shape4 (Z.to_nat (axis (self st))) (shape a)).
    rewrite (channel_softmax_eq a _ Hlt).
    cbn [heap self]. rewrite upd_snoc.
    rewrite get_array_module_single, Hxp.
    unfold with_data, softmax_of, remember. simpl. now rewrite Hxp.
Qed.

End CudnnPath.

(* ================================================================== *)
(** * Dispatch and complete runs *)

Section Runs.

Variable g : cuda.

Lemma use_cudnn_path_cons (self : Softmax) (x0 : ndarray)
      (rest : list ndarray) :
  use_cudnn_path g self (x0 :: rest)
  = Ok (takes_cudnn g self (get_array_module (x0 :: rest)) (dtype_of x0)).
Proof.
  unfold use_cudnn_path, takes_cudnn. rewrite index_0.
  destruct (negb (array_module_eqb (get_array_module (x0 :: rest)) numpy));
    [|reflexivity].
  destruct (cudnn_enabled g); [|reflexivity].
  destruct (use_cudnn self); [|reflexivity].
  destruct (3000 <=? _cudnn_version g)%Z; reflexivity.
Qed.

Lemma forward_single (st : state) (r : ref) (a : ndarray) :
  nth_error (heap st) r = Some a ->
  forward g [r] st
  = if takes_cudnn g (self st) (xp_of a) (dtype_of a)
    then forward_cudnn g [a] st else forward_generic [a] st.
Proof.
  intros H. unfold forward, bind at 1.
  rewrite (deref_all_single r st H).
  unfold bind, get_self, lift.
  rewrite use_cudnn_path_cons, get_array_module_single.
  now destruct (takes_cudnn g (self st) (xp_of a) (dtype_of a)).
Qed.

Lemma backward_single (st : state) (r : ref) (a : ndarray)
      (gy : list ref) :
  nth_error (heap st) r = Some a ->
  backward g [r] gy st
  = if takes_cudnn g (self st) (xp_of a) (dtype_of a)
    then backward_cudnn g [a] gy st else backward_generic gy st.
Proof.
  intros H. unfold backward, bind at 1.
  rewrite (deref_all_single r st H).
  unfold bind, get_self, lift.
  rewrite use_cudnn_path_cons, get_array_module_single.
  now destruct (takes_cudnn g (self st) (xp_of a) (dtype_of a)).
Qed.

Lemma takes_cudnn_cupy (self : Softmax) (xp : array_module) (d : dtype) :
  takes_cudnn g self xp d = true -> xp = cupy.
Proof.
  unfold takes_cudnn. destruct xp; [simpl; discriminate|reflexivity].
Qed.

Lemma valid_axis_normalize (axis : Z) (a : ndarray) :
  valid_axis axis a -> normalize_axis (ndim a) axis = Ok (Z.to_nat axis).
Proof. apply normalize_axis_valid. Qed.

(** On a valid input and a valid axis, whichever branch runs, [forward]
    leaves the softmax of the input in a new object, remembers it in
    [self.y] and returns it. *)
Lemma forward_run (st : state) (r : ref) (a : ndarray) :
  nth_error (heap st) r = Some a ->
  valid_input a -> valid_axis (axis (self st)) a ->
  backend_known g (self st) a ->
  forward g [r] st
  = (mk_state (heap st ++ [softmax_of a (Z.to_nat (axis (self st)))])
              (remember (self st) (length (heap st))),
     Ok (length (heap st))).
Proof.
  intros Hr (Hwf & Hnd & Hkind & Hpos) Hax Hb.
  rewrite (forward_single st r Hr).
  destruct (takes_cudnn g (self st) (xp_of a) (dtype_of a)) eqn:E.
  - destruct Hb as [Hb|Hb]; [congruence|].
    apply forward_cudnn_run; auto.
    eapply takes_cudnn_cupy, E.
  - apply forward_generic_run. rewrite get_array_module_single.
    apply generic_forward_value_ok; auto.
    + now apply valid_axis_normalize.
    + apply Forall_nth_pos; [assumption|]. unfold valid_axis in Hax.
      unfold ndim in Hax. lia.
Qed.

(** When the array operations of the [else] branch succeed, [backward]
    returns their result in a new object and changes nothing else. *)
Lemma backward_generic_run (st : state) (yr gr : ref) (rest : list ref)
      (ya ga gx : ndarray) :
  y (self st) = Some yr ->
  nth_error (heap st) yr = Some ya ->
  nth_error (heap st) gr = Some ga ->
  generic_backward_value ya ga (axis (self st)) = Ok gx ->
  backward_generic (gr :: rest) st
  = (mk_state (heap st ++ [gx]) (self st), Ok (length (heap st))).
Proof.
  unfold generic_backward_value. intros Hy Hya Hga H.
  destruct (multiply ya ga) as [pr|] eqn:Ep; [|discriminate].
  simpl in H.
  destruct (Numpy.sum pr (axis (self st))) as [sm|] eqn:Es;
    [|discriminate].
  simpl in H.
  destruct (multiply ya sm) as [t|] eqn:Et; [|discriminate].
  simpl in H.
  unfold backward_generic, bind, lift, get_self, alloc, get_y, deref,
    store, ret.
  rewrite Hy, Hya, index_0, Hga, Ep. cbn [heap self].
  rewrite nth_error_snoc, Es, Hy, (nth_error_app_old _ _ _ Hya), Et, H.
  cbn [heap self]. rewrite upd_snoc. reflexivity.
Qed.

(** Under the documented behaviour of the library, the [if] branch of
    [backward] returns the vector-Jacobian product in a new object. *)
Lemma backward_cudnn_run (st : state) (x0 ya ga : ndarray) (yr gr : ref)
      (rest : list ref) :
  Cudnn.honours_contract (libcudnn g) ->
  xp_of x0 = cupy -> kind (dtype_of x0) = "f"%char ->
  valid_axis (axis (self st)) x0 ->
  y (self st) = Some yr ->
  nth_error (heap st) yr = Some ya ->
  nth_error (heap st) gr = Some ga ->
  wf ya -> wf ga -> xp_of ya = cupy -> xp_of ga = cupy ->
  shape ya = shape x0 -> shape ga = shape x0 ->
  backward_cudnn g [x0] (gr :: rest) st
  = (mk_state
       (heap st ++
        [mk_ndarray cupy (dtype_of x0) (shape x0)
           (tabulate (shape x0)
                     (vjp_at ya ga (Z.to_nat (axis (self st)))))])
       (self st),
     Ok (length (heap st))).
Proof.
  intros Hlib Hxp Hkind Hax Hy Hya Hga Hwy Hwg Hxy Hxg Hsy Hsg.
  assert (Hlt : Z.to_nat (axis (self st)) < ndim x0)
    by (unfold valid_axis in Hax; lia).
  unfold backward_cudnn, bind, lift, get_self, alloc, get_y, deref,
    store, ret.
  rewrite index_0. cbn [heap self shape].
  rewrite (get_tensor4d_shape_valid (self st) (shape x0) Hax).
  unfold reshape. cbn [shape].
  rewrite (size_shape4 (shape x0) Hlt), Nat.eqb_refl.
  unfold create_tensor_descriptor, data_ptr.
  cbn [dtype_of xp_of shape data heap self].
  rewrite Hkind, Hy. cbn [Ascii.eqb Bool.eqb].
  rewrite (nth_error_app_old _ _ _ Hya), Hxy, index_0,
    (nth_error_app_old _ _ _ Hga), Hxg.
  unfold shape4 at 1.
  destruct (Hlib 1%R 0%R
              (size (firstn (Z.to_nat (axis (self st))) (shape x0)))
              (nth (Z.to_nat (axis (self st))) (shape x0) 0)
              (size (skipn (S (Z.to_nat (axis (self st)))) (shape x0)))
              1 (data ya)
              (data (empty_like (junk g) x0))) as [_ Hb].
  - fold (shape4 (Z.to_nat (axis (self st))) (shape x0)).
    rewrite (size_shape4 (shape x0) Hlt), <- Hsy. exact Hwy.
  - fold (shape4 (Z.to_nat (axis (self st))) (shape x0)).
    rewrite (size_shape4 (shape x0) Hlt).
    unfold empty_like, with_data. simpl.
    now rewrite length_map, length_seq.
  - unfold _algorithm, _mode. rewrite (Hb (data ga)).
    + fold (shape4 (Z.to_nat (axis (self st))) (shape x0)).
      rewrite <- Hsy at 1 2.
      rewrite channel_softmax_grad_eq.
      * cbn [heap self]. rewrite upd_snoc.
        rewrite get_array_module_single, Hxp, Hsy.
        unfold with_data. simpl. reflexivity.
      * congruence.
      * unfold ndim. now rewrite Hsy.
    + fold (shape4 (Z.to_nat (axis (self st))) (shape x0)).
      rewrite (size_shape4 (shape x0) Hlt), <- Hsg. exact Hwg.
Qed.

End Runs.

(* ================================================================== *)
(** * Validation and the life cycle of the function object *)

Section Lifecycle.

Variable g : cuda.

Lemma deref_all_state (x : list ref) (st : state) :
  fst (deref_all x st) = st.
Proof.
  induction x as [|r x IH]; [reflexivity|].
  simpl. unfold bind, deref, ret.
  destruct (nth_error (heap st) r); [|reflexivity].
  destruct (deref_all x st) as [st' [l|e]] eqn:E; simpl in IH; now subst.
Qed.

Lemma call_single (st : state) (r : ref) (a : ndarray) :
  nth_error (heap st) r = Some a ->
  call g [r] st
  = match check_type_forward (self st) [type_of a] with
    | Ok _ => forward g [r] st
    | Raise e => (st, Raise e)
    end.
Proof.
  intros H. unfold call, bind at 1.
  rewrite (deref_all_single r st H).
  unfold bind, get_self, lift. simpl map.
  now destruct (check_type_forward (self st) [type_of a]).
Qed.

Lemma check_type_forward_single (self : Softmax) (a : ndarray) :
  check_type_forward self [type_of a]
  = if Ascii.eqb (kind (dtype_of a)) "f" then
      if 1 <? ndim a then
        if (axis self <? Z.of_nat (ndim a))%Z then Ok tt
        else Raise (InvalidType ExpectAxis)
      else Raise (InvalidType ExpectNdim)
    else Raise (InvalidType ExpectKind).
Proof. reflexivity. Qed.

(** Before [forward] has run there is no [self.y]: [backward] cannot
    return. *)
Lemma backward_needs_y (st : state) (x gy : list ref) (p : ref) :
  y (self st) = None -> snd (backward g x gy st) <> Ok p.
Proof.
  intros Hy. unfold backward, bind at 1.
  pose proof (deref_all_state x st) as Hst.
  destruct (deref_all x st) as [st' [xs|e]]; simpl in Hst; subst st';
    [|discriminate].
  unfold bind at 1, get_self. unfold bind at 1, lift.
  destruct (use_cudnn_path g (self st) xs) as [[|]|e]; [| |discriminate].
  - unfold backward_cudnn, bind, lift, get_self, alloc, get_y.
    destruct (index xs 0) as [x0|]; [|discriminate].
    cbn [heap self shape].
    destruct (_get_tensor4d_shape (self st) (shape x0)) as [s4|];
      [|discriminate].
    match goal with
    | |- context [reshape ?u s4] => destruct (reshape u s4) as [v|]
    end; [|discriminate].
    destruct (create_tensor_descriptor v); [|discriminate].
    cbn [heap self]. rewrite Hy. discriminate.
  - unfold backward_generic, bind, get_y. rewrite Hy. discriminate.
Qed.

Lemma backward_generic_without_y (st : state) (gy : list ref) :
  y (self st) = None -> backward_generic gy st = (st, Raise AttributeError).
Proof.
  intros Hy. unfold backward_generic, bind, get_y. now rewrite Hy.
Qed.

End Lifecycle.

(* ================================================================== *)
(** * What backward leaves behind *)

Section BackwardFrame.

Lemma nth_error_grown {A} (h extra : list A) (m : nat) (b : A) :
  nth_error h m = Some b -> nth_error (h ++ extra) m = Some b.
Proof.
  intros H. rewrite nth_error_app1; [exact H|].
  apply nth_error_Some. congruence.
Qed.

Lemma deref_all_grown (x : list ref) (st : state) (xs extra : list ndarray)
      (self' : Softmax) :
  deref_all x st = (st, Ok xs) ->
  deref_all x (mk_state (heap st ++ extra) self')
  = (mk_state (heap st ++ extra) self', Ok xs).
Proof.
  revert xs. induction x as [|r x IH]; intros xs H.
  - simpl in *. unfold ret in *. congruence.
  - simpl in *. unfold bind, deref, ret in *. cbn [heap].
    destruct (nth_error (heap st) r) as [a|] eqn:Er; [|discriminate].
    rewrite (nth_error_grown _ extra _ Er).
    pose proof (deref_all_state x st) as Hst.
    destruct (deref_all x st) as [st' [l|e]] eqn:E; simpl in Hst; subst st';
      [|discriminate].
    rewrite (IH l eq_refl). congruence.
Qed.

(** The [else] branch of [backward] adds at most one object to the store,
    touches nothing that was there, and returns or raises what
    [generic_backward_outcome] says. *)
Lemma backward_generic_effect (gy : list ref) (st : state) :
  outcome (backward_generic gy st) = generic_backward_outcome st gy
  /\ (fst (backward_generic gy st) = st
      \/ (operands_found st gy
          /\ exists z, fst (backward_generic gy st)
                       = mk_state (heap st ++ [z]) (self st))).
Proof.
  unfold operands_found, generic_backward_outcome, backward_generic, outcome,
    bind, lift, get_self, alloc, get_y, deref, store, ret.
  destruct (y (self st)) as [yr|] eqn:Hy; [|now split; [|left]].
  destruct (nth_error (heap st) yr) as [ya|] eqn:Hya; [|now split; [|left]].
  destruct (index gy 0) as [gr|] eqn:Hgr; [|now split; [|left]].
  cbn [rbind].
  destruct (nth_error (heap st) gr) as [ga|] eqn:Hga; [|now split; [|left]].
  assert (Hfound : exists yr0 ya0 gr0 ga0,
             Some yr = Some yr0 /\ nth_error (heap st) yr0 = Some ya0
             /\ Ok gr = Ok gr0 /\ nth_error (heap st) gr0 = Some ga0)
    by (exists yr, ya, gr, ga; auto).
  unfold generic_backward_value.
  destruct (multiply ya ga) as [pr|] eqn:Ep; [|now split; [|left]].
  cbn [rbind heap self]. rewrite nth_error_snoc.
  destruct (Numpy.sum pr (axis (self st))) as [sm|] eqn:Es.
  2:{ split; [reflexivity|]. right. split; [exact Hfound|]. now exists pr. }
  cbn [rbind heap self]. rewrite Hy, (nth_error_app_old _ _ _ Hya).
  destruct (multiply ya sm) as [t|] eqn:Et.
  2:{ split; [reflexivity|]. right. split; [exact Hfound|]. now exists pr. }
  cbn [rbind].
  destruct (isubtract pr t) as [gx|] eqn:Eg.
  2:{ split; [reflexivity|]. right. split; [exact Hfound|]. now exists pr. }
  cbn [fst snd heap self]. rewrite upd_snoc, nth_error_snoc.
  split; [reflexivity|]. right. split; [exact Hfound|]. now exists gx.
Qed.

Lemma generic_backward_outcome_grown (st : state) (gy : list ref)
      (extra : list ndarray) :
  operands_found st gy ->
  generic_backward_outcome (mk_state (heap st ++ extra) (self st)) gy
  = generic_backward_outcome st gy.
Proof.
  intros (yr & ya & gr & ga & Hy & Hya & Hgr & Hga).
  unfold generic_backward_outcome. cbn [heap self].
  rewrite Hy, Hya, (nth_error_grown _ extra _ Hya), Hgr. cbn [rbind].
  now rewrite Hga, (nth_error_grown _ extra _ Hga).
Qed.

Lemma state_eta (st : state) : mk_state (heap st) (self st) = st.
Proof. now destruct st. Qed.

(** Once the store has grown by earlier calls, the [else] branch still
    returns what it returned at first, and the store only grows. *)
Lemma backward_generic_again (st : state) (gy : list ref)
      (extra : list ndarray) :
  extra = [] \/ operands_found st gy ->
  outcome (backward_generic gy (mk_state (heap st ++ extra) (self st)))
  = outcome (backward_generic gy st)
  /\ exists extra',
       fst (backward_generic gy (mk_state (heap st ++ extra) (self st)))
       = mk_state (heap st ++ extra') (self st)
       /\ (extra' = [] \/ operands_found st gy).
Proof.
  intros [->|Hfound].
  - rewrite app_nil_r, state_eta. split; [reflexivity|].
    destruct (backward_generic_effect gy st) as [_ [Hst|[Hf [z Hst]]]].
    + exists []. rewrite app_nil_r, state_eta. auto.
    + exists [z]. auto.
  - destruct (backward_generic_effect gy st) as [Hout _].
    destruct (backward_generic_effect gy
                (mk_state (heap st ++ extra) (self st)))
      as [Hout' Hst'].
    split.
    + now rewrite Hout', Hout, generic_backward_outcome_grown.
    + destruct Hst' as [Hst'|[_ [z Hst']]]; rewrite Hst'.
      * exists extra. auto.
      * exists (extra ++ [z]). cbn [heap self].
        rewrite <- app_assoc. auto.
Qed.

(** With the generic backend chosen at first, every later call of
    [backward] with the same arguments chooses it again, leaves [self] and
    the arrays of the first store alone, and returns what the first call
    returned. *)
Lemma after_backwards_generic (g : cuda) (x gy : list ref)
      (xs : list ndarray) (st : state) :
  deref_all x st = (st, Ok xs) ->
  use_cudnn_path g (self st) xs = Ok false ->
  forall n extra,
    extra = [] \/ operands_found st gy ->
    let stn :=
      after_backwards g x gy n (mk_state (heap st ++ extra) (self st)) in
    self stn = self st
    /\ (exists e, heap stn = heap st ++ e)
    /\ outcome (backward g x gy stn) = outcome (backward g x gy st).
Proof.
  intros Hx Hgen.
  assert (Hrun : forall extra,
             backward g x gy (mk_state (heap st ++ extra) (self st))
             = backward_generic gy (mk_state (heap st ++ extra) (self st))).
  { intros extra. unfold backward, bind at 1.
    rewrite (@deref_all_grown x st xs extra (self st) Hx).
    unfold bind, get_self, lift. cbn [self]. now rewrite Hgen. }
  assert (Hrun0 : backward g x gy st = backward_generic gy st).
  { specialize (Hrun []). now rewrite app_nil_r, state_eta in Hrun. }
  induction n as [|n IH]; intros extra Hextra; cbn [after_backwards].
  - cbn [self heap]. split; [reflexivity|]. split; [now exists extra|].
    rewrite Hrun, Hrun0. now apply backward_generic_again.
  - rewrite Hrun.
    destruct (@backward_generic_again st gy extra Hextra)
      as [_ (extra' & Hst & Hextra')].
    rewrite Hst. now apply IH.
Qed.

End BackwardFrame.

(* ================================================================== *)
(** * The reference library *)

Lemma reference_honours_contract (version : Z) :
  Cudnn.honours_contract (Cudnn.reference version).
Proof. intros alpha beta n c h w x prior s Hx Hp. split; reflexivity. Qed.

Lemma wf_softmax_of (a : ndarray) (ax : nat) : wf (softmax_of a ax).
Proof. unfold wf, softmax_of. simpl. apply length_tabulate. Qed.

(* ================================================================== *)
(** * Floating-point values *)

Section FpValues.
Local Open Scope R_scope.

Variable A : Fp.arithmetic.
Variables u eta : R.
Hypothesis Hstd : standard A u eta.

Lemma rnd_above (r : R) : 0 <= r -> Fp.rnd A r <= (1 + u) * r + eta.
Proof.
  intros Hr. pose proof (rnd_err Hstd r) as H.
  rewrite (Rabs_pos_eq r Hr) in H.
  unfold Rabs in H. destruct (Rcase_abs (Fp.rnd A r - r)); lra.
Qed.

Lemma rnd_below (r : R) : 0 <= r -> (1 - u) * r - eta <= Fp.rnd A r.
Proof.
  intros Hr. pose proof (rnd_err Hstd r) as H.
  rewrite (Rabs_pos_eq r Hr) in H.
  unfold Rabs in H. destruct (Rcase_abs (Fp.rnd A r - r)); lra.
Qed.

Lemma acc_above (r : R) : 0 <= r -> Fp.acc A r <= (1 + u) * r + eta.
Proof.
  intros Hr. pose proof (acc_err Hstd r) as H.
  rewrite (Rabs_pos_eq r Hr) in H.
  unfold Rabs in H. destruct (Rcase_abs (Fp.acc A r - r)); lra.
Qed.

Lemma acc_below (r : R) : 0 <= r -> (1 - u) * r - eta <= Fp.acc A r.
Proof.
  intros Hr. pose proof (acc_err Hstd r) as H.
  rewrite (Rabs_pos_eq r Hr) in H.
  unfold Rabs in H. destruct (Rcase_abs (Fp.acc A r - r)); lra.
Qed.

Lemma rnd_nonneg (r : R) : 0 <= r -> 0 <= Fp.rnd A r.
Proof. intros H. rewrite <- (rnd_0 Hstd). now apply (rnd_mono Hstd). Qed.

Lemma rnd_nonpos (r : R) : r <= 0 -> Fp.rnd A r <= 0.
Proof. intros H. rewrite <- (rnd_0 Hstd). now apply (rnd_mono Hstd). Qed.

Lemma rnd_le_1 (r : R) : r <= 1 -> Fp.rnd A r <= 1.
Proof. intros H. rewrite <- (rnd_1 Hstd). now apply (rnd_mono Hstd). Qed.

Lemma acc_0 : Fp.acc A 0 = 0.
Proof. rewrite <- (rnd_0 Hstd) at 1. rewrite (acc_rnd Hstd). apply (rnd_0 Hstd). Qed.

Lemma acc_nonneg (r : R) : 0 <= r -> 0 <= Fp.acc A r.
Proof. intros H. rewrite <- acc_0. now apply (acc_mono Hstd). Qed.

Lemma acc_fixes (e : R) : Fp.rnd A e = e -> Fp.acc A e = e.
Proof. intros H. rewrite <- H at 1. rewrite (acc_rnd Hstd). exact H. Qed.

Lemma in_range_fin (bound v : R) :
  - bound <= v <= bound -> Fp.in_range bound v = Fp.Fin v.
Proof.
  intros H. unfold Fp.in_range.
  destruct (Rlt_dec bound v); [lra|].
  destruct (Rlt_dec v (- bound)); [lra|reflexivity].
Qed.

Lemma in_range_overflow (bound v : R) :
  bound < v -> Fp.in_range bound v = Fp.Inf false.
Proof.
  intros H. unfold Fp.in_range. destruct (Rlt_dec bound v); [reflexivity|lra].
Qed.

Lemma of_real_unit (r : R) :
  0 <= r <= 1 -> Fp.of_real A r = Fp.Fin (Fp.rnd A r).
Proof.
  intros H. unfold Fp.of_real. apply in_range_fin.
  pose proof (std_fmax Hstd).
  pose proof (rnd_nonneg (proj1 H)). pose proof (rnd_le_1 (proj2 H)). lra.
Qed.

Lemma of_real_0 : Fp.of_real A 0 = Fp.Fin 0.
Proof. rewrite of_real_unit by lra. now rewrite (rnd_0 Hstd). Qed.

Lemma of_real_1 : Fp.of_real A 1 = Fp.Fin 1.
Proof. rewrite of_real_unit by lra. now rewrite (rnd_1 Hstd). Qed.

(** The exponential of an element minus an upper bound of it is a value of
    the element type between 0 and 1. *)
Lemma exponential_unit (m v : R) :
  v <= m ->
  exists e, Fp.fexp A (Fp.fsub A (Fp.Fin v) (Fp.Fin m)) = Fp.Fin e
            /\ 0 <= e <= 1 /\ Fp.rnd A e = e.
Proof.
  intros Hv.
  change (Fp.fsub A (Fp.Fin v) (Fp.Fin m)) with (Fp.of_real A (v - m)).
  unfold Fp.of_real at 1, Fp.in_range.
  assert (Hd : Fp.rnd A (v - m) <= 0) by (apply rnd_nonpos; lra).
  pose proof (std_fmax Hstd) as Hf.
  destruct (Rlt_dec (Fp.fmax A) (Fp.rnd A (v - m))) as [H|_]; [lra|].
  destruct (Rlt_dec (Fp.rnd A (v - m)) (- Fp.fmax A)) as [_|_].
  - exists 0. simpl. split; [reflexivity|]. split; [lra|apply (rnd_0 Hstd)].
  - simpl. pose proof (libm_exp_unit Hstd Hd) as He.
    rewrite (of_real_unit He).
    exists (Fp.rnd A (Fp.libm_exp A (Fp.rnd A (v - m)))).
    split; [reflexivity|]. split.
    + split; [apply rnd_nonneg|apply rnd_le_1]; lra.
    + apply (rnd_idem Hstd).
Qed.

(** At the maximum itself it is exactly 1. *)
Lemma exponential_max (m : R) :
  Fp.fexp A (Fp.fsub A (Fp.Fin m) (Fp.Fin m)) = Fp.Fin 1.
Proof.
  change (Fp.fsub A (Fp.Fin m) (Fp.Fin m)) with (Fp.of_real A (m - m)).
  replace (m - m) with 0 by lra. rewrite of_real_0. simpl.
  rewrite (libm_exp_0 Hstd). apply of_real_1.
Qed.

End FpValues.

Section FpLists.
Local Open Scope R_scope.

Lemma total_app (l1 l2 : list R) : total (l1 ++ l2) = total l1 + total l2.
Proof.
  induction l1 as [|v l1 IH].
  - change (total []) with 0. simpl. lra.
  - change ((v :: l1) ++ l2) with (v :: (l1 ++ l2)).
    rewrite !total_cons, IH. lra.
Qed.

Lemma total_permutation (l1 l2 : list R) :
  Permutation l1 l2 -> total l1 = total l2.
Proof.
  intros H. induction H; rewrite ?total_cons in *; lra.
Qed.

Lemma total_constant {B} (l : list B) (r : R) :
  total (map (fun _ => r) l) = INR (length l) * r.
Proof.
  induction l as [|w l IH]; [change (total (map _ [])) with 0; simpl; lra|].
  rewrite map_cons, total_cons, IH. cbn [length]. rewrite S_INR. lra.
Qed.

Lemma map_nth_seq (el : list R) :
  map (fun i => nth i el 0) (seq 0 (length el)) = el.
Proof.
  apply nth_ext with (d := 0) (d' := 0).
  - now rewrite length_map, length_seq.
  - intros n Hn. rewrite length_map, length_seq in Hn.
    rewrite (nth_indep _ 0 (nth 0%nat el 0))
      by (now rewrite length_map, length_seq).
    rewrite (map_nth (fun i => nth i el 0)).
    now rewrite seq_nth.
Qed.

Lemma fmaximum_fin (l : list R) :
  l <> [] -> Fp.fmaximum (map Fp.Fin l) = Fp.Fin (maximum l).
Proof.
  induction l as [|v l IH]; [congruence|intros _].
  destruct l as [|w l]; [reflexivity|].
  change (Fp.fmaximum (map Fp.Fin (v :: w :: l)))
    with (Fp.fmax2 (Fp.Fin v) (Fp.fmaximum (map Fp.Fin (w :: l)))).
  rewrite IH by congruence. reflexivity.
Qed.

Lemma maximum_in (l : list R) : l <> [] -> In (maximum l) l.
Proof.
  induction l as [|v l IH]; [congruence|intros _].
  destruct l as [|w l]; [now left|].
  rewrite maximum_cons. unfold Rmax.
  destruct (Rle_dec v (maximum (w :: l))).
  - right. apply IH. congruence.
  - now left.
Qed.

Lemma finite_values (l : list Fp.fp) :
  Forall finite l -> l = map Fp.Fin (map value l).
Proof.
  induction 1 as [|v l Hv _ IH]; [reflexivity|].
  simpl. rewrite <- IH. destruct v; simpl in *; try contradiction.
  reflexivity.
Qed.

Lemma fsum_nonempty (A : Fp.arithmetic) (l : list Fp.fp) :
  l <> [] ->
  Fp.fsum A l = Fp.cast A (Fp.eval A l (Fp.order A (length l))).
Proof. destruct l; [congruence|reflexivity]. Qed.

Lemma length_leaves (t : Fp.sched) : length (Fp.leaves t) = S (Fp.adds t).
Proof.
  induction t as [i|a IHa b IHb]; simpl; [reflexivity|].
  rewrite length_app, IHa, IHb. lia.
Qed.

Lemma pow_le_1 (q : R) (n : nat) : 0 <= q <= 1 -> 0 <= q ^ n <= 1.
Proof.
  intros H. split; [apply pow_le; lra|].
  rewrite <- (pow1 n). apply pow_incr. lra.
Qed.

Lemma div_le (e s k : R) : 0 < s -> e <= k * s -> e / s <= k.
Proof.
  intros Hs H. unfold Rdiv.
  apply Rmult_le_reg_r with (r := s); [exact Hs|].
  rewrite Rmult_assoc, Rinv_l by lra. lra.
Qed.

Lemma div_ge (e s k : R) : 0 < s -> k * s <= e -> k <= e / s.
Proof.
  intros Hs H. unfold Rdiv.
  apply Rmult_le_reg_r with (r := s); [exact Hs|].
  rewrite Rmult_assoc, Rinv_l by lra. lra.
Qed.

End FpLists.

(* ================================================================== *)
(** * The floating-point sum of a lane of exponentials *)

Section FpSum.
Local Open Scope R_scope.

Variable A : Fp.arithmetic.
Variables u eta : R.
Hypothesis Hstd : standard A u eta.

(** The exponentials of a lane: values of the element type between 0 and
    1. *)
Variable el : list R.
Hypothesis Hel : forall e, In e el -> 0 <= e <= 1 /\ Fp.rnd A e = e.

Lemma nth_unit (i : nat) : 0 <= nth i el 0 <= 1.
Proof.
  destruct (Nat.lt_ge_cases i (length el)) as [H|H].
  - apply Hel, nth_In, H.
  - rewrite nth_overflow by exact H. lra.
Qed.

Lemma picked_nonneg (l : list nat) :
  0 <= total (map (fun i => nth i el 0) l).
Proof.
  induction l as [|i l IH]; [change (total (map _ [])) with 0; lra|].
  rewrite map_cons, total_cons. pose proof (nth_unit i). lra.
Qed.

Lemma eval_leaf (i : nat) :
  (i < length el)%nat ->
  Fp.eval A (map Fp.Fin el) (Fp.Leaf i) = Fp.Fin (nth i el 0).
Proof.
  intros H. simpl.
  rewrite (nth_indep _ Fp.NaN (Fp.Fin 0)) by (now rewrite length_map).
  apply map_nth.
Qed.

(** Evaluating a schedule: no addition overflows, the result is at least
    every element it adds, and it is off the exact sum by the rounding of
    its additions. *)
Lemma eval_bounds (t : Fp.sched) :
  Forall (fun i => (i < length el)%nat) (Fp.leaves t) ->
  (1 + u) ^ Fp.adds t
  * (total (map (fun i => nth i el 0) (Fp.leaves t)) + INR (Fp.adds t) * eta)
  <= Fp.acc_max A ->
  exists v,
    Fp.eval A (map Fp.Fin el) t = Fp.Fin v
    /\ Fp.acc A v = v
    /\ 0 <= v
    /\ (1 - u) ^ Fp.adds t * total (map (fun i => nth i el 0) (Fp.leaves t))
       - INR (Fp.adds t) * eta <= v
    /\ v <= (1 + u) ^ Fp.adds t
            * (total (map (fun i => nth i el 0) (Fp.leaves t))
               + INR (Fp.adds t) * eta)
    /\ forall i, In i (Fp.leaves t) -> nth i el 0 <= v.
Proof.
  pose proof (std_u Hstd) as Hu. pose proof (std_eta Hstd) as Heta.
  induction t as [i|a IHa b IHb]; intros Hin Hfit.
  - apply Forall_inv in Hin.
    exists (nth i el 0). rewrite (eval_leaf Hin).
    pose proof (nth_unit i) as Hi.
    cbn [Fp.adds Fp.leaves map pow INR].
    rewrite total_cons. change (total []) with 0.
    split; [reflexivity|]. split.
    { apply (acc_fixes Hstd). now apply Hel, nth_In. }
    split; [lra|]. split; [lra|]. split; [lra|].
    intros j [<-|[]]. lra.
  - cbn [Fp.adds Fp.leaves Fp.eval] in Hin, Hfit |- *.
    apply Forall_app in Hin. destruct Hin as [Hia Hib].
    change ((1 + u) ^ S (Fp.adds a + Fp.adds b))
      with ((1 + u) * (1 + u) ^ (Fp.adds a + Fp.adds b)) in *.
    change ((1 - u) ^ S (Fp.adds a + Fp.adds b))
      with ((1 - u) * (1 - u) ^ (Fp.adds a + Fp.adds b)) in *.
    rewrite map_app, total_app in *.
    set (Sa := total (map (fun i => nth i el 0) (Fp.leaves a))) in *.
    set (Sb := total (map (fun i => nth i el 0) (Fp.leaves b))) in *.
    assert (HSa : 0 <= Sa) by apply picked_nonneg.
    assert (HSb : 0 <= Sb) by apply picked_nonneg.
    rewrite S_INR, plus_INR in *.
    pose proof (pos_INR (Fp.adds a)) as Hka.
    pose proof (pos_INR (Fp.adds b)) as Hkb.
    rewrite !pow_add in *.
    assert (HPa : 1 <= (1 + u) ^ Fp.adds a) by (apply pow_R1_Rle; lra).
    assert (HPb : 1 <= (1 + u) ^ Fp.adds b) by (apply pow_R1_Rle; lra).
    pose proof (@pow_le_1 (1 - u) (Fp.adds a) ltac:(lra)) as HQa.
    pose proof (@pow_le_1 (1 - u) (Fp.adds b) ltac:(lra)) as HQb.
    set (Pa := (1 + u) ^ Fp.adds a) in *.
    set (Pb := (1 + u) ^ Fp.adds b) in *.
    set (Qa := (1 - u) ^ Fp.adds a) in *.
    set (Qb := (1 - u) ^ Fp.adds b) in *.
    set (ka := INR (Fp.adds a)) in *.
    set (kb := INR (Fp.adds b)) in *.
    assert (Hke : 0 <= ka * eta) by (apply Rmult_le_pos; lra).
    assert (Hle : 0 <= kb * eta) by (apply Rmult_le_pos; lra).
    set (xa := Sa + ka * eta) in *.
    set (xb := Sb + kb * eta) in *.
    assert (Hxa : 0 <= xa) by (unfold xa; lra).
    assert (Hxb : 0 <= xb) by (unfold xb; lra).
    assert (HPP : 1 <= Pa * Pb).
    { pose proof (Rmult_le_pos (Pa - 1) (Pb - 1) ltac:(lra) ltac:(lra)).
      lra. }
    assert (HPaPP : Pa <= Pa * Pb).
    { pose proof (Rmult_le_pos Pa (Pb - 1) ltac:(lra) ltac:(lra)). lra. }
    assert (HPbPP : Pb <= Pa * Pb).
    { pose proof (Rmult_le_pos (Pa - 1) Pb ltac:(lra) ltac:(lra)). lra. }
    assert (Hfa : Pa * xa <= Pa * Pb * xa).
    { apply Rmult_le_compat_r; lra. }
    assert (Hfb : Pb * xb <= Pa * Pb * xb).
    { apply Rmult_le_compat_r; lra. }
    assert (Hpa : 0 <= Pa * Pb * xa) by (apply Rmult_le_pos; lra).
    assert (Hpb : 0 <= Pa * Pb * xb) by (apply Rmult_le_pos; lra).
    assert (Hue : 0 <= u * (Pa * Pb * (xa + xb))).
    { apply Rmult_le_pos; [lra|]. lra. }
    assert (Hpe : eta <= (1 + u) * (Pa * Pb) * eta).
    { assert (1 <= (1 + u) * (Pa * Pb)).
      { pose proof (Rmult_le_pos u (Pa * Pb) ltac:(lra) ltac:(lra)). lra. }
      pose proof (Rmult_le_compat_r eta 1 ((1 + u) * (Pa * Pb))
                    ltac:(lra) ltac:(lra)).
      lra. }
    assert (Hfit' : (1 + u) * (Pa * Pb) * (xa + xb + eta) <= Fp.acc_max A).
    { replace (xa + xb + eta) with (Sa + Sb + (ka + kb + 1) * eta)
        by (unfold xa, xb; ring).
      exact Hfit. }
    assert (Hbig : Pa * Pb * (xa + xb)
                   <= (1 + u) * (Pa * Pb) * (xa + xb + eta)).
    { replace ((1 + u) * (Pa * Pb) * (xa + xb + eta))
        with (Pa * Pb * (xa + xb) + u * (Pa * Pb * (xa + xb))
              + (1 + u) * (Pa * Pb) * eta) by ring.
      lra. }
    destruct IHa as (va & Eva & Hacca & Hva & Hla & Hua & Hma);
      [exact Hia|fold xa; lra|].
    destruct IHb as (vb & Evb & Haccb & Hvb & Hlb & Hub & Hmb);
      [exact Hib|fold xb; lra|].
    fold xa in Hua. fold xb in Hub.
    rewrite Eva, Evb. cbn [Fp.acc_add].
    assert (Hsum : 0 <= va + vb) by lra.
    pose proof (acc_above Hstd Hsum) as Habove.
    pose proof (acc_below Hstd Hsum) as Hbelow.
    pose proof (acc_nonneg Hstd Hsum) as Hnn.
    assert (Hup : Fp.acc A (va + vb)
                  <= (1 + u) * (Pa * Pb) * (Sa + Sb + (ka + kb + 1) * eta)).
    { replace (Sa + Sb + (ka + kb + 1) * eta) with (xa + xb + eta)
        by (unfold xa, xb; ring).
      assert (Hab : va + vb <= Pa * Pb * (xa + xb)) by lra.
      pose proof (Rmult_le_compat_l (1 + u) _ _ ltac:(lra) Hab) as Hm.
      replace ((1 + u) * (Pa * Pb) * (xa + xb + eta))
        with ((1 + u) * (Pa * Pb * (xa + xb)) + (1 + u) * (Pa * Pb) * eta)
        by ring.
      lra. }
    assert (Hlow : (1 - u) * (Qa * Qb) * (Sa + Sb) - (ka + kb + 1) * eta
                   <= Fp.acc A (va + vb)).
    { assert (HQQ : 0 <= Qa * Qb) by (apply Rmult_le_pos; lra).
      assert (Ha1 : Qa * Qb * Sa <= Qa * Sa).
      { pose proof (Rmult_le_pos (Qa * Sa) (1 - Qb)
                      ltac:(apply Rmult_le_pos; lra) ltac:(lra)).
        lra. }
      assert (Hb1 : Qa * Qb * Sb <= Qb * Sb).
      { pose proof (Rmult_le_pos (Qb * Sb) (1 - Qa)
                      ltac:(apply Rmult_le_pos; lra) ltac:(lra)).
        lra. }
      assert (Hab : Qa * Qb * (Sa + Sb) - (ka + kb) * eta <= va + vb).
      { replace (Qa * Qb * (Sa + Sb)) with (Qa * Qb * Sa + Qa * Qb * Sb)
          by ring.
        replace ((ka + kb) * eta) with (ka * eta + kb * eta) by ring.
        lra. }
      pose proof (Rmult_le_compat_l (1 - u) _ _ ltac:(lra) Hab) as Hm.
      assert (Hsmall : (1 - u) * ((ka + kb) * eta) <= (ka + kb) * eta).
      { pose proof (Rmult_le_pos u ((ka + kb) * eta) ltac:(lra)
                      ltac:(lra)).
        lra. }
      replace ((1 - u) * (Qa * Qb) * (Sa + Sb))
        with ((1 - u) * (Qa * Qb * (Sa + Sb))) by ring.
      replace ((1 - u) * (Qa * Qb * (Sa + Sb) - (ka + kb) * eta))
        with ((1 - u) * (Qa * Qb * (Sa + Sb))
              - (1 - u) * ((ka + kb) * eta)) in Hm by ring.
      lra. }
    exists (Fp.acc A (va + vb)).
    split.
    { apply in_range_fin. pose proof (std_fmax Hstd).
      pose proof (std_acc_max Hstd). lra. }
    split; [apply (acc_idem Hstd)|].
    split; [exact Hnn|].
    split; [exact Hlow|].
    split; [exact Hup|].
    assert (Hga : va <= Fp.acc A (va + vb)).
    { rewrite <- Hacca at 1. apply (acc_mono Hstd). lra. }
    assert (Hgb : vb <= Fp.acc A (va + vb)).
    { rewrite <- Haccb at 1. apply (acc_mono Hstd). lra. }
    intros i Hi. apply in_app_or in Hi. destruct Hi as [Hi|Hi].
    + specialize (Hma i Hi). lra.
    + specialize (Hmb i Hi). lra.
Qed.

Lemma total_at_most_length (l : list R) :
  (forall e, In e l -> e <= 1) -> total l <= INR (length l).
Proof.
  induction l as [|e l IH]; intros H.
  - change (total []) with 0. simpl. lra.
  - rewrite total_cons. cbn [length]. rewrite S_INR.
    pose proof (H e (or_introl eq_refl)).
    assert (total l <= INR (length l)) by (apply IH; intros; apply H; now right).
    lra.
Qed.

Lemma total_at_least_term (l : list R) (e : R) :
  (forall v, In v l -> 0 <= v) -> In e l -> e <= total l.
Proof.
  induction l as [|w l IH]; intros H; [intros []|].
  rewrite total_cons.
  assert (Hl : 0 <= total l).
  { clear IH. induction l as [|x l IHl]; [change (total []) with 0; lra|].
    rewrite total_cons.
    pose proof (H x (or_intror (or_introl eq_refl))).
    assert (0 <= total l).
    { apply IHl. intros v [->|Hv]; apply H; [now left|right; now right]. }
    lra. }
  intros [->|Hin].
  - lra.
  - pose proof (H w (or_introl eq_refl)).
    assert (e <= total l) by (apply IH; [intros; apply H; now right|exact Hin]).
    lra.
Qed.

Hypothesis Hne : el <> [].
Hypothesis Hone : In 1 el.
Hypothesis Hfit : sum_fits A u eta (length el).

(** The sum of the lane is finite, at least every element and at least 1,
    and off the exact sum by the rounding of its additions and of the
    conversion. *)
Lemma fsum_bounds :
  exists s,
    Fp.fsum A (map Fp.Fin el) = Fp.Fin s
    /\ Fp.rnd A s = s
    /\ 1 <= s
    /\ (forall e, In e el -> e <= s)
    /\ (1 - u) ^ length el * total el - INR (length el) * eta <= s
    /\ s <= (1 + u) ^ length el * (total el + INR (length el) * eta).
Proof.
  pose proof (std_u Hstd) as Hu. pose proof (std_eta Hstd) as Heta.
  pose proof (std_fmax Hstd) as Hfmax. pose proof (std_acc_max Hstd) as Hamax.
  assert (Hlen : (0 < length el)%nat) by (destruct el; [congruence|simpl; lia]).
  pose proof (order_perm Hstd Hlen) as Hperm.
  set (t := Fp.order A (length el)) in *.
  assert (Hadds : length el = S (Fp.adds t)).
  { rewrite <- length_leaves, (Permutation_length Hperm).
    now rewrite length_seq. }
  assert (Hin : Forall (fun i => (i < length el)%nat) (Fp.leaves t)).
  { apply Forall_forall. intros i Hi.
    apply (Permutation_in _ Hperm) in Hi. apply in_seq in Hi. lia. }
  assert (Htot : total (map (fun i => nth i el 0) (Fp.leaves t)) = total el).
  { rewrite (total_permutation (Permutation_map _ Hperm)).
    now rewrite map_nth_seq. }
  assert (HE : total el <= INR (length el)).
  { apply total_at_most_length. intros e He. apply Hel in He. lra. }
  assert (HE1 : 1 <= total el).
  { apply total_at_least_term; [|exact Hone].
    intros v Hv. apply Hel in Hv. lra. }
  unfold sum_fits in Hfit. rewrite Hadds in Hfit |- *.
  change ((1 + u) ^ S (Fp.adds t)) with ((1 + u) * (1 + u) ^ Fp.adds t) in *.
  change ((1 - u) ^ S (Fp.adds t)) with ((1 - u) * (1 - u) ^ Fp.adds t) in *.
  rewrite Hadds, S_INR in HE. rewrite S_INR in *.
  pose proof (pos_INR (Fp.adds t)) as Hk.
  assert (HP : 1 <= (1 + u) ^ Fp.adds t) by (apply pow_R1_Rle; lra).
  pose proof (@pow_le_1 (1 - u) (Fp.adds t) ltac:(lra)) as HQ.
  set (P := (1 + u) ^ Fp.adds t) in *.
  set (Q := (1 - u) ^ Fp.adds t) in *.
  set (k := INR (Fp.adds t)) in *.
  set (E := total el) in *.
  assert (Hke : 0 <= k * eta) by (apply Rmult_le_pos; lra).
  assert (HuP : 0 <= u * P) by (apply Rmult_le_pos; lra).
  assert (Hx : 0 <= E + k * eta) by lra.
  assert (HPx : 0 <= P * (E + k * eta)) by (apply Rmult_le_pos; lra).
  assert (Hfirst : P * (E + k * eta) <= (1 + u) * P * (E + (k + 1) * eta)).
  { replace ((1 + u) * P * (E + (k + 1) * eta))
      with (P * (E + k * eta) + u * (P * (E + k * eta)) + (1 + u) * P * eta)
      by ring.
    pose proof (Rmult_le_pos u _ (proj1 Hu) HPx).
    pose proof (Rmult_le_pos ((1 + u) * P) eta
                  ltac:(apply Rmult_le_pos; lra) Heta).
    lra. }
  assert (Hsecond : (1 + u) * P * (E + (k + 1) * eta)
                    <= (1 + u) * P * (k + 1 + (k + 1) * eta)).
  { apply Rmult_le_compat_l; [apply Rmult_le_pos; lra|lra]. }
  destruct (eval_bounds t Hin) as (v & Ev & Haccv & Hv & Hlow & Hup & Hmax).
  { rewrite Htot. fold E P k. lra. }
  rewrite Htot in Hlow, Hup. fold E P Q k in Hlow, Hup.
  pose proof (rnd_above Hstd Hv) as Habove.
  pose proof (rnd_below Hstd Hv) as Hbelow.
  pose proof (rnd_nonneg Hstd Hv) as Hnn.
  assert (Hsup : Fp.rnd A v <= (1 + u) * P * (E + (k + 1) * eta)).
  { pose proof (Rmult_le_compat_l (1 + u) _ _ ltac:(lra) Hup) as Hm.
    assert (eta <= (1 + u) * P * eta).
    { assert (1 <= (1 + u) * P) by lra.
      pose proof (Rmult_le_compat_r eta 1 ((1 + u) * P) Heta ltac:(lra)).
      lra. }
    replace ((1 + u) * P * (E + (k + 1) * eta))
      with ((1 + u) * (P * (E + k * eta)) + (1 + u) * P * eta) by ring.
    lra. }
  assert (Hslow : (1 - u) * Q * E - (k + 1) * eta <= Fp.rnd A v).
  { pose proof (Rmult_le_compat_l (1 - u) _ _ ltac:(lra) Hlow) as Hm.
    pose proof (Rmult_le_pos u (k * eta) ltac:(lra) Hke).
    replace ((1 - u) * Q * E) with ((1 - u) * (Q * E)) by ring.
    replace ((1 - u) * (Q * E - k * eta))
      with ((1 - u) * (Q * E) - (1 - u) * (k * eta)) in Hm by ring.
    lra. }
  assert (Hge : forall e, In e el -> e <= Fp.rnd A v).
  { intros e He. destruct (In_nth _ _ 0 He) as (i & Hi & <-).
    assert (Hleaf : In i (Fp.leaves t)).
    { apply (Permutation_in _ (Permutation_sym Hperm)), in_seq. lia. }
    pose proof (Hmax i Hleaf) as Hiv.
    destruct (Hel _ (nth_In el 0 Hi)) as [_ Hr].
    rewrite <- Hr. now apply (rnd_mono Hstd). }
  exists (Fp.rnd A v).
  split.
  { rewrite fsum_nonempty
      by (intros Hnil; apply map_eq_nil in Hnil; contradiction).
    rewrite length_map. fold t. rewrite Ev. cbn [Fp.cast].
    unfold Fp.of_real. apply in_range_fin. lra. }
  split; [apply (rnd_idem Hstd)|].
  split; [apply Hge, Hone|].
  split; [exact Hge|].
  split; [exact Hslow|exact Hsup].
Qed.

Lemma quotient_unit (e s : R) :
  0 <= e <= s -> 1 <= s ->
  Fp.fdiv A (Fp.Fin e) (Fp.Fin s) = Fp.Fin (Fp.rnd A (e / s))
  /\ 0 <= Fp.rnd A (e / s) <= 1.
Proof.
  intros He Hs.
  assert (Hq : 0 <= e / s <= 1).
  { split; [apply div_ge; lra|apply div_le; lra]. }
  split.
  - cbn [Fp.fdiv]. destruct (Req_dec_T s 0) as [H0|_]; [lra|].
    now apply (of_real_unit Hstd).
  - split; [apply (rnd_nonneg Hstd)|apply (rnd_le_1 Hstd)]; lra.
Qed.

Lemma total_rounded (s : R) (l : list R) :
  0 < s -> (forall e, In e l -> 0 <= e) ->
  (1 - u) * (total l / s) - INR (length l) * eta
  <= total (map (fun e => Fp.rnd A (e / s)) l)
  /\ total (map (fun e => Fp.rnd A (e / s)) l)
     <= (1 + u) * (total l / s) + INR (length l) * eta.
Proof.
  intros Hs. induction l as [|e l IH]; intros H.
  - change (total (map _ [])) with 0. change (total []) with 0.
    simpl. unfold Rdiv. lra.
  - rewrite map_cons, !total_cons. cbn [length]. rewrite S_INR.
    replace ((e + total l) / s) with (e / s + total l / s)
      by (unfold Rdiv; ring).
    assert (Hq : 0 <= e / s).
    { apply div_ge; [exact Hs|]. pose proof (H e (or_introl eq_refl)). lra. }
    pose proof (rnd_above Hstd Hq). pose proof (rnd_below Hstd Hq).
    destruct IH as [IH1 IH2]; [intros; apply H; now right|].
    lra.
Qed.

(** The outputs of the lane: each is a value between 0 and 1, and their
    exact sum is off 1 by no more than the tolerance. *)
Lemma lane_is_distribution :
  exists s,
    Fp.fsum A (map Fp.Fin el) = Fp.Fin s
    /\ 1 <= s
    /\ (forall e, In e el ->
          Fp.fdiv A (Fp.Fin e) (Fp.Fin s) = Fp.Fin (Fp.rnd A (e / s))
          /\ 0 <= Fp.rnd A (e / s) <= 1)
    /\ lower_tolerance u eta (length el)
       <= total (map (fun e => Fp.rnd A (e / s)) el)
    /\ total (map (fun e => Fp.rnd A (e / s)) el)
       <= upper_tolerance u eta (length el).
Proof.
  pose proof (std_u Hstd) as Hu. pose proof (std_eta Hstd) as Heta.
  destruct fsum_bounds as (s & Es & _ & Hs1 & Hge & Hlow & Hup).
  exists s. split; [exact Es|]. split; [exact Hs1|]. split.
  { intros e He. apply quotient_unit; [|exact Hs1].
    split; [apply Hel in He; lra|now apply Hge]. }
  assert (Hnn : forall e, In e el -> 0 <= e)
    by (intros e He; apply Hel in He; lra).
  assert (HE1 : 1 <= total el)
    by (apply total_at_least_term; [exact Hnn|exact Hone]).
  destruct (@total_rounded s el ltac:(lra) Hnn) as [Hr1 Hr2].
  pose proof (pos_INR (length el)) as Hn.
  assert (HP : 1 <= (1 + u) ^ length el) by (apply pow_R1_Rle; lra).
  assert (HQ : 0 < (1 - u) ^ length el) by (apply pow_lt; lra).
  set (n := INR (length el)) in *.
  set (P := (1 + u) ^ length el) in *.
  set (Q := (1 - u) ^ length el) in *.
  set (E := total el) in *.
  assert (Hne' : 0 <= n * eta) by (apply Rmult_le_pos; lra).
  unfold lower_tolerance, upper_tolerance. fold n P Q.
  split.
  - assert (Hq : 1 / (P * (1 + n * eta)) <= E / s).
    { apply div_ge; [lra|].
      replace (1 / (P * (1 + n * eta)) * s) with (s / (P * (1 + n * eta)))
        by (unfold Rdiv; ring).
      apply (div_le (e := s) (s := P * (1 + n * eta)) (k := E)).
      - apply Rmult_lt_0_compat; lra.
      - assert (P * (E + n * eta) <= P * ((1 + n * eta) * E)).
        { apply Rmult_le_compat_l; [lra|].
          pose proof (Rmult_le_compat_l (n * eta) 1 E Hne' HE1). lra. }
        replace (E * (P * (1 + n * eta))) with (P * ((1 + n * eta) * E))
          by ring.
        lra. }
    pose proof (Rmult_le_compat_l (1 - u) _ _ ltac:(lra) Hq). lra.
  - assert (Hq : E / s <= (1 + n * eta) / Q).
    { apply div_le; [lra|].
      replace ((1 + n * eta) / Q * s) with (((1 + n * eta) * s) / Q)
        by (unfold Rdiv; ring).
      apply div_ge; [exact HQ|].
      pose proof (Rmult_le_compat_l (n * eta) 1 s Hne' Hs1).
      replace (E * Q) with (Q * E) by ring. lra. }
    pose proof (Rmult_le_compat_l (1 + u) _ _ ltac:(lra) Hq). lra.
Qed.

End FpSum.

(* ================================================================== *)
(** * A lane of finite inputs *)

Section FpLane.
Local Open Scope R_scope.

Variable A : Fp.arithmetic.
Variables u eta : R.
Hypothesis Hstd : standard A u eta.

Variable xs : list R.
Hypothesis Hne : xs <> [].

Lemma lane_exponential (v : R) :
  In v xs ->
  Fp.fexp A (Fp.fsub A (Fp.Fin v) (Fp.Fin (maximum xs)))
  = Fp.Fin (exponential_value A (maximum xs) v)
  /\ 0 <= exponential_value A (maximum xs) v <= 1
  /\ Fp.rnd A (exponential_value A (maximum xs) v)
     = exponential_value A (maximum xs) v.
Proof.
  intros Hv.
  destruct (exponential_unit Hstd (@maximum_ge xs v Hv))
    as (e & Ee & He & Hr).
  unfold exponential_value. rewrite Ee. simpl. auto.
Qed.

Lemma lane_exponentials :
  map (fun v => Fp.fexp A (Fp.fsub A v (Fp.fmaximum (map Fp.Fin xs))))
      (map Fp.Fin xs)
  = map Fp.Fin (map (exponential_value A (maximum xs)) xs).
Proof.
  rewrite (fmaximum_fin Hne), !map_map. apply map_ext_in.
  intros v Hv. now destruct (@lane_exponential v Hv) as [-> _].
Qed.

Lemma lane_exponentials_unit (e : R) :
  In e (map (exponential_value A (maximum xs)) xs) ->
  0 <= e <= 1 /\ Fp.rnd A e = e.
Proof.
  intros He. apply in_map_iff in He. destruct He as (v & <- & Hv).
  now destruct (@lane_exponential v Hv) as (_ & H1 & H2).
Qed.

Lemma lane_exponential_one :
  In 1 (map (exponential_value A (maximum xs)) xs).
Proof.
  apply in_map_iff. exists (maximum xs). split; [|now apply maximum_in].
  unfold exponential_value. now rewrite (exponential_max Hstd).
Qed.

Lemma lane_exponentials_nonempty :
  map (exponential_value A (maximum xs)) xs <> [].
Proof. intros H. apply map_eq_nil in H. contradiction. Qed.

(** The softmax of a lane of finite values. *)
Lemma softmax_lane :
  sum_fits A u eta (length xs) ->
  exists s,
    Fp.fsum A (map Fp.Fin (map (exponential_value A (maximum xs)) xs))
    = Fp.Fin s
    /\ 1 <= s
    /\ (forall v, In v xs ->
          Fp.fdiv A (Fp.Fin (exponential_value A (maximum xs) v)) (Fp.Fin s)
          = Fp.Fin (Fp.rnd A (exponential_value A (maximum xs) v / s))
          /\ 0 <= Fp.rnd A (exponential_value A (maximum xs) v / s) <= 1)
    /\ lower_tolerance u eta (length xs)
       <= total (map (fun v => Fp.rnd A
                                 (exponential_value A (maximum xs) v / s)) xs)
    /\ total (map (fun v => Fp.rnd A
                              (exponential_value A (maximum xs) v / s)) xs)
       <= upper_tolerance u eta (length xs).
Proof.
  intros Hfit.
  assert (Hfit' : sum_fits A u eta
                    (length (map (exponential_value A (maximum xs)) xs)))
    by now rewrite length_map.
  destruct (@lane_is_distribution A u eta Hstd
              (map (exponential_value A (maximum xs)) xs)
              lane_exponentials_unit lane_exponentials_nonempty
              lane_exponential_one Hfit')
    as (s & Es & Hs & Hq & Hlow & Hup).
  rewrite length_map, map_map in Hlow, Hup.
  exists s. split; [exact Es|]. split; [exact Hs|]. split; [|now split].
  intros v Hv. apply Hq. now apply in_map.
Qed.

(** The quotients the code computes along the lane. *)
Lemma softmax_lane_outputs :
  sum_fits A u eta (length xs) ->
  exists s,
    1 <= s
    /\ map (fun v =>
              Fp.fdiv A (Fp.fexp A (Fp.fsub A v (Fp.fmaximum (map Fp.Fin xs))))
                (Fp.fsum A
                   (map (fun w => Fp.fexp A
                                    (Fp.fsub A w (Fp.fmaximum (map Fp.Fin xs))))
                        (map Fp.Fin xs))))
           (map Fp.Fin xs)
       = map (fun v => Fp.Fin (Fp.rnd A
                                 (exponential_value A (maximum xs) v / s))) xs
    /\ (forall v, In v xs ->
          0 <= Fp.rnd A (exponential_value A (maximum xs) v / s) <= 1)
    /\ lower_tolerance u eta (length xs)
       <= total (map (fun v => Fp.rnd A
                                 (exponential_value A (maximum xs) v / s)) xs)
    /\ total (map (fun v => Fp.rnd A
                              (exponential_value A (maximum xs) v / s)) xs)
       <= upper_tolerance u eta (length xs).
Proof.
  intros Hfit.
  destruct (softmax_lane Hfit) as (s & Es & Hs & Hq & Hlow & Hup).
  exists s. split; [exact Hs|]. split; [|split; [|now split]].
  - rewrite lane_exponentials, Es, (fmaximum_fin Hne), map_map.
    apply map_ext_in. intros v Hv.
    destruct (@lane_exponential v Hv) as [-> _].
    now destruct (Hq v Hv) as [-> _].
  - intros v Hv. now destruct (Hq v Hv).
Qed.

(** Where all values of the lane are equal, every exponential is 1. *)
Lemma uniform_lane_exponential (x v : R) :
  (forall w, In w xs -> w = x) -> In v xs ->
  exponential_value A (maximum xs) v = 1.
Proof.
  intros Hall Hv. rewrite (maximum_const Hne Hall), (Hall v Hv).
  unfold exponential_value. now rewrite (exponential_max Hstd).
Qed.

End FpLane.

Section FpSingleton.
Local Open Scope R_scope.

Variable A : Fp.arithmetic.
Variables u eta : R.
Hypothesis Hstd : standard A u eta.

Lemma sched_single (t : Fp.sched) :
  Permutation (Fp.leaves t) [0%nat] -> t = Fp.Leaf 0.
Proof.
  intros H. destruct t as [i|a b].
  - simpl in H. apply Permutation_length_1 in H. now subst.
  - apply Permutation_length in H. simpl in H.
    rewrite length_app, !length_leaves in H. simpl in H. lia.
Qed.

(** The sum of a lane of one element is that element. *)
Lemma fsum_single (e : R) :
  Fp.rnd A e = e -> 0 <= e <= 1 -> Fp.fsum A [Fp.Fin e] = Fp.Fin e.
Proof.
  intros Hr He. unfold Fp.fsum. cbn [length].
  rewrite (@sched_single (Fp.order A 1) (order_perm Hstd (Nat.lt_0_succ 0))).
  cbn [Fp.eval nth Fp.cast].
  rewrite (of_real_unit Hstd He). now rewrite Hr.
Qed.

(** A lane of one finite element: the output is exactly 1. *)
Lemma singleton_lane_output (x : R) :
  Fp.fdiv A (Fp.fexp A (Fp.fsub A (Fp.Fin x) (Fp.fmaximum [Fp.Fin x])))
    (Fp.fsum A
       (map (fun w => Fp.fexp A (Fp.fsub A w (Fp.fmaximum [Fp.Fin x])))
            [Fp.Fin x]))
  = Fp.Fin 1.
Proof.
  cbn [Fp.fmaximum map]. rewrite (exponential_max Hstd).
  rewrite fsum_single by (rewrite ?(rnd_1 Hstd); lra || reflexivity).
  cbn [Fp.fdiv]. destruct (Req_dec_T 1 0) as [H|_]; [lra|].
  replace (1 / 1) with 1 by (unfold Rdiv; rewrite Rinv_1; ring).
  apply (of_real_1 Hstd).
Qed.

End FpSingleton.

(* ================================================================== *)
(** * The generic forward computation in floating point *)

Section FpArrays.

Lemma fp_lane_upd (a : Fp.ndarray) (ax c : nat) (idx : list nat) :
  Fp.lane a ax (upd ax c idx) = Fp.lane a ax idx.
Proof.
  unfold Fp.lane. apply map_ext. intros j. now rewrite upd_upd.
Qed.

Lemma fp_get_reduce (f : list Fp.fp -> Fp.fp) (d : dtype) (a : Fp.ndarray)
      (ax : nat) (idx : list nat) :
  in_bounds (upd ax 1 (Fp.shape a)) idx ->
  Fp.get (Fp.reduce f d a ax) idx = f (Fp.lane a ax idx).
Proof.
  intros H. unfold Fp.get, Fp.reduce. simpl.
  now rewrite nth_tabulate by assumption.
Qed.

Lemma fp_get_tabulated (m : array_module) (d : dtype) (s idx : list nat)
      (f : list nat -> Fp.fp) :
  in_bounds s idx -> Fp.get (Fp.mk_ndarray m d s (tabulate s f)) idx = f idx.
Proof.
  intros H. unfold Fp.get. simpl. now rewrite nth_tabulate by assumption.
Qed.

Lemma fp_lane_tabulated (m : array_module) (d : dtype) (s idx : list nat)
      (f : list nat -> Fp.fp) (ax : nat) :
  in_bounds s idx ->
  Fp.lane (Fp.mk_ndarray m d s (tabulate s f)) ax idx
  = map (fun c => f (upd ax c idx)) (seq 0 (nth ax s 0)).
Proof.
  intros H. unfold Fp.lane. apply map_ext_in. intros c Hc.
  apply in_seq in Hc. simpl in Hc |- *.
  apply fp_get_tabulated, in_bounds_upd; [assumption|lia].
Qed.

Lemma fp_get_in_lane (a : Fp.ndarray) (ax : nat) (idx : list nat) :
  in_bounds (Fp.shape a) idx -> ax < Fp.ndim a ->
  In (Fp.get a idx) (Fp.lane a ax idx).
Proof.
  intros H Hax. unfold Fp.lane. apply in_map_iff.
  exists (nth ax idx 0). split.
  - now rewrite upd_nth_same.
  - apply in_seq. pose proof (in_bounds_nth H Hax). lia.
Qed.

Lemma fp_length_lane (a : Fp.ndarray) (ax : nat) (idx : list nat) :
  length (Fp.lane a ax idx) = nth ax (Fp.shape a) 0.
Proof. unfold Fp.lane. now rewrite length_map, length_seq. Qed.

(** In an array without infinities and NaN every lane is finite. *)
Lemma fp_lane_finite (a : Fp.ndarray) (ax : nat) (idx : list nat) :
  Fp.wf a -> all_finite a -> in_bounds (Fp.shape a) idx ->
  Forall finite (Fp.lane a ax idx).
Proof.
  intros Hwf Hfin Hb. unfold Fp.lane. apply Forall_forall.
  intros v Hv. apply in_map_iff in Hv. destruct Hv as (c & <- & Hc).
  apply in_seq in Hc. unfold Fp.get.
  assert (Hi : in_bounds (Fp.shape a) (upd ax c idx))
    by (apply in_bounds_upd; [assumption|lia]).
  pose proof (ravel_lt Hi) as Hlt.
  unfold all_finite in Hfin. rewrite Forall_forall in Hfin.
  apply Hfin, nth_In. unfold Fp.wf in Hwf. lia.
Qed.

Lemma dtype_eqb_refl (d : dtype) : dtype_eqb d d = true.
Proof. now destruct d. Qed.

End FpArrays.

Section FpForward.

Variable ar : dtype -> Fp.arithmetic.
Variable a : Fp.ndarray.
Variable axis : Z.
Variable ax : nat.
Hypothesis Hax : normalize_axis (Fp.ndim a) axis = Ok ax.
Hypothesis Hpos : 0 < nth ax (Fp.shape a) 0.
Hypothesis Hkind : kind (Fp.dtype_of a) = "f"%char.

Lemma fp_amax_value :
  Fp.amax a axis = Ok (Fp.reduce Fp.fmaximum (Fp.dtype_of a) a ax).
Proof.
  unfold Fp.amax. rewrite Hax. simpl.
  destruct (nth ax (Fp.shape a) 0 =? 0) eqn:E; [|reflexivity].
  apply Nat.eqb_eq in E. lia.
Qed.

Let shifted : Fp.ndarray :=
  Fp.mk_ndarray (Fp.xp_of a) (Fp.dtype_of a) (Fp.shape a)
    (tabulate (Fp.shape a)
       (fun idx => Fp.fsub (ar (Fp.dtype_of a)) (Fp.get a idx)
                           (Fp.fmaximum (Fp.lane a ax idx)))).

Lemma fp_subtract_value :
  Fp.subtract ar a (Fp.reduce Fp.fmaximum (Fp.dtype_of a) a ax) = Ok shifted.
Proof.
  unfold Fp.subtract, Fp.binop. simpl.
  rewrite array_module_eqb_refl, broadcast_keepdims, promote_same.
  unfold shifted, Fp.zip_with. do 2 f_equal.
  apply tabulate_ext. intros idx Hb. simpl.
  rewrite (bidx_same Hb), (bidx_keepdims ax Hb).
  rewrite fp_get_reduce by now apply in_bounds_keepdims.
  now rewrite fp_lane_upd.
Qed.

Lemma fp_float_result : float_result (Fp.dtype_of a) = Fp.dtype_of a.
Proof. unfold float_result. now rewrite Hkind. Qed.

Lemma fp_exp_value :
  Fp.exp_inplace ar (Fp.xp_of a) shifted = Ok (exponentials_fp ar a ax).
Proof.
  unfold Fp.exp_inplace. simpl.
  rewrite array_module_eqb_refl, fp_float_result.
  unfold can_cast. rewrite Hkind. simpl.
  unfold Fp.with_data, exponentials_fp. simpl. rewrite map_tabulate.
  do 2 f_equal. apply tabulate_ext. intros idx Hb.
  unfold Fp.convert. now rewrite dtype_eqb_refl.
Qed.

Lemma fp_sum_value :
  Fp.sum ar (exponentials_fp ar a ax) axis
  = Ok (Fp.reduce (Fp.fsum (ar (Fp.dtype_of a))) (Fp.dtype_of a)
                  (exponentials_fp ar a ax) ax).
Proof.
  unfold Fp.sum. unfold Fp.ndim. simpl.
  fold (Fp.ndim a). rewrite Hax. simpl.
  unfold sum_accumulator. rewrite Hkind. simpl.
  now rewrite promote_same.
Qed.

Lemma fp_lane_exponentials (idx : list nat) :
  in_bounds (Fp.shape a) idx ->
  Fp.lane (exponentials_fp ar a ax) ax idx
  = map (fun v => Fp.fexp (ar (Fp.dtype_of a))
                    (Fp.fsub (ar (Fp.dtype_of a)) v
                             (Fp.fmaximum (Fp.lane a ax idx))))
        (Fp.lane a ax idx).
Proof.
  intros Hb. unfold exponentials_fp. rewrite fp_lane_tabulated by assumption.
  unfold exponential_fp_at.
  transitivity
    (map (fun c => Fp.fexp (ar (Fp.dtype_of a))
                     (Fp.fsub (ar (Fp.dtype_of a)) (Fp.get a (upd ax c idx))
                              (Fp.fmaximum (Fp.lane a ax idx))))
         (seq 0 (nth ax (Fp.shape a) 0))).
  - apply map_ext. intros c. now rewrite fp_lane_upd.
  - generalize (Fp.fmaximum (Fp.lane a ax idx)). intros M.
    unfold Fp.lane. now rewrite map_map.
Qed.

(** Along a lane the output holds the quotients of the exponentials of the
    lane by their sum. *)
Lemma fp_lane_softmax (idx : list nat) :
  in_bounds (Fp.shape a) idx ->
  Fp.lane (softmax_fp ar a ax) ax idx
  = map (fun v =>
           Fp.fdiv (ar (Fp.dtype_of a))
             (Fp.fexp (ar (Fp.dtype_of a))
                (Fp.fsub (ar (Fp.dtype_of a)) v
                         (Fp.fmaximum (Fp.lane a ax idx))))
             (Fp.fsum (ar (Fp.dtype_of a))
                (map (fun w => Fp.fexp (ar (Fp.dtype_of a))
                                 (Fp.fsub (ar (Fp.dtype_of a)) w
                                          (Fp.fmaximum (Fp.lane a ax idx))))
                     (Fp.lane a ax idx))))
        (Fp.lane a ax idx).
Proof.
  intros Hb. unfold softmax_fp. rewrite fp_lane_tabulated by assumption.
  unfold softmax_fp_at.
  transitivity
    (map (fun c =>
            Fp.fdiv (ar (Fp.dtype_of a))
              (Fp.fexp (ar (Fp.dtype_of a))
                 (Fp.fsub (ar (Fp.dtype_of a)) (Fp.get a (upd ax c idx))
                          (Fp.fmaximum (Fp.lane a ax idx))))
              (Fp.fsum (ar (Fp.dtype_of a))
                 (map (fun w => Fp.fexp (ar (Fp.dtype_of a))
                                  (Fp.fsub (ar (Fp.dtype_of a)) w
                                           (Fp.fmaximum (Fp.lane a ax idx))))
                      (Fp.lane a ax idx))))
         (seq 0 (nth ax (Fp.shape a) 0))).
  - apply map_ext. intros c. now rewrite fp_lane_upd.
  - generalize (Fp.fmaximum (Fp.lane a ax idx)). intros M.
    generalize (Fp.fsum (ar (Fp.dtype_of a))
                  (map (fun w => Fp.fexp (ar (Fp.dtype_of a))
                                   (Fp.fsub (ar (Fp.dtype_of a)) w M))
                       (Fp.lane a ax idx))).
    intros S. unfold Fp.lane. now rewrite map_map.
Qed.

Lemma fp_itruediv_value :
  Fp.itruediv ar (exponentials_fp ar a ax)
    (Fp.reduce (Fp.fsum (ar (Fp.dtype_of a))) (Fp.dtype_of a)
               (exponentials_fp ar a ax) ax)
  = Ok (softmax_fp ar a ax).
Proof.
  unfold Fp.itruediv, Fp.inplace. simpl.
  rewrite array_module_eqb_refl, broadcast_keepdims.
  destruct (list_eq_dec Nat.eq_dec (Fp.shape a) (Fp.shape a)) as [_|N];
    [|congruence].
  rewrite promote_same, fp_float_result.
  unfold can_cast. rewrite Hkind. simpl.
  unfold Fp.with_data, softmax_fp, Fp.zip_with. simpl. rewrite map_tabulate.
  do 2 f_equal.
  apply tabulate_ext. intros idx Hb.
  unfold Fp.convert. rewrite dtype_eqb_refl.
  rewrite (bidx_same Hb).
  change (Fp.shape (Fp.reduce (Fp.fsum (ar (Fp.dtype_of a))) (Fp.dtype_of a)
                              (exponentials_fp ar a ax) ax))
    with (upd ax 1 (Fp.shape a)).
  rewrite (bidx_keepdims ax Hb).
  rewrite fp_get_reduce by now apply in_bounds_keepdims.
  rewrite fp_lane_upd, (fp_lane_exponentials Hb).
  unfold exponentials_fp. rewrite fp_get_tabulated by assumption.
  reflexivity.
Qed.

(** The first two statements of the [else] branch leave the exponentials. *)
Lemma forward_exponentials_fp_ok :
  forward_exponentials_fp ar (Fp.xp_of a) a axis
  = Ok (exponentials_fp ar a ax).
Proof.
  unfold forward_exponentials_fp.
  rewrite fp_amax_value. simpl. rewrite fp_subtract_value. simpl.
  apply fp_exp_value.
Qed.

(** The [else] branch computes, at every index, the quotient of the
    exponential by the sum of its lane. *)
Lemma forward_generic_fp_ok :
  forward_generic_fp ar (Fp.xp_of a) a axis = Ok (softmax_fp ar a ax).
Proof.
  unfold forward_generic_fp.
  rewrite fp_amax_value. simpl. rewrite fp_subtract_value. simpl.
  rewrite fp_exp_value. simpl. rewrite fp_sum_value. simpl.
  apply fp_itruediv_value.
Qed.

End FpForward.

(* ================================================================== *)
(** * The output of the floating-point forward computation *)

Section FpOutput.
Local Open Scope R_scope.

Variable ar : dtype -> Fp.arithmetic.
Variables u eta : R.
Variable a : Fp.ndarray.
Variable ax : nat.
Hypothesis Hwf : Fp.wf a.
Hypothesis Hfin : all_finite a.
Hypothesis Hstd : standard (ar (Fp.dtype_of a)) u eta.
Hypothesis Hpos : (0 < nth ax (Fp.shape a) 0)%nat.

Lemma lane_values (idx : list nat) :
  in_bounds (Fp.shape a) idx ->
  Fp.lane a ax idx = map Fp.Fin (map value (Fp.lane a ax idx)).
Proof. intros Hb. now apply finite_values, fp_lane_finite. Qed.

Lemma lane_values_nonempty (idx : list nat) :
  map value (Fp.lane a ax idx) <> [].
Proof.
  intros H. apply (f_equal (@length R)) in H.
  rewrite length_map, fp_length_lane in H. simpl in H. lia.
Qed.

Lemma length_lane_values (idx : list nat) :
  length (map value (Fp.lane a ax idx)) = nth ax (Fp.shape a) 0%nat.
Proof. now rewrite length_map, fp_length_lane. Qed.

(** A lane of the output, in terms of the numbers of the lane of the
    input. *)
Lemma output_lane (idx : list nat) :
  in_bounds (Fp.shape a) idx ->
  sum_fits (ar (Fp.dtype_of a)) u eta (nth ax (Fp.shape a) 0%nat) ->
  exists s,
    1 <= s
    /\ Fp.lane (softmax_fp ar a ax) ax idx
       = map (fun v =>
                Fp.Fin (Fp.rnd (ar (Fp.dtype_of a))
                          (exponential_value (ar (Fp.dtype_of a))
                             (maximum (map value (Fp.lane a ax idx))) v / s)))
             (map value (Fp.lane a ax idx))
    /\ (forall v, In v (map value (Fp.lane a ax idx)) ->
          0 <= Fp.rnd (ar (Fp.dtype_of a))
                 (exponential_value (ar (Fp.dtype_of a))
                    (maximum (map value (Fp.lane a ax idx))) v / s) <= 1)
    /\ lower_tolerance u eta (nth ax (Fp.shape a) 0%nat)
       <= total (map value (Fp.lane (softmax_fp ar a ax) ax idx))
    /\ total (map value (Fp.lane (softmax_fp ar a ax) ax idx))
       <= upper_tolerance u eta (nth ax (Fp.shape a) 0%nat).
Proof.
  intros Hb Hfit.
  rewrite (fp_lane_softmax ar a ax Hb).
  pose proof (lane_values Hb) as HL.
  pose proof (lane_values_nonempty idx) as Hne.
  pose proof (length_lane_values idx) as Hlen.
  remember (map value (Fp.lane a ax idx)) as xs eqn:Exs.
  rewrite HL. rewrite <- Hlen in Hfit |- *.
  destruct (softmax_lane_outputs Hstd Hne Hfit)
    as (s & Hs & Hout & Hunit & Hlow & Hup).
  exists s. split; [exact Hs|]. split; [exact Hout|]. split; [exact Hunit|].
  rewrite Hout, map_map. cbn [value]. now split.
Qed.

End FpOutput.

(* ================================================================== *)
(** * The example arithmetics *)

Section ExampleArithmetics.
Local Open Scope R_scope.

Lemma exp_le_1 (v : R) : v <= 0 -> exp v <= 1.
Proof.
  intros H. destruct (Req_dec v 0) as [->|Hn].
  - rewrite exp_0. lra.
  - rewrite <- exp_0. left. apply exp_increasing. lra.
Qed.

Lemma leaves_left_to_right (n : nat) :
  Fp.leaves (Example.left_to_right (S n)) = seq 0 (S n).
Proof.
  induction n as [|n IH]; [reflexivity|].
  change (Example.left_to_right (S (S n)))
    with (Fp.Plus (Example.left_to_right (S n)) (Fp.Leaf (S n))).
  cbn [Fp.leaves]. rewrite IH. now rewrite (seq_S (S n) 0).
Qed.

Lemma left_to_right_perm (n : nat) :
  (0 < n)%nat -> Permutation (Fp.leaves (Example.left_to_right n)) (seq 0 n).
Proof.
  destruct n as [|n]; [lia|intros _].
  rewrite leaves_left_to_right. apply Permutation_refl.
Qed.

Lemma ideal_standard : standard Example.ideal 0 0.
Proof.
  constructor; simpl; try lra; try reflexivity.
  - intros r s H. exact H.
  - intros r. replace (r - r) with 0 by ring. rewrite Rabs_R0. lra.
  - intros r s H. exact H.
  - intros r. replace (r - r) with 0 by ring. rewrite Rabs_R0. lra.
  - apply exp_0.
  - intros r H. split; [left; apply exp_pos|now apply exp_le_1].
  - apply left_to_right_perm.
Qed.

Lemma Int_part_mono (r s : R) : r <= s -> (Int_part r <= Int_part s)%Z.
Proof.
  intros H. destruct (base_Int_part r) as [Hr _].
  destruct (base_Int_part s) as [_ Hs].
  assert (IZR (Int_part r) < IZR (Int_part s + 1)).
  { rewrite plus_IZR. lra. }
  apply lt_IZR in H0. lia.
Qed.

Lemma Int_part_half (k : Z) : Int_part (IZR k + / 2) = k.
Proof. symmetry. apply Int_part_spec. lra. Qed.

Lemma nearest_mono (r s : R) :
  r <= s -> Example.nearest r <= Example.nearest s.
Proof.
  intros H. unfold Example.nearest, Rdiv.
  apply Rmult_le_compat_r; [lra|].
  apply IZR_le, Int_part_mono. lra.
Qed.

Lemma nearest_multiple (k : Z) :
  Example.nearest (IZR k / 1024) = IZR k / 1024.
Proof.
  unfold Example.nearest.
  replace (IZR k / 1024 * 1024) with (IZR k) by (unfold Rdiv; field).
  now rewrite Int_part_half.
Qed.

Lemma nearest_idem (r : R) :
  Example.nearest (Example.nearest r) = Example.nearest r.
Proof. unfold Example.nearest at 2 3. apply nearest_multiple. Qed.

Lemma nearest_integer (k : Z) : Example.nearest (IZR k) = IZR k.
Proof.
  replace (IZR k) with (IZR (k * 1024) / 1024) at 1 2
    by (rewrite mult_IZR; unfold Rdiv; field).
  apply nearest_multiple.
Qed.

Lemma nearest_err (r : R) :
  Rabs (Example.nearest r - r) <= 0 * Rabs r + / 2048.
Proof.
  unfold Example.nearest.
  destruct (base_Int_part (r * 1024 + / 2)) as [H1 H2].
  set (k := IZR (Int_part (r * 1024 + / 2))) in *.
  apply Rabs_le. split; unfold Rdiv; lra.
Qed.

(** Adding two integers is exact in the fixed-point arithmetic. *)
Lemma fixed_adds_integers (j k : Z) :
  (- 65504 <= j + k <= 65504)%Z ->
  Fp.fadd Example.fixed (Fp.Fin (IZR j)) (Fp.Fin (IZR k))
  = Fp.Fin (IZR j + IZR k).
Proof.
  intros H. cbn [Fp.fadd]. unfold Fp.of_real. cbn [Fp.rnd Fp.fmax Example.fixed].
  rewrite <- plus_IZR, nearest_integer. apply in_range_fin.
  split; [rewrite <- opp_IZR|]; apply IZR_le; lia.
Qed.

Lemma fixed_standard : standard Example.fixed 0 (/ 2048).
Proof.
  constructor; simpl; try lra.
  - apply nearest_mono.
  - apply nearest_idem.
  - apply (nearest_integer 0).
  - apply (nearest_integer 1).
  - apply nearest_err.
  - apply nearest_mono.
  - apply nearest_idem.
  - apply nearest_idem.
  - apply nearest_err.
  - apply exp_0.
  - intros r H. split; [left; apply exp_pos|now apply exp_le_1].
  - apply left_to_right_perm.
Qed.

End ExampleArithmetics.

(* ================================================================== *)
(** * Adding a scalar to the input *)

Section FpShift.
Local Open Scope R_scope.

Variable ar : dtype -> Fp.arithmetic.
Variable a : Fp.ndarray.
Variable c : R.
Variable ax : nat.
Hypothesis Hwf : Fp.wf a.
Hypothesis Hexact : adds_exactly ar a c.

Lemma fsub_shift (A : Fp.arithmetic) (x m : R) :
  Fp.fsub A (Fp.Fin (x + c)) (Fp.Fin (m + c))
  = Fp.fsub A (Fp.Fin x) (Fp.Fin m).
Proof.
  cbn [Fp.fsub]. f_equal. ring.
Qed.

Lemma exact_get (idx : list nat) :
  in_bounds (Fp.shape a) idx ->
  Fp.get a idx = Fp.Fin (value (Fp.get a idx))
  /\ Fp.get (add_to_elements ar a (Fp.Fin c)) idx
     = Fp.Fin (value (Fp.get a idx) + c).
Proof.
  intros Hb. pose proof (ravel_lt Hb) as Hlt.
  unfold Fp.wf in Hwf. unfold adds_exactly in Hexact.
  rewrite Forall_forall in Hexact.
  assert (Hin : In (Fp.get a idx) (Fp.data a))
    by (apply nth_In; lia).
  destruct (Hexact _ Hin) as (r & E & Hadd).
  split; [now rewrite E|].
  unfold Fp.get, add_to_elements, Fp.with_data. cbn [Fp.shape Fp.data].
  rewrite (nth_indep _ Fp.NaN
             (Fp.fadd (ar (Fp.dtype_of a)) Fp.NaN (Fp.Fin c)))
    by (rewrite length_map; lia).
  rewrite (map_nth (fun v => Fp.fadd (ar (Fp.dtype_of a)) v (Fp.Fin c))).
  fold (Fp.get a idx). rewrite E in Hadd |- *. exact Hadd.
Qed.

Lemma exact_lane (idx : list nat) :
  in_bounds (Fp.shape a) idx ->
  Fp.lane a ax idx = map Fp.Fin (map value (Fp.lane a ax idx))
  /\ Fp.lane (add_to_elements ar a (Fp.Fin c)) ax idx
     = map Fp.Fin (map (fun v => v + c) (map value (Fp.lane a ax idx))).
Proof.
  intros Hb. unfold Fp.lane. cbn [add_to_elements Fp.with_data Fp.shape].
  rewrite !map_map. split; apply map_ext_in; intros j Hj; apply in_seq in Hj;
    apply exact_get, in_bounds_upd; (assumption || lia).
Qed.

Lemma shifted_quotient (A : Fp.arithmetic) (xs : list R) (x : R) :
  xs <> [] ->
  Fp.fdiv A
    (Fp.fexp A (Fp.fsub A (Fp.Fin (x + c))
                  (Fp.fmaximum (map Fp.Fin (map (fun v => v + c) xs)))))
    (Fp.fsum A
       (map (fun w => Fp.fexp A
                        (Fp.fsub A w
                           (Fp.fmaximum
                              (map Fp.Fin (map (fun v => v + c) xs)))))
            (map Fp.Fin (map (fun v => v + c) xs))))
  = Fp.fdiv A
      (Fp.fexp A (Fp.fsub A (Fp.Fin x) (Fp.fmaximum (map Fp.Fin xs))))
      (Fp.fsum A
         (map (fun w => Fp.fexp A (Fp.fsub A w (Fp.fmaximum (map Fp.Fin xs))))
              (map Fp.Fin xs))).
Proof.
  intros Hne.
  assert (Hne' : map (fun v => v + c) xs <> [])
    by (intros H; apply map_eq_nil in H; contradiction).
  rewrite (fmaximum_fin Hne), (fmaximum_fin Hne'), (maximum_shift c Hne).
  rewrite fsub_shift. f_equal. f_equal.
  rewrite !map_map. apply map_ext. intros v. now rewrite fsub_shift.
Qed.

(** At every index the quotient is the one of the input itself. *)
Lemma softmax_fp_at_shift (idx : list nat) :
  in_bounds (Fp.shape a) idx -> (0 < nth ax (Fp.shape a) 0)%nat ->
  softmax_fp_at ar (add_to_elements ar a (Fp.Fin c)) ax idx
  = softmax_fp_at ar a ax idx.
Proof.
  intros Hb Hpos.
  destruct (exact_lane Hb) as [HL HL'].
  destruct (exact_get Hb) as [HG HG'].
  assert (Hne : map value (Fp.lane a ax idx) <> []).
  { intros H. apply (f_equal (@length R)) in H.
    rewrite length_map, fp_length_lane in H. simpl in H. lia. }
  remember (map value (Fp.lane a ax idx)) as xs eqn:Exs.
  remember (value (Fp.get a idx)) as x eqn:Ex.
  unfold softmax_fp_at.
  change (Fp.dtype_of (add_to_elements ar a (Fp.Fin c)))
    with (Fp.dtype_of a).
  rewrite HL', HG', HL, HG.
  now apply shifted_quotient.
Qed.

End FpShift.

(* ================================================================== *)
(** * The claims *)

(** C1 (as amended). For every valid input array (rank at least 2,
    floating dtype) without infinities and NaN and every valid axis, in an
    arithmetic with the guarantees of IEEE 754 and an axis short enough for
    the sum of its exponentials to stay in range, the [else] branch of
    [forward] returns an array of the shape and dtype of the input whose
    elements are finite numbers in [0, 1]; along the axis their exact sum
    lies between [lower_tolerance] and [upper_tolerance], the rounding error
    of the additions and of the division around 1. *)
Theorem C1_forward_is_distribution (ar : dtype -> Fp.arithmetic)
        (u eta : R) (a : Fp.ndarray) (axis : Z) :
  valid_input_fp a ->
  valid_axis_fp axis a ->
  all_finite a ->
  standard (ar (Fp.dtype_of a)) u eta ->
  sum_fits (ar (Fp.dtype_of a)) u eta (nth (Z.to_nat axis) (Fp.shape a) 0) ->
  exists out,
    forward_generic_fp ar (Fp.xp_of a) a axis = Ok out
    /\ Fp.shape out = Fp.shape a
    /\ Fp.dtype_of out = Fp.dtype_of a
    /\ forall idx, in_bounds (Fp.shape a) idx ->
         (exists r, Fp.get out idx = Fp.Fin r /\ (0 <= r <= 1)%R)
         /\ Forall finite (Fp.lane out (Z.to_nat axis) idx)
         /\ (lower_tolerance u eta (nth (Z.to_nat axis) (Fp.shape a) 0%nat)
             <= total (map value (Fp.lane out (Z.to_nat axis) idx))
             <= upper_tolerance u eta
                  (nth (Z.to_nat axis) (Fp.shape a) 0%nat))%R.
Proof.
  intros (Hwf & Hnd & Hkind & Hdims) Hax Hfin Hstd Hfit.
  set (ax := Z.to_nat axis) in *.
  assert (Hnorm : normalize_axis (Fp.ndim a) axis = Ok ax)
    by (apply normalize_axis_valid; exact Hax).
  assert (Hlt : ax < Fp.ndim a) by (unfold valid_axis_fp in Hax; subst ax; lia).
  pose proof (Forall_nth_pos Hdims Hlt) as Hpos.
  exists (softmax_fp ar a ax).
  split; [now apply forward_generic_fp_ok|].
  split; [reflexivity|]. split; [reflexivity|].
  intros idx Hb.
  destruct (@output_lane ar u eta a ax Hwf Hfin Hstd Hpos idx Hb Hfit)
    as (s & Hs & Hout & Hunit & Hlow & Hup).
  split; [|split; [|now split]].
  - pose proof (@fp_get_in_lane (softmax_fp ar a ax) ax idx Hb Hlt) as Hin.
    rewrite Hout in Hin. apply in_map_iff in Hin.
    destruct Hin as (v & Ev & Hv).
    eexists. split; [symmetry; exact Ev|]. now apply Hunit.
  - rewrite Hout. apply Forall_forall. intros w Hw.
    apply in_map_iff in Hw. destruct Hw as (v & <- & _). exact I.
Qed.

Lemma C1_forward_is_distribution_witness :
  exists out,
    forward_generic_fp (Example.everywhere Example.fixed) numpy Example.x_fp 1
    = Ok out
    /\ Fp.shape out = [2; 3]
    /\ Fp.dtype_of out = float32
    /\ forall idx, in_bounds [2; 3] idx ->
         (exists r, Fp.get out idx = Fp.Fin r /\ (0 <= r <= 1)%R)
         /\ Forall finite (Fp.lane out 1 idx)
         /\ (lower_tolerance 0 (/ 2048) 3
             <= total (map value (Fp.lane out 1 idx))
             <= upper_tolerance 0 (/ 2048) 3)%R.
Proof.
  apply (@C1_forward_is_distribution (Example.everywhere Example.fixed)
           0%R (/ 2048)%R Example.x_fp 1%Z).
  - split; [reflexivity|]. split; [unfold Fp.ndim; simpl; lia|].
    split; [reflexivity|]. repeat constructor.
  - unfold valid_axis_fp, Fp.ndim. simpl. lia.
  - repeat constructor.
  - apply fixed_standard.
  - unfold sum_fits. simpl. lra.
Defined.

(** C1, as stated, fails: the input [[inf, 0], [1, 2]] is a valid input
    (rank 2, float32), yet along axis 1 the first element of the output is
    NaN, in every arithmetic: the maximum of the first row is the infinity,
    and the infinity minus itself is NaN. *)
Lemma C1_counterexample :
  valid_input_fp Example.with_infinity
  /\ valid_axis_fp 1 Example.with_infinity
  /\ forall ar,
       exists out,
         forward_generic_fp ar numpy Example.with_infinity 1 = Ok out
         /\ Fp.get out [0; 0] = Fp.NaN.
Proof.
  split.
  { split; [reflexivity|]. split; [unfold Fp.ndim; simpl; lia|].
    split; [reflexivity|]. repeat constructor. }
  split; [unfold valid_axis_fp, Fp.ndim; simpl; lia|].
  intros ar. exists (softmax_fp ar Example.with_infinity 1).
  split.
  - apply (@forward_generic_fp_ok ar Example.with_infinity 1%Z 1);
      [reflexivity|simpl; lia|reflexivity].
  - unfold softmax_fp. rewrite fp_get_tabulated by (repeat constructor; lia).
    reflexivity.
Qed.

(** C2 (as amended). For the memoized output [y] and an upstream gradient
    [gy] of the same shape, the generic [backward] computes the product
    [y * gy], its sum along the axis kept as size 1, and subtracts [y]
    times that sum; elementwise this is the vector-Jacobian product
    [y_i * (gy_i - sum_j y_j * gy_j)]. The result has the shape of [y]; its
    dtype is the promotion of the dtypes of [y] and [gy], which is the
    dtype of [y] when [gy] has it. *)
Theorem C2_backward_is_vjp (g : cuda) (st : state) (r yr gr : ref)
        (rest : list ref) (a ya ga : ndarray) :
  nth_error (heap st) r = Some a ->
  takes_cudnn g (self st) (xp_of a) (dtype_of a) = false ->
  y (self st) = Some yr ->
  nth_error (heap st) yr = Some ya ->
  nth_error (heap st) gr = Some ga ->
  kind (dtype_of ya) = "f"%char ->
  valid_axis (axis (self st)) ya ->
  shape ga = shape ya ->
  xp_of ga = xp_of ya ->
  exists out,
    outcome (backward g [r] (gr :: rest) st) = Ok out
    /\ generic_backward_value ya ga (axis (self st)) = Ok out
    /\ shape out = shape ya
    /\ dtype_of out = promote (dtype_of ya) (dtype_of ga)
    /\ (dtype_of ga = dtype_of ya -> dtype_of out = dtype_of ya)
    /\ forall idx, in_bounds (shape ya) idx ->
         get out idx = backward_at ya ga (Z.to_nat (axis (self st))) idx
         /\ get out idx = vjp_at ya ga (Z.to_nat (axis (self st))) idx.
Proof.
  intros Hr Hgen Hy Hya Hga Hkind Hax Hshape Hxp.
  pose proof (@generic_backward_value_ok ya ga (axis (self st)) _ Hshape Hxp
                (valid_axis_normalize Hax) Hkind) as Hval.
  exists (backward_of ya ga (Z.to_nat (axis (self st)))).
  rewrite (backward_single g st r (gr :: rest) Hr), Hgen.
  rewrite (@backward_generic_run st yr gr rest ya ga _ Hy Hya Hga Hval).
  unfold outcome. cbn [fst snd heap]. rewrite nth_error_snoc.
  split; [reflexivity|]. split; [exact Hval|].
  split; [reflexivity|]. split; [reflexivity|]. split.
  - intros E. simpl. rewrite E. apply promote_same.
  - intros idx Hb. rewrite <- backward_at_vjp.
    unfold backward_of. rewrite get_tabulated by assumption. now split.
Qed.

Lemma C2_backward_is_vjp_witness :
  exists out,
    outcome (backward Example.host [0] [2]
                      (Example.with_gradient Example.ones32)) = Ok out
    /\ generic_backward_value (softmax_of Example.x 1) Example.ones32 1
       = Ok out
    /\ shape out = [2; 3]
    /\ dtype_of out = float32
    /\ (float32 = float32 -> dtype_of out = float32)
    /\ forall idx, in_bounds [2; 3] idx ->
         get out idx
         = backward_at (softmax_of Example.x 1) Example.ones32 1 idx
         /\ get out idx
            = vjp_at (softmax_of Example.x 1) Example.ones32 1 idx.
Proof.
  apply (@C2_backward_is_vjp Example.host
           (Example.with_gradient Example.ones32) 0 1 2 []
           Example.x (softmax_of Example.x 1) Example.ones32).
  - reflexivity.
  - reflexivity.
  - vm_compute. reflexivity.
  - vm_compute. reflexivity.
  - vm_compute. reflexivity.
  - reflexivity.
  - unfold valid_axis, ndim. simpl. lia.
  - reflexivity.
  - reflexivity.
Defined.

(** C2, as stated, fails: for a single-precision output and a
    double-precision upstream gradient of the same shape, the result is in
    double precision, not in the dtype of the output. *)
Lemma C2_counterexample :
  exists y0 gy out,
    nth_error (heap (Example.with_gradient Example.ones64)) 1 = Some y0
    /\ y (self (Example.with_gradient Example.ones64)) = Some 1
    /\ nth_error (heap (Example.with_gradient Example.ones64)) 2 = Some gy
    /\ shape gy = shape y0
    /\ outcome (backward Example.host [0] [2]
                         (Example.with_gradient Example.ones64)) = Ok out
    /\ dtype_of y0 = float32
    /\ dtype_of out = float64.
Proof.
  exists (softmax_of Example.x 1), Example.ones64,
    (backward_of (softmax_of Example.x 1) Example.ones64 1).
  repeat split; vm_compute; reflexivity.
Qed.

(** C3. The specialized backend is chosen if and only if the array is on
    the accelerator, the library is available, the configuration permits it
    and either the library version reaches the threshold (3000) or the
    dtype is not half precision; otherwise the generic backend is chosen.
    [forward] and [backward] both apply this rule, each on its own. *)
Theorem C3_backend_selection (g : cuda) (st : state) (r : ref) (a : ndarray)
        (gy : list ref) :
  nth_error (heap st) r = Some a ->
  let chosen :=
    select_backend_spec (negb (array_module_eqb (xp_of a) numpy))
                        (cudnn_enabled g) (use_cudnn (self st))
                        (3000 <=? _cudnn_version g)%Z
                        (dtype_eqb (dtype_of a) float16) in
  forward g [r] st
  = match chosen with
    | Specialized => forward_cudnn g [a] st
    | Generic => forward_generic [a] st
    end
  /\ backward g [r] gy st
     = match chosen with
       | Specialized => backward_cudnn g [a] gy st
       | Generic => backward_generic gy st
       end
  /\ (chosen = Specialized <->
      xp_of a = cupy /\ cudnn_enabled g = true /\ use_cudnn (self st) = true
      /\ ((3000 <= _cudnn_version g)%Z \/ dtype_of a <> float16)).
Proof.
  intros Hr chosen.
  assert (Hc : chosen = if takes_cudnn g (self st) (xp_of a) (dtype_of a)
                        then Specialized else Generic) by reflexivity.
  rewrite (forward_single g st r Hr), (backward_single g st r gy Hr), Hc.
  split; [|split].
  - now destruct (takes_cudnn g (self st) (xp_of a) (dtype_of a)).
  - now destruct (takes_cudnn g (self st) (xp_of a) (dtype_of a)).
  - unfold takes_cudnn.
    destruct (xp_of a), (cudnn_enabled g), (use_cudnn (self st));
      cbn [array_module_eqb negb andb];
      try (split; [discriminate|intros (? & ? & ? & ?); discriminate]).
    destruct (3000 <=? _cudnn_version g)%Z eqn:Ev;
      destruct (dtype_eqb (dtype_of a) float16) eqn:Ed;
      cbn [orb negb]; split; intros H; try discriminate;
      try reflexivity.
    + repeat split. left. now apply Z.leb_le.
    + repeat split. left. now apply Z.leb_le.
    + destruct H as (_ & _ & _ & [H|H]).
      * apply Z.leb_le in H. congruence.
      * apply dtype_eqb_eq in Ed. contradiction.
    + repeat split. right. intros E. apply dtype_eqb_eq in E. congruence.
Qed.

Lemma C3_backend_selection_witness :
  forward Example.device [0] (mk_state [Example.x_gpu] (init true 1))
  = forward_cudnn Example.device [Example.x_gpu]
                  (mk_state [Example.x_gpu] (init true 1))
  /\ backward Example.device [0] [0]
              (mk_state [Example.x_gpu] (init true 1))
     = backward_cudnn Example.device [Example.x_gpu] [0]
                      (mk_state [Example.x_gpu] (init true 1))
  /\ (Specialized = Specialized <->
      cupy = cupy /\ true = true /\ true = true
      /\ ((3000 <= 4000)%Z \/ float32 <> float16)).
Proof.
  exact (@C3_backend_selection Example.device
           (mk_state [Example.x_gpu] (init true 1)) 0 Example.x_gpu [0]
           eq_refl).
Defined.

(** C4 (as amended). A forward call is checked before anything is computed
    or allocated: it fails with the dtype error when the dtype is not of
    the floating-point kind; otherwise with the shape error when the rank
    is below 2; otherwise with the axis error when the axis is at least the
    rank. A rejected call leaves the arrays and the function object as they
    were. Any axis below the rank, negative ones included, passes the
    check, and the call then is the call of [forward]. *)
Theorem C4_validation (g : cuda) (st : state) (r : ref) (a : ndarray) :
  nth_error (heap st) r = Some a ->
  (kind (dtype_of a) <> "f"%char ->
   call g [r] st = (st, Raise (InvalidType ExpectKind)))
  /\ (kind (dtype_of a) = "f"%char -> ndim a < 2 ->
      call g [r] st = (st, Raise (InvalidType ExpectNdim)))
  /\ (kind (dtype_of a) = "f"%char -> 2 <= ndim a ->
      (Z.of_nat (ndim a) <= axis (self st))%Z ->
      call g [r] st = (st, Raise (InvalidType ExpectAxis)))
  /\ (kind (dtype_of a) = "f"%char -> 2 <= ndim a ->
      (axis (self st) < Z.of_nat (ndim a))%Z ->
      call g [r] st = forward g [r] st).
Proof.
  intros Hr. rewrite (call_single g st r Hr), check_type_forward_single.
  repeat split.
  - intros Hk. destruct (Ascii.eqb_spec (kind (dtype_of a)) "f");
      [contradiction|reflexivity].
  - intros Hk Hn. rewrite Hk. cbn [Ascii.eqb Bool.eqb].
    destruct (Nat.ltb_spec 1 (ndim a)); [lia|reflexivity].
  - intros Hk Hn Hax. rewrite Hk. cbn [Ascii.eqb Bool.eqb].
    destruct (Nat.ltb_spec 1 (ndim a)); [|lia].
    destruct (Z.ltb_spec (axis (self st)) (Z.of_nat (ndim a)));
      [lia|reflexivity].
  - intros Hk Hn Hax. rewrite Hk. cbn [Ascii.eqb Bool.eqb].
    destruct (Nat.ltb_spec 1 (ndim a)); [|lia].
    destruct (Z.ltb_spec (axis (self st)) (Z.of_nat (ndim a)));
      [reflexivity|lia].
Qed.

Lemma C4_validation_witness :
  call Example.host [0] (Example.fresh 5)
  = (Example.fresh 5, Raise (InvalidType ExpectAxis))
  /\ call Example.host [0] (Example.fresh (-1))
     = forward Example.host [0] (Example.fresh (-1)).
Proof.
  split.
  - destruct (@C4_validation Example.host (Example.fresh 5) 0 Example.x
                             eq_refl) as (_ & _ & H & _).
    apply H; [reflexivity|unfold ndim; simpl; lia|unfold ndim; simpl; lia].
  - destruct (@C4_validation Example.host (Example.fresh (-1)) 0 Example.x
                             eq_refl) as (_ & _ & _ & H).
    apply H; [reflexivity|unfold ndim; simpl; lia|unfold ndim; simpl; lia].
Defined.

(** C4, as stated, fails: the axis -1 is outside [0, rank) of a rank-2
    input, yet the call passes the check and returns the output. *)
Lemma C4_counterexample :
  ~ valid_axis (-1) Example.x
  /\ snd (call Example.host [0] (Example.fresh (-1))) = Ok 1.
Proof.
  split.
  - unfold valid_axis. lia.
  - vm_compute. reflexivity.
Qed.

(** C5 (as amended). Before any forward call, [backward] raises instead of
    returning, and on the generic backend it raises the error of the
    missing [self.y] and changes nothing. A second forward call on the
    same instance does not raise: on a valid input it computes the output
    again, in a new object that replaces the one in [self.y]. *)
Theorem C5_lifecycle (g : cuda) (st : state) (r : ref) (a : ndarray)
        (gy : list ref) :
  nth_error (heap st) r = Some a ->
  (y (self st) = None ->
   (forall p, snd (backward g [r] gy st) <> Ok p)
   /\ (takes_cudnn g (self st) (xp_of a) (dtype_of a) = false ->
       backward g [r] gy st = (st, Raise AttributeError)))
  /\ (valid_input a -> valid_axis (axis (self st)) a ->
      backend_known g (self st) a ->
      let st1 := fst (forward g [r] st) in
      snd (forward g [r] st) = Ok (length (heap st))
      /\ forward g [r] st1
         = (mk_state (heap st1 ++ [softmax_of a (Z.to_nat (axis (self st)))])
                     (remember (self st) (S (length (heap st)))),
            Ok (S (length (heap st))))).
Proof.
  intros Hr. split.
  - intros Hy. split.
    + intros p. now apply backward_needs_y.
    + intros Hgen. rewrite (backward_single g st r gy Hr), Hgen.
      now apply backward_generic_without_y.
  - intros Hv Hax Hb st1. subst st1.
    rewrite (@forward_run g st r a Hr Hv Hax Hb). cbn [fst snd].
    split; [reflexivity|].
    rewrite (@forward_run g _ r a).
    + cbn [heap self axis remember]. rewrite length_app. simpl length.
      rewrite Nat.add_1_r. reflexivity.
    + cbn [heap]. now apply nth_error_app_old.
    + exact Hv.
    + exact Hax.
    + exact Hb.
Qed.

Lemma C5_lifecycle_witness :
  backward Example.host [0] [0] (Example.fresh 1)
  = (Example.fresh 1, Raise AttributeError)
  /\ snd (forward Example.host [0] Example.forwarded) = Ok 2.
Proof.
  destruct (@C5_lifecycle Example.host (Example.fresh 1) 0 Example.x [0]
                          eq_refl) as [Hb Hf].
  split.
  - apply Hb; reflexivity.
  - destruct Hf as [_ Hf].
    + split; [reflexivity|]. split; [unfold ndim; simpl; lia|].
      split; [reflexivity|]. repeat constructor.
    + unfold valid_axis, ndim. simpl. lia.
    + left. reflexivity.
    + exact (f_equal snd Hf).
Defined.

(** C5, as stated, fails: the second forward call on the same instance
    returns an output instead of raising. *)
Lemma C5_counterexample :
  snd (forward Example.host [0] (Example.fresh 1)) = Ok 1
  /\ snd (forward Example.host [0] Example.forwarded) = Ok 2
  /\ snd (call Example.host [0] Example.forwarded) = Ok 2.
Proof. repeat split; vm_compute; reflexivity. Qed.

(** C6 (as amended). For every valid input, valid axis and finite scalar
    [c] such that adding [c] to each element of the input is exact (the
    elements are finite and the addition neither rounds nor overflows), the
    [else] branch of [forward] returns for the input with [c] added to
    every element the very array it returns for the input. *)
Theorem C6_shift_invariance (ar : dtype -> Fp.arithmetic) (a : Fp.ndarray)
        (axis : Z) (c : R) :
  valid_input_fp a ->
  valid_axis_fp axis a ->
  adds_exactly ar a c ->
  exists out,
    forward_generic_fp ar (Fp.xp_of a) a axis = Ok out
    /\ forward_generic_fp ar (Fp.xp_of a) (add_to_elements ar a (Fp.Fin c))
                          axis
       = Ok out.
Proof.
  intros (Hwf & Hnd & Hkind & Hdims) Hax Hexact.
  set (ax := Z.to_nat axis).
  assert (Hnorm : normalize_axis (Fp.ndim a) axis = Ok ax)
    by (apply normalize_axis_valid; exact Hax).
  assert (Hlt : ax < Fp.ndim a) by (unfold valid_axis_fp in Hax; subst ax; lia).
  pose proof (Forall_nth_pos Hdims Hlt) as Hpos.
  exists (softmax_fp ar a ax).
  split; [now apply forward_generic_fp_ok|].
  change (Fp.xp_of a) with (Fp.xp_of (add_to_elements ar a (Fp.Fin c))).
  rewrite (@forward_generic_fp_ok ar (add_to_elements ar a (Fp.Fin c))
             axis ax Hnorm Hpos Hkind).
  f_equal. unfold softmax_fp.
  cbn [add_to_elements Fp.with_data Fp.xp_of Fp.dtype_of Fp.shape].
  f_equal. apply tabulate_ext. intros idx Hb.
  now apply softmax_fp_at_shift.
Qed.

Lemma C6_shift_invariance_witness :
  exists out,
    forward_generic_fp (Example.everywhere Example.fixed) numpy
                       Example.x_fp 1 = Ok out
    /\ forward_generic_fp (Example.everywhere Example.fixed) numpy
         (add_to_elements (Example.everywhere Example.fixed) Example.x_fp
                          (Fp.Fin 10)) 1
       = Ok out.
Proof.
  apply (@C6_shift_invariance (Example.everywhere Example.fixed)
           Example.x_fp 1%Z 10%R).
  - split; [reflexivity|]. split; [unfold Fp.ndim; simpl; lia|].
    split; [reflexivity|]. repeat constructor.
  - unfold valid_axis_fp, Fp.ndim. simpl. lia.
  - unfold adds_exactly. simpl.
    repeat (constructor;
            [eexists; split; [reflexivity|];
             apply (fixed_adds_integers _ 10); lia|]).
    constructor.
Defined.

(** C6, as stated, fails. With the scalar [c = inf] every element of
    [x + c] is the infinity, and the output for [x + c] is NaN where the
    output for [x], the input of the docstring, is a number, in every
    arithmetic of IEEE 754. A finite scalar does the same when the sum
    overflows: in half precision 65504 + 65504 is the infinity, so for the
    input [[65504, 0], [0, 0]] and [c = 65504] the first output is NaN
    again, where the output for the input itself is a number. *)
Lemma C6_counterexample :
  (valid_input_fp Example.x_fp
   /\ valid_axis_fp 1 Example.x_fp
   /\ forall ar u eta,
        standard (ar float32) u eta -> sum_fits (ar float32) u eta 3 ->
        exists o1 o2,
          forward_generic_fp ar numpy Example.x_fp 1 = Ok o1
          /\ forward_generic_fp ar numpy
               (add_to_elements ar Example.x_fp (Fp.Inf false)) 1 = Ok o2
          /\ (exists r, Fp.get o1 [0; 0] = Fp.Fin r)
          /\ Fp.get o2 [0; 0] = Fp.NaN)
  /\ (valid_input_fp Example.half_top
      /\ valid_axis_fp 1 Example.half_top
      /\ exists o1 o2,
           forward_generic_fp (Example.everywhere Example.ideal) numpy
                              Example.half_top 1 = Ok o1
           /\ forward_generic_fp (Example.everywhere Example.ideal) numpy
                (add_to_elements (Example.everywhere Example.ideal)
                                 Example.half_top (Fp.Fin 65504)) 1 = Ok o2
           /\ (exists r, Fp.get o1 [0; 0] = Fp.Fin r)
           /\ Fp.get o2 [0; 0] = Fp.NaN).
Proof.
  split.
  - assert (Hv : valid_input_fp Example.x_fp).
    { split; [reflexivity|]. split; [unfold Fp.ndim; simpl; lia|].
      split; [reflexivity|]. repeat constructor. }
    assert (Hax : valid_axis_fp 1 Example.x_fp)
      by (unfold valid_axis_fp, Fp.ndim; simpl; lia).
    split; [exact Hv|]. split; [exact Hax|].
    intros ar u eta Hstd Hfit.
    exists (softmax_fp ar Example.x_fp 1).
    exists (softmax_fp ar (add_to_elements ar Example.x_fp (Fp.Inf false)) 1).
    split.
    { apply (@forward_generic_fp_ok ar Example.x_fp 1%Z 1);
        [reflexivity|simpl; lia|reflexivity]. }
    split.
    { apply (@forward_generic_fp_ok ar
               (add_to_elements ar Example.x_fp (Fp.Inf false)) 1%Z 1);
        [reflexivity|simpl; lia|reflexivity]. }
    split.
    + destruct Hv as (Hwf & _).
      assert (Hfin : all_finite Example.x_fp) by (repeat constructor).
      assert (Hb : in_bounds (Fp.shape Example.x_fp) [0; 0])
        by (repeat constructor; lia).
      destruct (@output_lane ar u eta Example.x_fp 1 Hwf Hfin Hstd
                  ltac:(simpl; lia) [0; 0] Hb Hfit)
        as (s & _ & Hout & _).
      pose proof (@fp_get_in_lane (softmax_fp ar Example.x_fp 1) 1 [0; 0] Hb
                    ltac:(unfold Fp.ndim; simpl; lia)) as Hin.
      rewrite Hout in Hin. apply in_map_iff in Hin.
      destruct Hin as (v & Ev & _). eexists. symmetry. exact Ev.
    + unfold softmax_fp.
      rewrite fp_get_tabulated by (repeat constructor; lia).
      reflexivity.
  - assert (Hv : valid_input_fp Example.half_top).
    { split; [reflexivity|]. split; [unfold Fp.ndim; simpl; lia|].
      split; [reflexivity|]. repeat constructor. }
    split; [exact Hv|].
    split; [unfold valid_axis_fp, Fp.ndim; simpl; lia|].
    exists (softmax_fp (Example.everywhere Example.ideal) Example.half_top 1).
    exists (softmax_fp (Example.everywhere Example.ideal)
              (add_to_elements (Example.everywhere Example.ideal)
                               Example.half_top (Fp.Fin 65504)) 1).
    split.
    { apply (@forward_generic_fp_ok (Example.everywhere Example.ideal)
               Example.half_top 1%Z 1);
        [reflexivity|simpl; lia|reflexivity]. }
    split.
    { apply (@forward_generic_fp_ok (Example.everywhere Example.ideal)
               (add_to_elements (Example.everywhere Example.ideal)
                                Example.half_top (Fp.Fin 65504)) 1%Z 1);
        [reflexivity|simpl; lia|reflexivity]. }
    split.
    + destruct Hv as (Hwf & _).
      assert (Hfin : all_finite Example.half_top) by (repeat constructor).
      assert (Hb : in_bounds (Fp.shape Example.half_top) [0; 0])
        by (repeat constructor; lia).
      destruct (@output_lane (Example.everywhere Example.ideal) 0%R 0%R
                  Example.half_top 1 Hwf Hfin ideal_standard
                  ltac:(simpl; lia) [0; 0] Hb
                  ltac:(unfold sum_fits; simpl; lra))
        as (s & _ & Hout & _).
      pose proof (@fp_get_in_lane
                    (softmax_fp (Example.everywhere Example.ideal)
                                Example.half_top 1)
                    1 [0; 0] Hb ltac:(unfold Fp.ndim; simpl; lia)) as Hin.
      rewrite Hout in Hin. apply in_map_iff in Hin.
      destruct Hin as (v & Ev & _). eexists. symmetry. exact Ev.
    + unfold softmax_fp.
      rewrite fp_get_tabulated by (repeat constructor; lia).
      unfold softmax_fp_at.
      cbn [Fp.get Fp.lane add_to_elements Fp.with_data Fp.shape Fp.data
           Fp.dtype_of Example.half_top map seq nth ravel upd size
           fold_right Nat.mul Nat.add Fp.fadd].
      assert (E : Fp.of_real (Example.everywhere Example.ideal float16)
                             (65504 + 65504) = Fp.Inf false).
      { apply in_range_overflow. simpl. lra. }
      assert (E' : Fp.of_real (Example.everywhere Example.ideal float16)
                              (0 + 65504) = Fp.Fin (0 + 65504)).
      { apply in_range_fin. simpl. lra. }
      rewrite E, E'. reflexivity.
Qed.

(** C7 (as amended). On the generic backend a backward call fails with the
    shape error of the array library (ValueError), before it allocates
    anything, whenever the shapes of the upstream gradient and of the
    memoized output do not broadcast against each other. *)
Theorem C7_backward_shape_error (g : cuda) (st : state) (r yr gr : ref)
        (rest : list ref) (a ya ga : ndarray) :
  nth_error (heap st) r = Some a ->
  takes_cudnn g (self st) (xp_of a) (dtype_of a) = false ->
  y (self st) = Some yr ->
  nth_error (heap st) yr = Some ya ->
  nth_error (heap st) gr = Some ga ->
  xp_of ga = xp_of ya ->
  broadcast_shapes (shape ya) (shape ga) = None ->
  backward g [r] (gr :: rest) st = (st, Raise ValueError).
Proof.
  intros Hr Hgen Hy Hya Hga Hxp Hbc.
  rewrite (backward_single g st r (gr :: rest) Hr), Hgen.
  unfold backward_generic, bind, lift, get_y, deref.
  rewrite Hy, Hya, index_0, Hga.
  unfold multiply, binop.
  now rewrite Hxp, array_module_eqb_refl, Hbc.
Qed.

Lemma C7_backward_shape_error_witness :
  backward Example.host [0] [2] (Example.with_gradient Example.wide32)
  = (Example.with_gradient Example.wide32, Raise ValueError).
Proof.
  apply (@C7_backward_shape_error Example.host
           (Example.with_gradient Example.wide32) 0 1 2 []
           Example.x (softmax_of Example.x 1) Example.wide32).
  - reflexivity.
  - reflexivity.
  - vm_compute. reflexivity.
  - vm_compute. reflexivity.
  - vm_compute. reflexivity.
  - reflexivity.
  - reflexivity.
Defined.

(** C7, as stated, fails: an upstream gradient of shape (1, 3) does not
    have the shape (2, 3) of the memoized output, yet [backward] returns a
    gradient, of shape (2, 3). *)
Lemma C7_counterexample :
  exists y0 gy out,
    y (self (Example.with_gradient Example.row32)) = Some 1
    /\ nth_error (heap (Example.with_gradient Example.row32)) 1 = Some y0
    /\ nth_error (heap (Example.with_gradient Example.row32)) 2 = Some gy
    /\ shape y0 = [2; 3]
    /\ shape gy = [1; 3]
    /\ outcome (backward Example.host [0] [2]
                         (Example.with_gradient Example.row32)) = Ok out
    /\ shape out = [2; 3].
Proof.
  exists (softmax_of Example.x 1), Example.row32.
  eexists. repeat split; try (vm_compute; reflexivity).
Qed.

(** C8 (as amended). The [else] branch of [forward] raises no error on a
    valid input. When the input holds no infinity and no NaN and the
    arithmetic has the guarantees of IEEE 754: where the values along the
    axis are all equal, the outputs along the axis are one and the same
    number [r], and [n * r] is within the rounding tolerance of 1 for an
    axis of [n] elements; when the dimension at the axis has size 1, every
    output element is exactly 1. *)
Theorem C8_degenerate_input (ar : dtype -> Fp.arithmetic) (u eta : R)
        (a : Fp.ndarray) (axis : Z) :
  valid_input_fp a ->
  valid_axis_fp axis a ->
  let ax := Z.to_nat axis in
  let n := nth ax (Fp.shape a) 0 in
  exists out,
    forward_generic_fp ar (Fp.xp_of a) a axis = Ok out
    /\ (all_finite a -> standard (ar (Fp.dtype_of a)) u eta ->
        (sum_fits (ar (Fp.dtype_of a)) u eta n ->
         forall idx, in_bounds (Fp.shape a) idx ->
           (forall j, j < n -> Fp.get a (upd ax j idx) = Fp.get a idx) ->
           exists r,
             (forall j, j < n -> Fp.get out (upd ax j idx) = Fp.Fin r)
             /\ (lower_tolerance u eta n <= INR n * r
                 <= upper_tolerance u eta n)%R)
        /\ (n = 1 ->
            forall idx, in_bounds (Fp.shape a) idx ->
              Fp.get out idx = Fp.Fin 1)).
Proof.
  intros (Hwf & Hnd & Hkind & Hdims) Hax ax n.
  assert (Hnorm : normalize_axis (Fp.ndim a) axis = Ok ax)
    by (apply normalize_axis_valid; exact Hax).
  assert (Hlt : ax < Fp.ndim a) by (unfold valid_axis_fp in Hax; subst ax; lia).
  pose proof (Forall_nth_pos Hdims Hlt) as Hpos.
  exists (softmax_fp ar a ax).
  split; [now apply forward_generic_fp_ok|].
  intros Hfin Hstd. split.
  - intros Hfit idx Hb Heq.
    destruct (@output_lane ar u eta a ax Hwf Hfin Hstd Hpos idx Hb Hfit)
      as (s & Hs & Hout & Hunit & Hlow & Hup).
    pose proof (@lane_values a ax Hwf Hfin idx Hb) as HL.
    pose proof (@lane_values_nonempty a ax Hpos idx) as Hne.
    assert (Hall : forall w, In w (map value (Fp.lane a ax idx)) ->
                             w = value (Fp.get a idx)).
    { intros w Hw. apply in_map_iff in Hw. destruct Hw as (v & <- & Hv).
      unfold Fp.lane in Hv. apply in_map_iff in Hv.
      destruct Hv as (j & <- & Hj). apply in_seq in Hj.
      rewrite Heq by (fold n in Hj; lia). reflexivity. }
    assert (Hout' : Fp.lane (softmax_fp ar a ax) ax idx
                    = map (fun _ => Fp.Fin (Fp.rnd (ar (Fp.dtype_of a))
                                              (1 / s)))
                          (map value (Fp.lane a ax idx))).
    { rewrite Hout. apply map_ext_in. intros v Hv.
      now rewrite (@uniform_lane_exponential (ar (Fp.dtype_of a)) u eta Hstd
                     _ Hne _ v Hall Hv). }
    exists (Fp.rnd (ar (Fp.dtype_of a)) (1 / s)).
    split.
    + intros j Hj.
      assert (Hnth : nth j (Fp.lane (softmax_fp ar a ax) ax idx) Fp.NaN
                     = Fp.get (softmax_fp ar a ax) (upd ax j idx)).
      { unfold Fp.lane at 1.
        rewrite (nth_indep _ Fp.NaN
                   (Fp.get (softmax_fp ar a ax) (upd ax 0 idx)))
          by (rewrite length_map, length_seq; exact Hj).
        rewrite (map_nth (fun c => Fp.get (softmax_fp ar a ax)
                                          (upd ax c idx))).
        now rewrite seq_nth by exact Hj. }
      rewrite <- Hnth, Hout'.
      rewrite (nth_indep _ Fp.NaN
                 ((fun _ : R => Fp.Fin (Fp.rnd (ar (Fp.dtype_of a)) (1 / s)))
                    0%R))
        by (rewrite !length_map, fp_length_lane; exact Hj).
      now rewrite (map_nth (fun _ : R => Fp.Fin (Fp.rnd (ar (Fp.dtype_of a))
                                                  (1 / s)))).
    + rewrite Hout', !map_map in Hlow, Hup. cbn [value] in Hlow, Hup.
      assert (Htot : total (map (fun _ : Fp.fp =>
                                   Fp.rnd (ar (Fp.dtype_of a)) (1 / s))
                                (Fp.lane a ax idx))
                     = (INR n * Fp.rnd (ar (Fp.dtype_of a)) (1 / s))%R).
      { rewrite total_constant, fp_length_lane. reflexivity. }
      rewrite Htot in Hlow, Hup. now split.
  - intros Hn1 idx Hb.
    unfold softmax_fp. rewrite fp_get_tabulated by exact Hb.
    unfold softmax_fp_at.
    assert (Hidx : upd ax 0 idx = idx).
    { pose proof (in_bounds_nth Hb Hlt) as Hi. fold n in Hi.
      rewrite <- (upd_nth_same ax 0 idx) at 2. f_equal. lia. }
    assert (HL : Fp.lane a ax idx = [Fp.get a idx]).
    { unfold Fp.lane. fold n. rewrite Hn1. simpl. now rewrite Hidx. }
    rewrite HL.
    pose proof (@lane_values a ax Hwf Hfin idx Hb) as HF. rewrite HL in HF.
    simpl in HF. injection HF as HF. rewrite HF.
    apply (@singleton_lane_output (ar (Fp.dtype_of a)) u eta Hstd).
Qed.

Lemma C8_degenerate_input_witness :
  (exists out r,
     forward_generic_fp (Example.everywhere Example.fixed) numpy
                        Example.level_fp 1 = Ok out
     /\ Fp.get out [0; 0] = Fp.Fin r
     /\ Fp.get out [0; 1] = Fp.Fin r
     /\ (lower_tolerance 0 (/ 2048) 2 <= INR 2 * r
         <= upper_tolerance 0 (/ 2048) 2)%R)
  /\ (exists out,
        forward_generic_fp (Example.everywhere Example.fixed) numpy
                           Example.column_fp 1 = Ok out
        /\ Fp.get out [1; 0] = Fp.Fin 1).
Proof.
  split.
  - destruct (@C8_degenerate_input (Example.everywhere Example.fixed)
                0%R (/ 2048)%R Example.level_fp 1%Z)
      as (out & Hout & Hrest).
    + split; [reflexivity|]. split; [unfold Fp.ndim; simpl; lia|].
      split; [reflexivity|]. repeat constructor.
    + unfold valid_axis_fp, Fp.ndim. simpl. lia.
    + destruct Hrest as [Huni _];
        [repeat constructor|apply fixed_standard|].
      destruct (Huni ltac:(unfold sum_fits; simpl; lra) [0; 0])
        as (r & Hr & Hbounds).
      * repeat constructor; lia.
      * intros j Hj. simpl in Hj.
        destruct j as [|[|j]]; [reflexivity|reflexivity|lia].
      * exists out, r. split; [exact Hout|].
        split; [exact (Hr 0 ltac:(simpl; lia))|].
        split; [exact (Hr 1 ltac:(simpl; lia))|exact Hbounds].
  - destruct (@C8_degenerate_input (Example.everywhere Example.fixed)
                0%R (/ 2048)%R Example.column_fp 1%Z)
      as (out & Hout & Hrest).
    + split; [reflexivity|]. split; [unfold Fp.ndim; simpl; lia|].
      split; [reflexivity|]. repeat constructor.
    + unfold valid_axis_fp, Fp.ndim. simpl. lia.
    + destruct Hrest as [_ Hone];
        [repeat constructor|apply fixed_standard|].
      exists out. split; [exact Hout|].
      apply Hone; [reflexivity|repeat constructor; lia].
Defined.

(** C8, as stated, fails: [[inf], [1]] is a valid input whose dimension at
    axis 1 has size 1, yet the first output element is NaN, not 1.0, in
    every arithmetic. *)
Lemma C8_counterexample :
  valid_input_fp Example.infinite_column
  /\ valid_axis_fp 1 Example.infinite_column
  /\ nth 1 (Fp.shape Example.infinite_column) 0 = 1
  /\ forall ar,
       exists out,
         forward_generic_fp ar numpy Example.infinite_column 1 = Ok out
         /\ Fp.get out [0; 0] = Fp.NaN.
Proof.
  split.
  { split; [reflexivity|]. split; [unfold Fp.ndim; simpl; lia|].
    split; [reflexivity|]. repeat constructor. }
  split; [unfold valid_axis_fp, Fp.ndim; simpl; lia|].
  split; [reflexivity|].
  intros ar. exists (softmax_fp ar Example.infinite_column 1).
  split.
  - apply (@forward_generic_fp_ok ar Example.infinite_column 1%Z 1);
      [reflexivity|simpl; lia|reflexivity].
  - unfold softmax_fp. rewrite fp_get_tabulated by (repeat constructor; lia).
    reflexivity.
Qed.

(** C10. On the generic backend [backward] changes neither the function
    object (the memoized output stays in [self.y]) nor any array that was
    in the store, so not [y], [x] or [gy]; however often it is called with
    the same upstream gradient, every call returns an array equal to the
    one the first call returned (or raises the same error). *)
Theorem C10_backward_frame (g : cuda) (st : state) (x gy : list ref)
        (xs : list ndarray) (n : nat) :
  deref_all x st = (st, Ok xs) ->
  use_cudnn_path g (self st) xs = Ok false ->
  let stn := after_backwards g x gy n st in
  self stn = self st
  /\ (forall m b, nth_error (heap st) m = Some b ->
                  nth_error (heap stn) m = Some b)
  /\ outcome (backward g x gy stn) = outcome (backward g x gy st).
Proof.
  intros Hx Hgen.
  pose proof (@after_backwards_generic g x gy xs st Hx Hgen n []
                (or_introl eq_refl)) as H.
  rewrite app_nil_r, state_eta in H.
  destruct H as (Hself & (e & Hheap) & Hout).
  intros stn. subst stn. split; [exact Hself|]. split; [|exact Hout].
  intros m b Hm. rewrite Hheap. now apply nth_error_grown.
Qed.

Lemma C10_backward_frame_witness :
  let st := Example.with_gradient Example.ones32 in
  let st3 := after_backwards Example.host [0] [2] 3 st in
  self st3 = self st
  /\ (forall m b, nth_error (heap st) m = Some b ->
                  nth_error (heap st3) m = Some b)
  /\ outcome (backward Example.host [0] [2] st3)
     = outcome (backward Example.host [0] [2] st).
Proof.
  apply (@C10_backward_frame Example.host
           (Example.with_gradient Example.ones32) [0] [2] [Example.x] 3).
  - vm_compute. reflexivity.
  - reflexivity.
Defined.

(* ================================================================== *)
(** * Further properties of the code *)

(** ** The type check *)

(** X1. [check_type_forward] accepts exactly one input of floating-point
    kind with more than one dimension and an axis below the number of
    dimensions; whatever it rejects, it rejects with [InvalidType]. *)
Theorem X1_check_type_forward_accepts (self : Softmax)
        (in_types : list TypeInfo) :
  (check_type_forward self in_types = Ok tt <->
   exists x_type,
     in_types = [x_type]
     /\ kind (t_dtype x_type) = "f"%char
     /\ 1 < t_ndim x_type
     /\ (axis self < Z.of_nat (t_ndim x_type))%Z)
  /\ (forall e, check_type_forward self in_types = Raise e ->
                exists failed, e = InvalidType failed).
Proof.
  unfold check_type_forward.
  destruct in_types as [|t [|t' rest]]; cbn [length Nat.eqb expect rbind].
  - split.
    + split; [discriminate|intros (x & E & _); discriminate].
    + intros e [= <-]. now exists ExpectSize.
  - destruct (Ascii.eqb_spec (kind (t_dtype t)) "f") as [Hk|Hk];
      destruct (Nat.ltb_spec 1 (t_ndim t)) as [Hn|Hn];
      destruct (Z.ltb_spec (axis self) (Z.of_nat (t_ndim t))) as [Ha|Ha];
      (split;
       [ split;
         [ try discriminate; intros _; exists t; auto
         | intros (x & [= <-] & Hk' & Hn' & Ha');
           try reflexivity; try contradiction; try lia ]
       | intros e [= <-]; eexists; reflexivity ]).
  - split.
    + split; [discriminate|intros (x & E & _); discriminate].
    + intros e [= <-]. now exists ExpectSize.
Qed.

(** ** The four-dimensional view at every axis *)

Section Tensor4dAxes.

Lemma slice_left_neg {A} (t : list A) (i : Z) :
  (- Z.of_nat (length t) <= i < 0)%Z ->
  slice t 0 i = firstn (Z.to_nat (i + Z.of_nat (length t))) t.
Proof.
  intros H. unfold slice, slice_bound. simpl.
  replace (i <? 0)%Z with true by (symmetry; apply Z.ltb_lt; lia).
  rewrite Z.max_l by lia. now rewrite Nat.sub_0_r.
Qed.

Lemma slice_right_neg {A} (t : list A) (i : Z) :
  (- Z.of_nat (length t) <= i < -1)%Z ->
  slice t (i + 1) (Z.of_nat (length t))
  = skipn (S (Z.to_nat (i + Z.of_nat (length t)))) t.
Proof.
  intros H. unfold slice, slice_bound.
  replace (i + 1 <? 0)%Z with true by (symmetry; apply Z.ltb_lt; lia).
  replace (Z.of_nat (length t) <? 0)%Z with false
    by (symmetry; apply Z.ltb_ge; lia).
  rewrite Nat2Z.id, Nat.min_id, Z.max_l by lia.
  replace (Z.to_nat (i + 1 + Z.of_nat (length t)))
    with (S (Z.to_nat (i + Z.of_nat (length t)))) by lia.
  apply firstn_all2. rewrite length_skipn. lia.
Qed.

Lemma slice_whole {A} (t : list A) :
  slice t 0 (Z.of_nat (length t)) = t.
Proof.
  unfold slice, slice_bound. simpl.
  replace (Z.of_nat (length t) <? 0)%Z with false
    by (symmetry; apply Z.ltb_ge; lia).
  rewrite Nat2Z.id, Nat.min_id, Nat.sub_0_r. apply firstn_all.
Qed.

Lemma index_neg (t : list nat) (i : Z) :
  (- Z.of_nat (length t) <= i < 0)%Z ->
  index t i = Ok (nth (Z.to_nat (i + Z.of_nat (length t))) t 0).
Proof.
  intros H. unfold index.
  replace (- Z.of_nat (length t) <=? i)%Z with true
    by (symmetry; apply Z.leb_le; lia).
  replace (i <? Z.of_nat (length t))%Z with true
    by (symmetry; apply Z.ltb_lt; lia).
  replace (i <? 0)%Z with true by (symmetry; apply Z.ltb_lt; lia).
  simpl.
  destruct (nth_error t (Z.to_nat (i + Z.of_nat (length t)))) as [v|] eqn:E.
  - now rewrite (nth_error_nth _ _ _ E).
  - apply nth_error_None in E. lia.
Qed.

Lemma index_out_of_range {A} (t : list A) (i : Z) :
  (i < - Z.of_nat (length t) \/ Z.of_nat (length t) <= i)%Z ->
  index t i = Raise IndexError.
Proof.
  intros H. unfold index.
  destruct ((- Z.of_nat (length t) <=? i)
            && (i <? Z.of_nat (length t)))%Z eqn:E; [|reflexivity].
  apply andb_true_iff in E. destruct E as [E1 E2].
  apply Z.leb_le in E1. apply Z.ltb_lt in E2. lia.
Qed.

Lemma normalize_axis_neg (n : nat) (axis : Z) :
  (- Z.of_nat n <= axis < 0)%Z ->
  normalize_axis n axis = Ok (Z.to_nat (axis + Z.of_nat n)).
Proof.
  intros H. unfold normalize_axis.
  replace (- Z.of_nat n <=? axis)%Z with true
    by (symmetry; apply Z.leb_le; lia).
  replace (axis <? Z.of_nat n)%Z with true
    by (symmetry; apply Z.ltb_lt; lia).
  replace (axis <? 0)%Z with true by (symmetry; apply Z.ltb_lt; lia).
  reflexivity.
Qed.

Lemma normalize_axis_out_of_range (n : nat) (axis : Z) :
  (axis < - Z.of_nat n \/ Z.of_nat n <= axis)%Z ->
  normalize_axis n axis = Raise ValueError.
Proof.
  intros H. unfold normalize_axis.
  destruct ((- Z.of_nat n <=? axis) && (axis <? Z.of_nat n))%Z eqn:E;
    [|reflexivity].
  apply andb_true_iff in E. destruct E as [E1 E2].
  apply Z.leb_le in E1. apply Z.ltb_lt in E2. lia.
Qed.

End Tensor4dAxes.



(** The view at the axis -1. *)
Lemma get_tensor4d_shape_last_axis (self : Softmax) (s : list nat) :
  axis self = (-1)%Z ->
  s <> [] ->
  _get_tensor4d_shape self s
  = Ok [size (firstn (length s - 1) s); nth (length s - 1) s 0; size s; 1]
  /\ size [size (firstn (length s - 1) s); nth (length s - 1) s 0;
           size s; 1]
     = size s * size s.
Proof.
  intros Ha Hs.
  assert (Hn : 0 < length s) by (destruct s; [congruence|simpl; lia]).
  split.
  - unfold _get_tensor4d_shape. rewrite Ha.
    rewrite index_neg by lia. cbn [rbind].
    rewrite slice_left_neg by lia.
    replace (-1 + 1)%Z with 0%Z by lia. rewrite slice_whole.
    replace (Z.to_nat (-1 + Z.of_nat (length s))) with (length s - 1) by lia.
    reflexivity.
  - assert (Hlt : length s - 1 < length s) by lia.
    rewrite (size_split s Hlt) at 3.
    replace (S (length s - 1)) with (length s) by lia.
    rewrite skipn_all. simpl. lia.
Qed.




(** X4. For an axis outside [-rank, rank), [_get_tensor4d_shape] raises
    IndexError: [shape[self.axis]] is out of range. *)
Theorem X4_get_tensor4d_shape_index_error (self : Softmax) (s : list nat) :
  (axis self < - Z.of_nat (length s) \/ Z.of_nat (length s) <= axis self)%Z ->
  _get_tensor4d_shape self s = Raise IndexError.
Proof.
  intros H. unfold _get_tensor4d_shape. now rewrite index_out_of_range.
Qed.

Lemma X4_get_tensor4d_shape_index_error_witness :
  _get_tensor4d_shape (init true 2) [2; 3] = Raise IndexError.
Proof.
  apply (@X4_get_tensor4d_shape_index_error (init true 2) [2; 3]).
  right. simpl. lia.
Defined.

(** ** forward at every axis *)

Section ForwardAxes.

Variable g : cuda.

Lemma forward_generic_amax_raise (st : state) (x0 : ndarray)
      (rest : list ndarray) (e : exn) :
  amax x0 (axis (self st)) = Raise e ->
  forward_generic (x0 :: rest) st = (st, Raise e).
Proof.
  intros H. unfold forward_generic, bind, lift, get_self.
  now rewrite index_0, H.
Qed.

(** The [else] branch of [forward] on one floating-point array: the
    softmax along the axis numpy understands, or numpy's ValueError with
    nothing changed. *)
Lemma forward_generic_float (st : state) (a : ndarray) :
  kind (dtype_of a) = "f"%char ->
  match normalize_axis (ndim a) (axis (self st)) with
  | Ok ax =>
      if nth ax (shape a) 0 =? 0
      then forward_generic [a] st = (st, Raise ValueError)
      else forward_generic [a] st
           = (mk_state (heap st ++ [softmax_of a ax])
                       (remember (self st) (length (heap st))),
              Ok (length (heap st)))
  | Raise _ => forward_generic [a] st = (st, Raise ValueError)
  end.
Proof.
  intros Hkind.
  destruct (normalize_axis (ndim a) (axis (self st))) as [ax|e] eqn:Hax.
  - destruct (nth ax (shape a) 0 =? 0) eqn:E.
    + apply forward_generic_amax_raise. unfold amax.
      rewrite Hax. cbn [rbind]. now rewrite E.
    + apply forward_generic_run. rewrite get_array_module_single.
      apply generic_forward_value_ok; auto.
      apply Nat.eqb_neq in E. lia.
  - apply forward_generic_amax_raise. unfold amax. rewrite Hax.
    cbn [rbind]. unfold normalize_axis in Hax.
    destruct ((- Z.of_nat (ndim a) <=? axis (self st))
              && (axis (self st) <? Z.of_nat (ndim a)))%Z;
      [discriminate|congruence].
Qed.

(** Under the documented behaviour of the library, the [if] branch of
    [forward] computes the softmax along dimension [ax] whenever
    [_get_tensor4d_shape] builds the view around [ax]. *)
Lemma forward_cudnn_run_at (st : state) (a : ndarray) (ax : nat) :
  Cudnn.honours_contract (libcudnn g) ->
  wf a -> xp_of a = cupy -> kind (dtype_of a) = "f"%char ->
  ax < ndim a ->
  _get_tensor4d_shape (self st) (shape a) = Ok (shape4 ax (shape a)) ->
  forward_cudnn g [a] st
  = (mk_state (heap st ++ [softmax_of a ax])
              (remember (self st) (length (heap st))),
     Ok (length (heap st))).
Proof.
  intros Hlib Hwf Hxp Hkind Hlt Hs4.
  unfold forward_cudnn, bind, lift, get_self, alloc, set_y, store, ret.
  rewrite index_0, Hs4.
  unfold reshape. rewrite (size_shape4 (shape a) Hlt), Nat.eqb_refl.
  unfold create_tensor_descriptor, data_ptr.
  cbn [dtype_of xp_of shape data heap self].
  rewrite Hkind, Hxp. cbn [Ascii.eqb Bool.eqb].
  unfold shape4 at 1.
  destruct (Hlib 1%R 0%R (size (firstn ax (shape a)))
              (nth ax (shape a) 0) (size (skipn (S ax) (shape a)))
              1 (data a) (data (empty_like (junk g) a))) as [Hf _].
  - fold (shape4 ax (shape a)).
    rewrite (size_shape4 (shape a) Hlt). exact Hwf.
  - fold (shape4 ax (shape a)).
    rewrite (size_shape4 (shape a) Hlt).
    unfold empty_like, with_data. simpl.
    now rewrite length_map, length_seq.
  - unfold _algorithm, _mode. rewrite Hf.
    fold (shape4 ax (shape a)).
    rewrite (channel_softmax_eq a _ Hlt).
    cbn [heap self]. rewrite upd_snoc.
    rewrite get_array_module_single, Hxp.
    unfold with_data, softmax_of, remember. simpl. now rewrite Hxp.
Qed.

End ForwardAxes.

(** X5. On the generic backend, [forward] on a floating-point array of at
    least one dimension either returns the softmax along the axis as numpy
    reads it (negative values count from the last dimension), in a new
    object that [self.y] then names, or raises ValueError and changes
    nothing; it raises exactly when the axis is outside [-rank, rank) or
    the dimension at the axis is empty. *)
Theorem X5_forward_generic_all_or_nothing (g : cuda) (st : state) (r : ref)
        (a : ndarray) :
  nth_error (heap st) r = Some a ->
  takes_cudnn g (self st) (xp_of a) (dtype_of a) = false ->
  kind (dtype_of a) = "f"%char ->
  1 <= ndim a ->
  match normalize_axis (ndim a) (axis (self st)) with
  | Ok ax =>
      if nth ax (shape a) 0 =? 0
      then forward g [r] st = (st, Raise ValueError)
      else forward g [r] st
           = (mk_state (heap st ++ [softmax_of a ax])
                       (remember (self st) (length (heap st))),
              Ok (length (heap st)))
  | Raise _ => forward g [r] st = (st, Raise ValueError)
  end.
Proof.
  intros Hr Hgen Hkind _.
  rewrite (forward_single g st r Hr), Hgen.
  now apply forward_generic_float.
Qed.

Lemma X5_forward_generic_all_or_nothing_witness :
  forward Example.host [0] (Example.fresh (-1))
  = (mk_state [Example.x; softmax_of Example.x 1]
              (remember (init true (-1)) 1), Ok 1)
  /\ forward Example.host [0] (Example.fresh (-3))
     = (Example.fresh (-3), Raise ValueError).
Proof.
  split.
  - apply (@X5_forward_generic_all_or_nothing Example.host
             (Example.fresh (-1)) 0 Example.x);
      try reflexivity. unfold ndim. simpl. lia.
  - apply (@X5_forward_generic_all_or_nothing Example.host
             (Example.fresh (-3)) 0 Example.x);
      try reflexivity. unfold ndim. simpl. lia.
Defined.

(** X6. On the generic backend a negative axis in [-rank, 0) gives the
    output of the axis plus the rank. *)
Theorem X6_negative_axis_counts_from_end (g : cuda) (h : list ndarray)
        (r : ref) (a : ndarray) (use : bool) (axis : Z) (y0 : option ref) :
  nth_error h r = Some a ->
  takes_cudnn g (mk_Softmax use axis y0) (xp_of a) (dtype_of a) = false ->
  kind (dtype_of a) = "f"%char ->
  (- Z.of_nat (ndim a) <= axis < 0)%Z ->
  outcome (forward g [r] (mk_state h (mk_Softmax use axis y0)))
  = outcome (forward g [r]
               (mk_state h (mk_Softmax use (axis + Z.of_nat (ndim a)) y0))).
Proof.
  intros Hr Hgen Hkind Hax.
  rewrite (@forward_single g (mk_state h (mk_Softmax use axis y0)) r a Hr).
  rewrite (@forward_single g
             (mk_state h (mk_Softmax use (axis + Z.of_nat (ndim a)) y0))
             r a Hr).
  replace (takes_cudnn g
             (self (mk_state h
                      (mk_Softmax use (axis + Z.of_nat (ndim a)) y0)))
             (xp_of a) (dtype_of a))
    with (takes_cudnn g (mk_Softmax use axis y0) (xp_of a) (dtype_of a))
    by reflexivity.
  cbn [self]. rewrite Hgen.
  pose proof (@forward_generic_float
                (mk_state h (mk_Softmax use axis y0)) a Hkind) as H1.
  pose proof (@forward_generic_float
                (mk_state h (mk_Softmax use (axis + Z.of_nat (ndim a)) y0))
                a Hkind) as H2.
  cbn [self Store.axis] in H1, H2.
  rewrite normalize_axis_neg in H1 by exact Hax.
  rewrite normalize_axis_valid in H2 by lia.
  destruct (nth (Z.to_nat (axis + Z.of_nat (ndim a))) (shape a) 0 =? 0).
  - now rewrite H1, H2.
  - rewrite H1, H2. unfold outcome. cbn [fst snd heap].
    now rewrite !nth_error_snoc.
Qed.

Lemma X6_negative_axis_counts_from_end_witness :
  outcome (forward Example.host [0] (Example.fresh (-1)))
  = outcome (forward Example.host [0] (Example.fresh 1)).
Proof.
  apply (@X6_negative_axis_counts_from_end Example.host [Example.x] 0
           Example.x true (-1) None).
  - reflexivity.
  - reflexivity.
  - reflexivity.
  - unfold ndim. simpl. lia.
Defined.

(** X7. On the cuDNN backend, [forward] with axis -1 on an array of more
    than one element raises ValueError at the reshape, whatever the
    library does, and nothing is changed: the view of X3 has the wrong
    number of elements. *)
Theorem X7_forward_cudnn_last_axis_fails (g : cuda) (st : state) (r : ref)
        (a : ndarray) :
  nth_error (heap st) r = Some a ->
  takes_cudnn g (self st) (xp_of a) (dtype_of a) = true ->
  axis (self st) = (-1)%Z ->
  shape a <> [] ->
  1 < size (shape a) ->
  forward g [r] st = (st, Raise ValueError).
Proof.
  intros Hr Hcud Ha Hs Hsize.
  rewrite (forward_single g st r Hr), Hcud.
  destruct (@get_tensor4d_shape_last_axis (self st) (shape a) Ha Hs)
    as [H4 Hsq].
  unfold forward_cudnn, bind, lift, get_self.
  rewrite index_0, H4. unfold reshape. rewrite Hsq.
  destruct (Nat.eqb_spec (size (shape a) * size (shape a)) (size (shape a)));
    [nia|reflexivity].
Qed.

Lemma X7_forward_cudnn_last_axis_fails_witness :
  forward Example.device [0] (mk_state [Example.x_gpu] (init true (-1)))
  = (mk_state [Example.x_gpu] (init true (-1)), Raise ValueError).
Proof.
  apply (@X7_forward_cudnn_last_axis_fails Example.device
           (mk_state [Example.x_gpu] (init true (-1))) 0 Example.x_gpu).
  - reflexivity.
  - reflexivity.
  - reflexivity.
  - discriminate.
  - simpl. lia.
Defined.

(** X8. On the cuDNN backend, with a library that computes what it
    documents, [forward] with a negative axis in [-rank, -1) on an array
    whose dimension at that axis is not empty returns the softmax along
    the axis plus the rank, the result of the generic branch. *)
Theorem X8_forward_cudnn_negative_axis (g : cuda) (st : state) (r : ref)
        (a : ndarray) :
  nth_error (heap st) r = Some a ->
  takes_cudnn g (self st) (xp_of a) (dtype_of a) = true ->
  Cudnn.honours_contract (libcudnn g) ->
  wf a ->
  kind (dtype_of a) = "f"%char ->
  (- Z.of_nat (ndim a) <= axis (self st) < -1)%Z ->
  0 < nth (Z.to_nat (axis (self st) + Z.of_nat (ndim a))) (shape a) 0 ->
  forward g [r] st
  = (mk_state
       (heap st ++
        [softmax_of a (Z.to_nat (axis (self st) + Z.of_nat (ndim a)))])
       (remember (self st) (length (heap st))),
     Ok (length (heap st)))
  /\ forward_generic [a] st = forward g [r] st.
Proof.
  intros Hr Hcud Hlib Hwf Hkind Hax Hpos.
  rewrite (forward_single g st r Hr), Hcud.
  assert (Hrun : forward_cudnn g [a] st
                 = (mk_state
                      (heap st ++
                       [softmax_of a
                          (Z.to_nat (axis (self st) + Z.of_nat (ndim a)))])
                      (remember (self st) (length (heap st))),
                    Ok (length (heap st)))).
  { apply forward_cudnn_run_at; auto.
    - eapply takes_cudnn_cupy, Hcud.
    - lia.
    - unfold _get_tensor4d_shape, ndim in *.
      rewrite index_neg by lia. cbn [rbind].
      rewrite slice_left_neg by lia. now rewrite slice_right_neg. }
  split; [exact Hrun|]. rewrite Hrun.
  pose proof (@forward_generic_float st a Hkind) as H.
  rewrite normalize_axis_neg in H by lia.
  destruct (nth (Z.to_nat (axis (self st) + Z.of_nat (ndim a))) (shape a) 0
            =? 0) eqn:E; [|exact H].
  apply Nat.eqb_eq in E. lia.
Qed.

Lemma X8_forward_cudnn_negative_axis_witness :
  forward Example.device [0] (mk_state [Example.x_gpu] (init true (-2)))
  = (mk_state [Example.x_gpu; softmax_of Example.x_gpu 0]
              (remember (init true (-2)) 1), Ok 1)
  /\ forward_generic [Example.x_gpu]
                     (mk_state [Example.x_gpu] (init true (-2)))
     = forward Example.device [0]
               (mk_state [Example.x_gpu] (init true (-2))).
Proof.
  apply (@X8_forward_cudnn_negative_axis Example.device
           (mk_state [Example.x_gpu] (init true (-2))) 0 Example.x_gpu).
  - reflexivity.
  - reflexivity.
  - apply reference_honours_contract.
  - reflexivity.
  - reflexivity.
  - unfold ndim. simpl. lia.
  - simpl. lia.
Defined.

(** ** What forward leaves behind *)

Section ForwardFrame.

(** Either nothing happened and an error was raised, or one object was
    added, [self.y] names it, and it is what a successful call returns. *)
Definition forward_effect (st : state) (run : state * result ref) : Prop :=
  (fst run = st /\ exists e, snd run = Raise e)
  \/ exists z,
       fst run = mk_state (heap st ++ [z])
                          (remember (self st) (length (heap st)))
       /\ (snd run = Ok (length (heap st)) \/ exists e, snd run = Raise e).

Lemma forward_generic_effect (xs : list ndarray) (st : state) :
  forward_effect st (forward_generic xs st).
Proof.
  unfold forward_effect, forward_generic, bind, lift, get_self, alloc,
    set_y, get_y, deref, store, ret.
  destruct (index xs 0) as [x0|e]; [|left; split; [reflexivity|eexists; reflexivity]].
  destruct (amax x0 (axis (self st))) as [m|e]; [|left; split; [reflexivity|eexists; reflexivity]].
  destruct (subtract x0 m) as [d|e]; [|left; split; [reflexivity|eexists; reflexivity]].
  cbn [heap self y axis use_cudnn]. rewrite nth_error_snoc.
  destruct (exp_inplace (get_array_module xs) d) as [ex|e].
  2:{ right. exists d. split; [reflexivity|right; eexists; reflexivity]. }
  cbn [heap self y axis use_cudnn]. rewrite upd_snoc, nth_error_snoc.
  destruct (Numpy.sum ex (axis (self st))) as [t|e].
  2:{ right. exists ex. split; [reflexivity|right; eexists; reflexivity]. }
  destruct (itruediv ex t) as [q|e].
  2:{ right. exists ex. split; [reflexivity|right; eexists; reflexivity]. }
  cbn [heap self y axis use_cudnn]. rewrite upd_snoc.
  right. exists q. split; [reflexivity|now left].
Qed.

Lemma forward_cudnn_effect (g : cuda) (xs : list ndarray) (st : state) :
  forward_effect st (forward_cudnn g xs st).
Proof.
  unfold forward_effect, forward_cudnn, bind, lift, get_self, alloc,
    set_y, store, ret.
  destruct (index xs 0) as [x0|e]; [|left; split; [reflexivity|eexists; reflexivity]].
  destruct (_get_tensor4d_shape (self st) (shape x0)) as [s4|e];
    [|left; split; [reflexivity|eexists; reflexivity]].
  destruct (reshape x0 s4) as [x4|e]; [|left; split; [reflexivity|eexists; reflexivity]].
  destruct (create_tensor_descriptor x4) as [desc|e]; [|left; split; [reflexivity|eexists; reflexivity]].
  cbn [heap self y axis use_cudnn].
  match goal with
  | |- context [mk_state (heap st ++ [?z]) _] => set (fresh := z)
  end.
  destruct (data_ptr x4) as [src|e].
  2:{ right. exists fresh. split; [reflexivity|right; eexists; reflexivity]. }
  destruct (Cudnn.softmaxForward (libcudnn g) _algorithm _mode 1 desc src 0
              (data fresh)) as [out|].
  - cbn [heap self]. rewrite upd_snoc.
    right. eexists. split; [reflexivity|now left].
  - right. exists fresh. split; [reflexivity|right; eexists; reflexivity].
Qed.

Lemma forward_has_effect (g : cuda) (x : list ref) (st : state) :
  forward_effect st (forward g x st).
Proof.
  unfold forward, bind at 1.
  pose proof (deref_all_state x st) as Hst.
  destruct (deref_all x st) as [st' [xs|e]]; simpl in Hst; subst st'.
  2:{ left. split; [reflexivity|eexists; reflexivity]. }
  unfold bind at 1, get_self. unfold bind at 1, lift.
  destruct (use_cudnn_path g (self st) xs) as [[|]|e].
  - apply forward_cudnn_effect.
  - apply forward_generic_effect.
  - left. split; [reflexivity|eexists; reflexivity].
Qed.

End ForwardFrame.

(** X9. Whatever its input and whichever branch runs, [forward] never
    writes to an array that existed before the call and never changes
    [use_cudnn] or [axis]; when it returns, the result is a new object and
    [self.y] names that same object. *)
Theorem X9_forward_frame (g : cuda) (x : list ref) (st : state) :
  let run := forward g x st in
  use_cudnn (self (fst run)) = use_cudnn (self st)
  /\ axis (self (fst run)) = axis (self st)
  /\ (forall m b, nth_error (heap st) m = Some b ->
                  nth_error (heap (fst run)) m = Some b)
  /\ (forall p, snd run = Ok p ->
                p = length (heap st)
                /\ y (self (fst run)) = Some p
                /\ nth_error (heap st) p = None
                /\ exists z, nth_error (heap (fst run)) p = Some z).
Proof.
  intros run. subst run.
  destruct (forward_has_effect g x st) as [[Hst [e He]]|[z [Hst Hres]]];
    rewrite Hst.
  - split; [reflexivity|]. split; [reflexivity|]. split; [auto|].
    intros p Hp. congruence.
  - cbn [heap self remember use_cudnn axis y].
    split; [reflexivity|]. split; [reflexivity|]. split.
    + intros m b Hm. now apply nth_error_grown.
    + intros p Hp. destruct Hres as [Hok|[e He]]; [|congruence].
      rewrite Hok in Hp. injection Hp as Hp. subst p.
      split; [reflexivity|]. split; [reflexivity|]. split.
      * apply nth_error_None. lia.
      * exists z. apply nth_error_snoc.
Qed.

(** X10. When the library call of the cuDNN branch of [forward] fails, the
    call raises CuDNNError after [self.y] was assigned: the function
    object is left naming a new array with the content [empty_like] found
    in memory, and no array that existed is changed. *)
Theorem X10_forward_cudnn_failure (g : cuda) (st : state) (r : ref)
        (a : ndarray) :
  nth_error (heap st) r = Some a ->
  takes_cudnn g (self st) (xp_of a) (dtype_of a) = true ->
  kind (dtype_of a) = "f"%char ->
  valid_axis (axis (self st)) a ->
  Cudnn.softmaxForward (libcudnn g) _algorithm _mode 1%R
    (shape4 (Z.to_nat (axis (self st))) (shape a)) (data a) 0%R
    (map (junk g) (seq 0 (size (shape a)))) = None ->
  forward g [r] st
  = (mk_state
       (heap st ++
        [mk_ndarray cupy (dtype_of a) (shape a)
                    (map (junk g) (seq 0 (size (shape a))))])
       (remember (self st) (length (heap st))),
     Raise CuDNNError).
Proof.
  intros Hr Hcud Hkind Hax Hfail.
  assert (Hxp : xp_of a = cupy) by (eapply takes_cudnn_cupy, Hcud).
  assert (Hlt : Z.to_nat (axis (self st)) < ndim a)
    by (unfold valid_axis in Hax; lia).
  rewrite (forward_single g st r Hr), Hcud.
  unfold forward_cudnn, bind, lift, get_self, alloc, set_y, store, ret.
  rewrite index_0, (get_tensor4d_shape_valid (self st) (shape a) Hax).
  unfold reshape. rewrite (size_shape4 (shape a) Hlt), Nat.eqb_refl.
  unfold create_tensor_descriptor, data_ptr.
  cbn [dtype_of xp_of shape data heap self].
  rewrite Hkind, Hxp. cbn [Ascii.eqb Bool.eqb].
  unfold empty_like, with_data. cbn [data shape].
  rewrite Hfail. rewrite get_array_module_single, Hxp. reflexivity.
Qed.

Lemma X10_forward_cudnn_failure_witness :
  forward Example.failing [0] (mk_state [Example.x_gpu] (init true 1))
  = (mk_state
       [Example.x_gpu;
        mk_ndarray cupy float32 [2; 3] (map (fun _ => 0%R) (seq 0 6))]
       (remember (init true 1) 1),
     Raise CuDNNError).
Proof.
  apply (@X10_forward_cudnn_failure Example.failing
           (mk_state [Example.x_gpu] (init true 1)) 0 Example.x_gpu).
  - reflexivity.
  - reflexivity.
  - reflexivity.
  - unfold valid_axis, ndim. simpl. lia.
  - reflexivity.
Defined.

(** ** The subtraction of the maximum *)

(** X13. For a valid input without infinities and NaN, in an arithmetic
    with the guarantees of IEEE 754, the array that the subtraction of the
    maximum and [exp] leave holds numbers between 0 and 1 (0 is possible:
    the exponential of a large negative difference underflows), every lane
    along the axis holds an exact 1, where the maximum was, and when the
    axis is short enough for the sum to stay in range the sum of a lane is
    a finite number that is at least 1: the division that follows neither
    divides by zero nor by an infinity. *)
Theorem X13_exponentials_bounded (ar : dtype -> Fp.arithmetic) (u eta : R)
        (a : Fp.ndarray) (axis : Z) :
  valid_input_fp a ->
  valid_axis_fp axis a ->
  all_finite a ->
  standard (ar (Fp.dtype_of a)) u eta ->
  exists e,
    forward_exponentials_fp ar (Fp.xp_of a) a axis = Ok e
    /\ forall idx, in_bounds (Fp.shape a) idx ->
         (exists r, Fp.get e idx = Fp.Fin r /\ (0 <= r <= 1)%R)
         /\ In (Fp.Fin 1) (Fp.lane e (Z.to_nat axis) idx)
         /\ (sum_fits (ar (Fp.dtype_of a)) u eta
                      (nth (Z.to_nat axis) (Fp.shape a) 0) ->
             exists s,
               Fp.fsum (ar (Fp.dtype_of a)) (Fp.lane e (Z.to_nat axis) idx)
               = Fp.Fin s
               /\ (1 <= s)%R).
Proof.
  intros (Hwf & Hnd & Hkind & Hdims) Hax Hfin Hstd.
  set (ax := Z.to_nat axis) in *.
  assert (Hnorm : normalize_axis (Fp.ndim a) axis = Ok ax)
    by (apply normalize_axis_valid; exact Hax).
  assert (Hlt : ax < Fp.ndim a) by (unfold valid_axis_fp in Hax; subst ax; lia).
  pose proof (Forall_nth_pos Hdims Hlt) as Hpos.
  exists (exponentials_fp ar a ax).
  split; [now apply forward_exponentials_fp_ok|].
  intros idx Hb.
  pose proof (@lane_values a ax Hwf Hfin idx Hb) as HL.
  pose proof (@lane_values_nonempty a ax Hpos idx) as Hne.
  pose proof (@length_lane_values a ax idx) as Hlen.
  pose proof (@fp_get_in_lane a ax idx Hb Hlt) as Hin.
  assert (Hlane : Fp.lane (exponentials_fp ar a ax) ax idx
                  = map Fp.Fin
                        (map (exponential_value (ar (Fp.dtype_of a))
                                (maximum (map value (Fp.lane a ax idx))))
                             (map value (Fp.lane a ax idx)))).
  { rewrite (@fp_lane_exponentials ar a ax idx Hb).
    remember (map value (Fp.lane a ax idx)) as xs eqn:Exs.
    rewrite HL. now apply lane_exponentials with (u := u) (eta := eta). }
  split; [|split].
  - unfold exponentials_fp. rewrite fp_get_tabulated by exact Hb.
    unfold exponential_fp_at.
    remember (map value (Fp.lane a ax idx)) as xs eqn:Exs.
    rewrite HL in Hin |- *. apply in_map_iff in Hin.
    destruct Hin as (x & <- & Hx).
    rewrite (fmaximum_fin Hne).
    destruct (@lane_exponential _ u eta Hstd xs x Hx) as (-> & Hunit & _).
    eexists. split; [reflexivity|exact Hunit].
  - rewrite Hlane. apply in_map.
    now apply lane_exponential_one with (u := u) (eta := eta).
  - intros Hfit. rewrite Hlane. rewrite <- Hlen in Hfit.
    destruct (softmax_lane Hstd Hne Hfit) as (s & Es & Hs & _).
    exists s. now split.
Qed.

Lemma X13_exponentials_bounded_witness :
  exists e,
    forward_exponentials_fp (Example.everywhere Example.fixed) numpy
                            Example.x_fp 1 = Ok e
    /\ forall idx, in_bounds [2; 3] idx ->
         (exists r, Fp.get e idx = Fp.Fin r /\ (0 <= r <= 1)%R)
         /\ In (Fp.Fin 1) (Fp.lane e 1 idx)
         /\ (sum_fits Example.fixed 0 (/ 2048) 3 ->
             exists s,
               Fp.fsum Example.fixed (Fp.lane e 1 idx) = Fp.Fin s
               /\ (1 <= s)%R).
Proof.
  apply (@X13_exponentials_bounded (Example.everywhere Example.fixed)
           0%R (/ 2048)%R Example.x_fp 1%Z).
  - split; [reflexivity|]. split; [unfold Fp.ndim; simpl; lia|].
    split; [reflexivity|]. repeat constructor.
  - unfold valid_axis_fp, Fp.ndim. simpl. lia.
  - repeat constructor.
  - apply fixed_standard.
Defined.

(** ** Infinities and NaN in the input *)

Section FpPoison.

Variable A : Fp.arithmetic.

Lemma fmax2_nan_r (v : Fp.fp) : Fp.fmax2 v Fp.NaN = Fp.NaN.
Proof. destruct v as [r|[|]|]; reflexivity. Qed.

Lemma fmaximum_nan (l : list Fp.fp) :
  In Fp.NaN l -> Fp.fmaximum l = Fp.NaN.
Proof.
  induction l as [|v l IH]; [intros []|].
  destruct l as [|w l].
  - intros [->|[]]. reflexivity.
  - intros [->|H].
    + reflexivity.
    + change (Fp.fmaximum (v :: w :: l))
        with (Fp.fmax2 v (Fp.fmaximum (w :: l))).
      rewrite (IH H). apply fmax2_nan_r.
Qed.

Lemma fmaximum_inf (l : list Fp.fp) :
  In (Fp.Inf false) l ->
  Fp.fmaximum l = Fp.NaN \/ Fp.fmaximum l = Fp.Inf false.
Proof.
  induction l as [|v l IH]; [intros []|].
  destruct l as [|w l].
  - intros [->|[]]. now right.
  - change (Fp.fmaximum (v :: w :: l))
      with (Fp.fmax2 v (Fp.fmaximum (w :: l))).
    intros [->|H].
    + destruct (Fp.fmaximum (w :: l)) as [r|[|]|]; simpl; auto.
    + destruct (IH H) as [-> | ->].
      * left. apply fmax2_nan_r.
      * destruct v as [r|[|]|]; simpl; auto.
Qed.

Lemma fsub_nan_r (v : Fp.fp) : Fp.fsub A v Fp.NaN = Fp.NaN.
Proof. destruct v; reflexivity. Qed.

Lemma fdiv_nan_r (v : Fp.fp) : Fp.fdiv A v Fp.NaN = Fp.NaN.
Proof. destruct v; reflexivity. Qed.

Lemma acc_add_nan_r (v : Fp.fp) : Fp.acc_add A v Fp.NaN = Fp.NaN.
Proof. destruct v; reflexivity. Qed.

(** A schedule that adds a NaN evaluates to NaN. *)
Lemma eval_nan (l : list Fp.fp) (t : Fp.sched) (i : nat) :
  In i (Fp.leaves t) -> nth i l Fp.NaN = Fp.NaN ->
  Fp.eval A l t = Fp.NaN.
Proof.
  intros Hi Hn. induction t as [j|a IHa b IHb]; simpl in Hi |- *.
  - destruct Hi as [->|[]]. exact Hn.
  - apply in_app_or in Hi. destruct Hi as [Hi|Hi].
    + now rewrite (IHa Hi).
    + rewrite (IHb Hi). apply acc_add_nan_r.
Qed.

Lemma fsum_nan (l : list Fp.fp) :
  Permutation (Fp.leaves (Fp.order A (length l))) (seq 0 (length l)) ->
  In Fp.NaN l -> Fp.fsum A l = Fp.NaN.
Proof.
  intros Hperm Hin.
  destruct (In_nth _ _ Fp.NaN Hin) as (i & Hi & Hn).
  rewrite fsum_nonempty by (intros ->; destruct Hin).
  rewrite (@eval_nan l _ i); [reflexivity| |exact Hn].
  apply (Permutation_in _ (Permutation_sym Hperm)), in_seq. lia.
Qed.

(** A lane that holds a NaN or the positive infinity: every quotient the
    code computes along it is NaN. *)
Lemma poisoned_lane (l : list Fp.fp) (v : Fp.fp) :
  Permutation (Fp.leaves (Fp.order A (length l))) (seq 0 (length l)) ->
  In Fp.NaN l \/ In (Fp.Inf false) l ->
  Fp.fdiv A (Fp.fexp A (Fp.fsub A v (Fp.fmaximum l)))
    (Fp.fsum A (map (fun w => Fp.fexp A (Fp.fsub A w (Fp.fmaximum l))) l))
  = Fp.NaN.
Proof.
  intros Hperm H.
  assert (HM : Fp.fmaximum l = Fp.NaN
               \/ (Fp.fmaximum l = Fp.Inf false /\ In (Fp.Inf false) l)).
  { destruct H as [H|H]; [left; now apply fmaximum_nan|].
    destruct (@fmaximum_inf l H) as [E|E]; auto. }
  destruct HM as [-> | [-> Hinf]].
  - now rewrite fsub_nan_r.
  - rewrite fsum_nan; [apply fdiv_nan_r|now rewrite length_map|].
    apply in_map_iff. exists (Fp.Inf false). now split.
Qed.

End FpPoison.

(** X21. Where a lane of a valid input along the axis holds a NaN or the
    positive infinity, every output of the [else] branch of [forward]
    along that lane is NaN: the maximum is then NaN or the infinity, the
    infinity minus itself is NaN, and the NaN reaches every quotient
    through the sum. *)
Theorem X21_non_finite_lane (ar : dtype -> Fp.arithmetic) (u eta : R)
        (a : Fp.ndarray) (axis : Z) :
  valid_input_fp a ->
  valid_axis_fp axis a ->
  standard (ar (Fp.dtype_of a)) u eta ->
  exists out,
    forward_generic_fp ar (Fp.xp_of a) a axis = Ok out
    /\ forall idx, in_bounds (Fp.shape a) idx ->
         In Fp.NaN (Fp.lane a (Z.to_nat axis) idx)
         \/ In (Fp.Inf false) (Fp.lane a (Z.to_nat axis) idx) ->
         forall v, In v (Fp.lane out (Z.to_nat axis) idx) -> v = Fp.NaN.
Proof.
  intros (Hwf & Hnd & Hkind & Hdims) Hax Hstd.
  set (ax := Z.to_nat axis) in *.
  assert (Hnorm : normalize_axis (Fp.ndim a) axis = Ok ax)
    by (apply normalize_axis_valid; exact Hax).
  assert (Hlt : ax < Fp.ndim a) by (unfold valid_axis_fp in Hax; subst ax; lia).
  pose proof (Forall_nth_pos Hdims Hlt) as Hpos.
  exists (softmax_fp ar a ax).
  split; [now apply forward_generic_fp_ok|].
  intros idx Hb Hbad v Hv.
  rewrite (@fp_lane_softmax ar a ax idx Hb) in Hv.
  apply in_map_iff in Hv. destruct Hv as (w & <- & _).
  apply poisoned_lane; [|exact Hbad].
  apply (order_perm Hstd). now rewrite fp_length_lane.
Qed.

Lemma X21_non_finite_lane_witness :
  exists out,
    forward_generic_fp (Example.everywhere Example.fixed) numpy
                       Example.with_infinity 1 = Ok out
    /\ Fp.get out [0; 1] = Fp.NaN.
Proof.
  destruct (@X21_non_finite_lane (Example.everywhere Example.fixed)
              0%R (/ 2048)%R Example.with_infinity 1%Z)
    as (out & Hout & Hnan).
  - split; [reflexivity|]. split; [unfold Fp.ndim; simpl; lia|].
    split; [reflexivity|]. repeat constructor.
  - unfold valid_axis_fp, Fp.ndim. simpl. lia.
  - apply fixed_standard.
  - exists out. split; [exact Hout|].
    apply (Hnan [0; 1]).
    + repeat constructor; lia.
    + right. left. reflexivity.
    + assert (Hs : Fp.shape out = [2; 2]).
      { vm_compute in Hout. injection Hout as <-. reflexivity. }
      unfold Fp.lane. rewrite Hs. simpl. right. left. reflexivity.
Defined.

(** ** Inputs of the wrong number, and the defaults of [softmax] *)

Section CallFacts.

Variable g : cuda.

Lemma deref_all_length (x : list ref) (st : state) (xs : list ndarray) :
  deref_all x st = (st, Ok xs) -> length xs = length x.
Proof.
  revert xs. induction x as [|r x IH]; intros xs H.
  - simpl in H. unfold ret in H. now injection H as <-.
  - simpl in H. unfold bind, deref, ret in H.
    destruct (nth_error (heap st) r) as [a|]; [|discriminate].
    pose proof (deref_all_state x st) as Hst.
    destruct (deref_all x st) as [st' [l|e]]; simpl in Hst; subst st';
      [|discriminate].
    injection H as <-. simpl. now rewrite (IH l eq_refl).
Qed.

End CallFacts.

(** X14. A call with no input or with more than one is rejected by the
    type check with [InvalidType] before anything is done; [forward]
    itself, called on an empty tuple, raises IndexError and changes
    nothing. *)
Theorem X14_wrong_number_of_inputs (g : cuda) (st : state) (x : list ref)
        (xs : list ndarray) :
  deref_all x st = (st, Ok xs) ->
  length x <> 1 ->
  call g x st = (st, Raise (InvalidType ExpectSize))
  /\ forward g [] st = (st, Raise IndexError).
Proof.
  intros Hx Hlen. split.
  - unfold call, bind at 1. rewrite Hx.
    unfold bind at 1, get_self. unfold bind at 1, lift.
    unfold check_type_forward. rewrite length_map, (deref_all_length x Hx).
    destruct (Nat.eqb_spec (length x) 1); [contradiction|reflexivity].
  - reflexivity.
Qed.

Lemma X14_wrong_number_of_inputs_witness :
  call Example.host [0; 0] (Example.fresh 1)
  = (Example.fresh 1, Raise (InvalidType ExpectSize))
  /\ forward Example.host [] (Example.fresh 1)
     = (Example.fresh 1, Raise IndexError).
Proof.
  apply (@X14_wrong_number_of_inputs Example.host (Example.fresh 1) [0; 0]
           [Example.x; Example.x]).
  - reflexivity.
  - simpl. lia.
Defined.

(** X15. [softmax(x)] with the default arguments ([use_cudnn=True],
    [axis=1]) accepts every valid input: an input that passes the rank
    check always has an axis 1, and the call returns the softmax along
    it, computed by a function object of its own. *)
Theorem X15_softmax_defaults (g : cuda) (h : list ndarray) (r : ref)
        (a : ndarray) :
  nth_error h r = Some a ->
  valid_input a ->
  backend_known g (init default_use_cudnn default_axis) a ->
  softmax g [r] default_use_cudnn default_axis h
  = (mk_state (h ++ [softmax_of a 1])
              (remember (init default_use_cudnn default_axis) (length h)),
     Ok (length h)).
Proof.
  intros Hr Hv Hb. unfold softmax.
  rewrite (@call_single g (mk_state h (init default_use_cudnn default_axis))
             r a Hr).
  rewrite check_type_forward_single.
  pose proof Hv as (Hwf & Hnd & Hkind & Hpos).
  rewrite Hkind. cbn [Ascii.eqb Bool.eqb].
  destruct (Nat.ltb_spec 1 (ndim a)); [|lia].
  cbn [self init axis].
  destruct (Z.ltb_spec default_axis (Z.of_nat (ndim a)));
    [|unfold default_axis in *; lia].
  apply (@forward_run g (mk_state h (init default_use_cudnn default_axis))
           r a Hr Hv); [|exact Hb].
  unfold valid_axis, default_axis. cbn. lia.
Qed.

Lemma X15_softmax_defaults_witness :
  softmax Example.host [0] default_use_cudnn default_axis [Example.x]
  = (mk_state [Example.x; softmax_of Example.x 1]
              (remember (init true 1) 1), Ok 1).
Proof.
  apply (@X15_softmax_defaults Example.host [Example.x] 0 Example.x).
  - reflexivity.
  - split; [reflexivity|]. split; [unfold ndim; simpl; lia|].
    split; [reflexivity|]. repeat constructor.
  - left. reflexivity.
Defined.

(** X16. On the generic backend [backward] uses its inputs [x] only to
    choose the backend: it returns what it returns for an empty tuple of
    inputs, which depends on [self.y] and [gy] alone. *)
Theorem X16_backward_generic_ignores_inputs (g : cuda) (st : state)
        (x gy : list ref) (xs : list ndarray) :
  deref_all x st = (st, Ok xs) ->
  use_cudnn_path g (self st) xs = Ok false ->
  backward g x gy st = backward g [] gy st
  /\ backward g x gy st = backward_generic gy st.
Proof.
  intros Hx Hgen.
  assert (H : backward g x gy st = backward_generic gy st).
  { unfold backward, bind at 1. rewrite Hx.
    unfold bind, get_self, lift. now rewrite Hgen. }
  split; [|exact H]. rewrite H. reflexivity.
Qed.

Lemma X16_backward_generic_ignores_inputs_witness :
  backward Example.host [0] [2] (Example.with_gradient Example.ones32)
  = backward Example.host [] [2] (Example.with_gradient Example.ones32)
  /\ backward Example.host [0] [2] (Example.with_gradient Example.ones32)
     = backward_generic [2] (Example.with_gradient Example.ones32).
Proof.
  apply (@X16_backward_generic_ignores_inputs Example.host
           (Example.with_gradient Example.ones32) [0] [2] [Example.x]).
  - vm_compute. reflexivity.
  - reflexivity.
Defined.

(** ** Upstream gradients that broadcast *)

Section Broadcast.

(** An extent of an operand is the extent of the result, or 1. *)
Definition stretches (a c : nat) : Prop := a = c \/ a = 1.

Lemma bzip_sound (p q s : list nat) :
  bzip p q = Some s -> Forall2 stretches p s /\ Forall2 stretches q s.
Proof.
  revert q s. induction p as [|a p IH]; intros [|b q] s H; simpl in H;
    try discriminate.
  - injection H as <-. split; constructor.
  - destruct (bzip p q) as [s'|] eqn:E; [|discriminate].
    destruct (IH q s' E) as [Hp Hq].
    destruct (Nat.eqb_spec a b) as [->|Hab].
    + injection H as <-. split; constructor; auto; now left.
    + destruct (Nat.eqb_spec a 1) as [->|Ha].
      * injection H as <-. split; constructor; auto; [now right|now left].
      * destruct (Nat.eqb_spec b 1) as [->|Hb]; [|discriminate].
        injection H as <-. split; constructor; auto; [now left|now right].
Qed.

Lemma bzip_length (p q s : list nat) :
  bzip p q = Some s -> length s = length p.
Proof.
  intros H. destruct (bzip_sound p q H) as [Hp _].
  symmetry. clear H. induction Hp; simpl; congruence.
Qed.

Lemma bzip_stretched (p s : list nat) :
  Forall2 stretches p s -> bzip p s = Some s.
Proof.
  intros H. induction H as [|a c p s Hac _ IH]; [reflexivity|].
  simpl. rewrite IH.
  destruct (Nat.eqb_spec a c) as [->|Hne]; [reflexivity|].
  destruct Hac as [-> | ->]; [contradiction|reflexivity].
Qed.

Lemma bzip_refl (s : list nat) : bzip s s = Some s.
Proof.
  apply bzip_stretched. induction s; constructor; auto. now left.
Qed.

(** An operand against the result with one dimension kept as size 1: the
    result again, except that the kept dimension takes the operand's
    extent. *)
Lemma bzip_against_kept (p s : list nat) (ax : nat) :
  Forall2 stretches p s ->
  bzip p (upd ax 1 s) = Some (upd ax (nth ax p 1) s).
Proof.
  intros H. revert ax. induction H as [|a c p s Hac Hps IH]; intros ax.
  - now destruct ax.
  - destruct ax as [|ax]; simpl.
    + rewrite (bzip_stretched Hps).
      destruct (Nat.eqb_spec a 1); reflexivity.
    + rewrite IH.
      destruct (Nat.eqb_spec a c) as [->|Hne]; [reflexivity|].
      destruct Hac as [-> | ->]; [contradiction|reflexivity].
Qed.

Lemma bzip_back (p s : list nat) (ax : nat) :
  Forall2 stretches p s ->
  bzip s (upd ax (nth ax p 1) s) = Some s.
Proof.
  intros H. revert ax. induction H as [|a c p s Hac Hps IH]; intros ax.
  - now destruct ax.
  - destruct ax as [|ax]; simpl.
    + rewrite bzip_refl.
      destruct (Nat.eqb_spec c a) as [Hca|Hne]; [reflexivity|].
      destruct Hac as [-> | ->]; [contradiction|].
      destruct (Nat.eqb_spec c 1); [congruence|reflexivity].
    + rewrite IH, Nat.eqb_refl. reflexivity.
Qed.

Lemma length_pad (n : nat) (s : list nat) :
  length s <= n -> length (pad n s) = n.
Proof.
  intros H. unfold pad. rewrite length_app, repeat_length. lia.
Qed.

Lemma pad_full (n : nat) (s : list nat) : length s = n -> pad n s = s.
Proof.
  intros H. unfold pad. now rewrite H, Nat.sub_diag.
Qed.

Lemma normalize_axis_wider (m n : nat) (axis : Z) (ax0 : nat) :
  normalize_axis m axis = Ok ax0 -> m <= n ->
  exists ax, normalize_axis n axis = Ok ax.
Proof.
  unfold normalize_axis. intros H Hle.
  destruct ((- Z.of_nat m <=? axis) && (axis <? Z.of_nat m))%Z eqn:E;
    [|discriminate].
  apply andb_true_iff in E. destruct E as [E1 E2].
  apply Z.leb_le in E1. apply Z.ltb_lt in E2.
  replace (- Z.of_nat n <=? axis)%Z with true
    by (symmetry; apply Z.leb_le; lia).
  replace (axis <? Z.of_nat n)%Z with true
    by (symmetry; apply Z.ltb_lt; lia).
  eexists. reflexivity.
Qed.

(** The array operations of the [else] branch of [backward] succeed for
    every upstream gradient that broadcasts against the output. *)
Lemma generic_backward_value_broadcast (ya ga : ndarray) (axis : Z)
      (ax0 : nat) (s : list nat) :
  xp_of ga = xp_of ya ->
  kind (dtype_of ya) = "f"%char ->
  normalize_axis (ndim ya) axis = Ok ax0 ->
  broadcast_shapes (shape ya) (shape ga) = Some s ->
  exists gx,
    generic_backward_value ya ga axis = Ok gx
    /\ shape gx = s
    /\ dtype_of gx = promote (dtype_of ya) (dtype_of ga)
    /\ xp_of gx = xp_of ya.
Proof.
  intros Hxp Hkind Hax Hbc.
  set (n := Nat.max (length (shape ya)) (length (shape ga))).
  assert (Hbz : bzip (pad n (shape ya)) (pad n (shape ga)) = Some s)
    by exact Hbc.
  destruct (bzip_sound _ _ Hbz) as [Hy _].
  assert (Hls : length s = n).
  { rewrite (bzip_length _ _ Hbz). apply length_pad. subst n. lia. }
  destruct (@normalize_axis_wider (ndim ya) (length s) axis ax0 Hax)
    as [ax Hax']; [unfold ndim; lia|].
  unfold generic_backward_value, multiply, binop.
  rewrite Hxp, array_module_eqb_refl, Hbc. cbn [rbind].
  unfold Numpy.sum. unfold ndim at 1. cbn [shape]. rewrite Hax'.
  cbn [rbind]. unfold reduce. cbn [xp_of shape dtype_of].
  rewrite array_module_eqb_refl.
  assert (Hb1 : broadcast_shapes (shape ya) (upd ax 1 s)
                = Some (upd ax (nth ax (pad n (shape ya)) 1) s)).
  { unfold broadcast_shapes. rewrite length_upd, Hls.
    replace (Nat.max (length (shape ya)) n) with n by (subst n; lia).
    rewrite (pad_full (upd ax 1 s)) by (now rewrite length_upd).
    now apply bzip_against_kept. }
  rewrite Hb1. cbn [rbind].
  unfold isubtract, inplace. cbn [xp_of shape dtype_of].
  rewrite array_module_eqb_refl.
  assert (Hb2 : broadcast_shapes s (upd ax (nth ax (pad n (shape ya)) 1) s)
                = Some s).
  { unfold broadcast_shapes. rewrite length_upd, Nat.max_id.
    rewrite (pad_full s eq_refl).
    rewrite (pad_full (upd ax _ s)) by (now rewrite length_upd).
    now apply bzip_back. }
  rewrite Hb2.
  destruct (list_eq_dec Nat.eq_dec s s) as [_|N]; [|congruence].
  unfold can_cast.
  rewrite (@promote_float_l ya Hkind (dtype_of ga)). cbn [Ascii.eqb Bool.eqb orb].
  eexists. split; [reflexivity|]. unfold with_data. cbn. auto.
Qed.

End Broadcast.

(** X17. On the generic backend, for a memoized output and an upstream
    gradient of at least one dimension each, [backward] returns a gradient
    exactly when the shape of the upstream gradient broadcasts against the
    shape of the memoized output (the ranks may differ); the gradient then
    has the broadcast shape, which need not be the shape of the input, and
    the promoted dtype. Otherwise it raises ValueError. *)
Theorem X17_backward_accepts_broadcast (g : cuda) (st : state)
        (r yr gr : ref) (rest : list ref) (a ya ga : ndarray) (ax0 : nat) :
  nth_error (heap st) r = Some a ->
  takes_cudnn g (self st) (xp_of a) (dtype_of a) = false ->
  y (self st) = Some yr ->
  nth_error (heap st) yr = Some ya ->
  nth_error (heap st) gr = Some ga ->
  xp_of ga = xp_of ya ->
  kind (dtype_of ya) = "f"%char ->
  1 <= ndim ya ->
  1 <= ndim ga ->
  normalize_axis (ndim ya) (axis (self st)) = Ok ax0 ->
  match broadcast_shapes (shape ya) (shape ga) with
  | Some s =>
      exists gx,
        outcome (backward g [r] (gr :: rest) st) = Ok gx
        /\ shape gx = s
        /\ dtype_of gx = promote (dtype_of ya) (dtype_of ga)
  | None => backward g [r] (gr :: rest) st = (st, Raise ValueError)
  end.
Proof.
  intros Hr Hgen Hy Hya Hga Hxp Hkind _ _ Hax.
  rewrite (backward_single g st r (gr :: rest) Hr), Hgen.
  destruct (broadcast_shapes (shape ya) (shape ga)) as [s|] eqn:Hbc.
  - destruct (@generic_backward_value_broadcast ya ga (axis (self st)) ax0 s
                Hxp Hkind Hax Hbc) as (gx & Hval & Hs & Hd & _).
    exists gx.
    rewrite (@backward_generic_run st yr gr rest ya ga gx Hy Hya Hga Hval).
    unfold outcome. cbn [fst snd heap]. rewrite nth_error_snoc. auto.
  - unfold backward_generic, bind, lift, get_y, deref.
    rewrite Hy, Hya, index_0, Hga.
    unfold multiply, binop.
    now rewrite Hxp, array_module_eqb_refl, Hbc.
Qed.

Lemma X17_backward_accepts_broadcast_witness :
  exists gx,
    outcome (backward Example.host [0] [2]
               (Example.with_gradient Example.row32)) = Ok gx
    /\ shape gx = [2; 3]
    /\ dtype_of gx = float32.
Proof.
  apply (@X17_backward_accepts_broadcast Example.host
           (Example.with_gradient Example.row32) 0 1 2 []
           Example.x (softmax_of Example.x 1) Example.row32 1).
  - reflexivity.
  - reflexivity.
  - vm_compute. reflexivity.
  - vm_compute. reflexivity.
  - vm_compute. reflexivity.
  - reflexivity.
  - reflexivity.
  - unfold ndim. simpl. lia.
  - unfold ndim. simpl. lia.
  - reflexivity.
Defined.

(** ** The returned output is the memoized one *)

(** X18. [forward] returns [self.y] itself, not a copy: when the caller
    overwrites the returned array, the generic [backward] computes its
    gradient from the overwritten values. *)
Theorem X18_output_is_aliased (g : cuda) (st : state) (r gr : ref)
        (a ga z : ndarray) :
  nth_error (heap st) r = Some a ->
  nth_error (heap st) gr = Some ga ->
  valid_input a ->
  valid_axis (axis (self st)) a ->
  takes_cudnn g (self st) (xp_of a) (dtype_of a) = false ->
  exists p,
    snd (forward g [r] st) = Ok p
    /\ outcome (backward g [r] [gr]
                  (fst (store p z (fst (forward g [r] st)))))
       = generic_backward_value z ga (axis (self st)).
Proof.
  intros Hr Hgr Hv Hax Hgen.
  exists (length (heap st)).
  rewrite (@forward_run g st r a Hr Hv Hax (or_introl Hgen)).
  cbn [fst snd]. split; [reflexivity|].
  unfold store. cbn [fst heap self]. rewrite upd_snoc.
  rewrite (@backward_single g _ r a [gr]);
    [|cbn [heap]; now apply nth_error_app_old].
  assert (Ht : takes_cudnn g (remember (self st) (length (heap st)))
                           (xp_of a) (dtype_of a) = false) by exact Hgen.
  cbn [self]. rewrite Ht.
  destruct (backward_generic_effect [gr]
              (mk_state (heap st ++ [z])
                        (remember (self st) (length (heap st)))))
    as [Hout _].
  rewrite Hout. unfold generic_backward_outcome.
  cbn [self heap remember y axis].
  rewrite nth_error_snoc, index_0. cbn [rbind].
  now rewrite (nth_error_app_old _ _ _ Hgr).
Qed.

Lemma X18_output_is_aliased_witness :
  exists p,
    snd (forward Example.host [0]
           (mk_state [Example.x; Example.ones32] (init true 1))) = Ok p
    /\ outcome (backward Example.host [0] [1]
                  (fst (store p Example.ones32
                          (fst (forward Example.host [0]
                                  (mk_state [Example.x; Example.ones32]
                                            (init true 1)))))))
       = generic_backward_value Example.ones32 Example.ones32 1.
Proof.
  apply (@X18_output_is_aliased Example.host
           (mk_state [Example.x; Example.ones32] (init true 1)) 0 1
           Example.x Example.ones32 Example.ones32).
  - reflexivity.
  - reflexivity.
  - split; [reflexivity|]. split; [unfold ndim; simpl; lia|].
    split; [reflexivity|]. repeat constructor.
  - unfold valid_axis, ndim. simpl. lia.
  - reflexivity.
Defined.

(** ** The two branches under the documented behaviour of the library *)

(** X19. If the cuDNN library computes what its documentation says (the
    channel-mode accurate softmax of an NCHW tensor), then for a valid
    input on the accelerator and an axis in [0, rank) the [if] branch of
    [forward] ends in the same store, with the same [self.y] and the same
    result, as the [else] branch: the (left, center, right, 1) view, the
    mode, [alpha = 1] and [beta = 0] make the library compute the softmax
    along the axis. *)
Theorem X19_forward_branches_agree (g : cuda) (st : state) (a : ndarray) :
  Cudnn.honours_contract (libcudnn g) ->
  valid_input a ->
  xp_of a = cupy ->
  valid_axis (axis (self st)) a ->
  forward_cudnn g [a] st = forward_generic [a] st.
Proof.
  intros Hlib Hv Hxp Hax.
  pose proof Hv as (Hwf & Hnd & Hkind & Hpos).
  assert (Hlt : Z.to_nat (axis (self st)) < ndim a)
    by (unfold valid_axis in Hax; lia).
  rewrite (@forward_cudnn_run g Hlib st a Hwf Hxp Hkind Hax).
  symmetry. apply forward_generic_run.
  rewrite get_array_module_single.
  apply generic_forward_value_ok; auto.
  - now apply valid_axis_normalize.
  - now apply Forall_nth_pos.
Qed.

Lemma X19_forward_branches_agree_witness :
  forward_cudnn Example.device [Example.x_gpu]
                (mk_state [Example.x_gpu] (init true 1))
  = forward_generic [Example.x_gpu]
                    (mk_state [Example.x_gpu] (init true 1)).
Proof.
  apply (@X19_forward_branches_agree Example.device
           (mk_state [Example.x_gpu] (init true 1)) Example.x_gpu).
  - apply reference_honours_contract.
  - split; [reflexivity|]. split; [unfold ndim; simpl; lia|].
    split; [reflexivity|]. repeat constructor.
  - reflexivity.
  - unfold valid_axis, ndim. simpl. lia.
Defined.

(** X20. Under the same assumption on the library, for the memoized output
    of a valid input on the accelerator and an upstream gradient on the
    accelerator that has the shape and the element type of the input (so
    that the buffers the library reads through [data.ptr] hold what the
    descriptor of the gradient says), the [if] branch and the [else] branch
    of [backward] return arrays of the same shape and element type with the
    same elements. *)
Theorem X20_backward_branches_agree (g : cuda) (st : state) (a ga : ndarray)
        (yr gr : ref) (rest : list ref) :
  Cudnn.honours_contract (libcudnn g) ->
  valid_input a ->
  xp_of a = cupy ->
  valid_axis (axis (self st)) a ->
  y (self st) = Some yr ->
  nth_error (heap st) yr = Some (softmax_of a (Z.to_nat (axis (self st)))) ->
  nth_error (heap st) gr = Some ga ->
  wf ga -> xp_of ga = cupy -> shape ga = shape a ->
  dtype_of ga = dtype_of a ->
  exists o1 o2,
    outcome (backward_cudnn g [a] (gr :: rest) st) = Ok o1
    /\ outcome (backward_generic (gr :: rest) st) = Ok o2
    /\ shape o1 = shape o2
    /\ dtype_of o1 = dtype_of o2
    /\ data o1 = data o2.
Proof.
  intros Hlib Hv Hxp Hax Hy Hya Hga Hwg Hxg Hsg Hdg.
  pose proof Hv as (Hwf & Hnd & Hkind & Hpos).
  assert (Hlt : Z.to_nat (axis (self st)) < ndim a)
    by (unfold valid_axis in Hax; lia).
  set (ya := softmax_of a (Z.to_nat (axis (self st)))) in *.
  rewrite (@backward_cudnn_run g st a ya ga yr gr rest Hlib Hxp Hkind Hax
             Hy Hya Hga (wf_softmax_of a _) Hwg Hxp Hxg eq_refl Hsg).
  assert (Hval : generic_backward_value ya ga (axis (self st))
                 = Ok (backward_of ya ga (Z.to_nat (axis (self st))))).
  { apply generic_backward_value_ok.
    - exact Hsg.
    - simpl. congruence.
    - now apply valid_axis_normalize.
    - exact Hkind. }
  rewrite (@backward_generic_run st yr gr rest ya ga _ Hy Hya Hga Hval).
  unfold outcome. cbn [fst snd heap]. rewrite !nth_error_snoc.
  eexists. eexists. split; [reflexivity|]. split; [reflexivity|].
  split; [reflexivity|]. split.
  - cbn [dtype_of backward_of ya softmax_of]. rewrite Hdg.
    symmetry. apply promote_same.
  - simpl. apply tabulate_ext. intros idx Hb.
    symmetry. apply backward_at_vjp.
Qed.

Lemma X20_backward_branches_agree_witness :
  exists o1 o2,
    outcome (backward_cudnn Example.device [Example.x_gpu] [2]
                            Example.forwarded_gpu) = Ok o1
    /\ outcome (backward_generic [2] Example.forwarded_gpu) = Ok o2
    /\ shape o1 = shape o2
    /\ dtype_of o1 = dtype_of o2
    /\ data o1 = data o2.
Proof.
  apply (@X20_backward_branches_agree Example.device Example.forwarded_gpu
           Example.x_gpu Example.ones_gpu 1 2 []).
  - apply reference_honours_contract.
  - split; [reflexivity|]. split; [unfold ndim; simpl; lia|].
    split; [reflexivity|]. repeat constructor.
  - reflexivity.
  - unfold valid_axis, ndim. simpl. lia.
  - reflexivity.
  - reflexivity.
  - reflexivity.
  - reflexivity.
  - reflexivity.
  - reflexivity.
  - reflexivity.
Defined.
